(** * Per-participant audio pipeline, track correlation and relay queue

    A shallow embedding of the Meet audio-capture extension:

    - [Codec]       : [resampleFloat32], [floatTo16BitPCM] and the frame loop
                      of the worklet [port.onmessage] handler
                      (multi-track capture and the offscreen capture script);
    - [Detector]    : the participant detector ([inspectTrackLabel], the
                      [WEBRTC_TRACK_ADDED] / [WEBRTC_TRACK_REMOVED] listener,
                      [assignPendingTracks], the fallback timer);
    - [Supervisor]  : [handleRemoteTrack] and the multi-track message listener;
    - [Relay]       : [handlePortMessage] of the background service worker and
                      the WebSocket callbacks it installs;
    - [Mixer]       : the downmix of [MonoCaptureProcessor.process] and
                      [downmixToMono];
    - [OffscreenRun]: the socket of the offscreen script over its life;
    - [Background]  : [sanitize] and [extractMeetRoomCode];
    - [Bridge]      : the content script between the page and the relay;
    - [Interceptor] : [handleRemoteAudioTrack] and the track registry.

    Numbers.  JavaScript numbers are modelled by rationals ([Q]); infinities
    and NaN are not represented.  Rounding is modelled where the result
    depends on it: [JS.f64] rounds to the nearest binary64 number and [JS.f32]
    to the nearest binary32 number (ties to even, subnormals included,
    overflow left out).  The index arithmetic of [resampleFloat32] (the ratio
    of the rates, the output length, the window boundaries) is rounded as the
    code rounds it, and so are the sums and the quotient of the downmix, which
    go through a Float32Array.  Sample values elsewhere (the averages of the
    resampler, the gain and the scaling of the quantizer) are exact.
    [Math.round] is [floor (x + 1/2)]; the Int16Array store truncates toward
    zero and wraps modulo 2^16. *)

From stdpp Require Import gmap strings list fin_maps pretty.
From Stdlib Require Import QArith Qround Qabs Qpower ZArith Lia Lqa Ascii.

Close Scope Q_scope.

(** ** JavaScript numeric primitives *)

Module JS.

Local Open Scope Q_scope.

(** [a < b] on numbers. *)
Definition lt (a b : Q) : bool := negb (Qle_bool b a).

(** [a === b] on numbers. *)
Definition eqn (a b : Q) : bool := Qeq_bool a b.

(** [Math.round]: nearest integer, halves go up. *)
Definition Math_round (x : Q) : Z := Qfloor (x + (1 # 2)).

(** [Math.abs]. *)
Definition Math_abs (x : Q) : Q := Qabs x.

(** [Math.min]. *)
Definition Math_min (a b : Q) : Q := if Qle_bool a b then a else b.

(** Truncation toward zero (the [ToIntegerOrInfinity] step of a typed-array
    store). *)
Definition trunc (x : Q) : Z := Z.quot (Qnum x) (Zpos (Qden x)).

(** The Int16Array store: truncate, then wrap into [-2^15, 2^15). *)
Definition ToInt16 (x : Q) : Z :=
  ((trunc x + 32768) mod 65536 - 32768)%Z.

(** The number of a length or an index. *)
Definition num (n : nat) : Q := inject_Z (Z.of_nat n).

(** *** Floating-point rounding *)

(** [floor (log2 x)] for a positive [x]. *)
Definition ilog2 (x : Q) : Z :=
  let l := (Z.log2 (Qnum x) - Z.log2 (Zpos (Qden x)))%Z in
  if Qle_bool (2 ^ l) x then l else (l - 1)%Z.

(** The nearest integer, a half going to the even neighbour. *)
Definition round_half_even (x : Q) : Z :=
  let f := Qfloor x in
  match Qcompare (x - inject_Z f) (1 # 2) with
  | Lt => f
  | Gt => (f + 1)%Z
  | Eq => if Z.even f then f else (f + 1)%Z
  end.

(** Rounding to the nearest binary floating-point number with a significand
    of [prec] bits and least exponent [emin], ties to even: the result is a
    multiple of [2 ^ e], where [e] is the exponent of the last significand bit
    of [x], or [emin] for a subnormal. *)
Definition fround (prec emin : Z) (x : Q) : Q :=
  if Qeq_bool x 0 then 0
  else
    let e := Z.max (ilog2 (Qabs x) - prec + 1) emin in
    inject_Z (round_half_even (x / 2 ^ e)) * 2 ^ e.

(** The result of an arithmetic operation on numbers (binary64). *)
Definition f64 (x : Q) : Q := fround 53 (-1074) x.

(** The Float32Array store (binary32). *)
Definition f32 (x : Q) : Q := fround 24 (-149) x.

End JS.

(** ** Frame codec and frame loop *)

Module Codec.

Import JS.
Local Open Scope Q_scope.

(** A Float32Array, as the sequence of its elements. *)
Abbreviation Float32Array := (list Q).

(** An Int16Array (the PCM payload of one message). *)
Abbreviation Int16Array := (list Z).

(** *** [resampleFloat32] *)

(** The inner [for] loop: [k] is [nextOffsetBuffer - i], the iterations that
    [i < nextOffsetBuffer] still allows; the loop also stops at the end of the
    buffer. *)
Fixpoint window_loop (buffer : Float32Array) (k i : nat) (accum : Q) (count : nat)
  : Q * nat :=
  match k with
  | O => (accum, count)
  | S k' =>
      if (i <? length buffer)%nat
      then window_loop buffer k' (S i) (accum + nth i buffer 0) (S count)
      else (accum, count)
  end.

(** The outer [while (offsetResult < newLength)] loop: [n] is
    [newLength - offsetResult].  The product [(offsetResult + 1) * ratio] is a
    double; the average is exact. *)
Fixpoint resample_loop (buffer : Float32Array) (ratio : Q)
    (n offsetResult offsetBuffer : nat) : Float32Array :=
  match n with
  | O => []
  | S n' =>
      let nextOffsetBuffer :=
        Z.to_nat (Math_round (f64 (num (offsetResult + 1) * ratio))) in
      let '(accum, count) :=
        window_loop buffer (nextOffsetBuffer - offsetBuffer) offsetBuffer 0 0 in
      (if (0 <? count)%nat then accum / num count else 0)
        :: resample_loop buffer ratio n' (S offsetResult) nextOffsetBuffer
  end.

(** [resampleFloat32]: the ratio of the rates and the quotient that gives the
    output length are doubles. *)
Definition resampleFloat32 (buffer : Float32Array) (sourceRate targetRate : Q)
  : Float32Array :=
  if eqn sourceRate targetRate then buffer
  else
    let ratio := f64 (sourceRate / targetRate) in
    let newLength := Z.to_nat (Math_round (f64 (num (length buffer) / ratio))) in
    resample_loop buffer ratio newLength 0 0.

(** *** [floatTo16BitPCM] *)

(** Peak search of [ParticipantAudioProcessor.floatTo16BitPCM]. *)
Definition peak_of (float32 : Float32Array) : Q :=
  fold_left (fun peak x => let abs := Math_abs x in if lt peak abs then abs else peak)
            float32 0.

(** The auto-gain chosen from the peak. *)
Definition gain_of (peak : Q) : Q :=
  if lt (1 # 100000) peak && lt peak (3 # 10)
  then Math_min 50 ((7 # 10) / peak)
  else 1.

(** Clamp of one sample. *)
Definition clamp (s : Q) : Q :=
  if lt 1 s then 1 else if lt s (-1) then -1 else s.

(** The value stored into [out[i]], before the Int16 conversion. *)
Definition scale (s : Q) : Q :=
  if lt s 0 then s * 32768 else s * 32767.

(** [ParticipantAudioProcessor.floatTo16BitPCM] (multi-track capture). *)
Definition floatTo16BitPCM (float32 : Float32Array) : Int16Array :=
  let peak := peak_of float32 in
  let gain := gain_of peak in
  map (fun x => ToInt16 (scale (clamp (x * gain)))) float32.

(** [floatTo16BitPCM] of the offscreen and single-stream capture scripts: no
    gain stage. *)
Definition floatTo16BitPCM_plain (float32 : Float32Array) : Int16Array :=
  map (fun x => ToInt16 (scale (clamp x))) float32.

(** *** The frame loop of the worklet [port.onmessage] handler *)

(** [TypedArray.prototype.subarray(begin, end)] and [slice(begin)], for
    [0 <= begin <= end]. *)
Definition subarray {A} (l : list A) (begin_ end_ : nat) : list A :=
  firstn (end_ - begin_) (skipn begin_ l).

Definition slice {A} (l : list A) (begin_ : nat) : list A := skipn begin_ l.

(** [pcm.byteLength] of the buffer behind an Int16Array. *)
Definition byteLength (pcm : Int16Array) : nat := 2 * length pcm.

(** [Math.round((targetSampleRate * FRAME_MS) / 1000)] with [FRAME_MS = 20]. *)
Definition frameSamples_of (targetSampleRate : Q) : nat :=
  Z.to_nat (Math_round (targetSampleRate * 20 / 1000)).

(** The [while (bufferQueue.length - offset >= frameSamples)] loop.  Every
    frame handed to [sendPCM] is collected, oldest first; the result also
    carries the final [offset] and [bytesSent].  The loop does not terminate
    when [frameSamples] is 0, which is the only way to exhaust [fuel] when
    [fuel] exceeds the queue length; [None] stands for that. *)
Fixpoint frame_loop (quantize : Float32Array -> Int16Array)
    (fuel frameSamples : nat) (bufferQueue : Float32Array)
    (offset bytesSent : nat) : option (list Int16Array * nat * nat) :=
  match fuel with
  | O => None
  | S fuel' =>
      if (Z.of_nat frameSamples <=? Z.of_nat (length bufferQueue) - Z.of_nat offset)%Z
      then
        let frame := subarray bufferQueue offset (offset + frameSamples) in
        let pcm := quantize frame in
        match frame_loop quantize fuel' frameSamples bufferQueue
                (offset + frameSamples) (bytesSent + byteLength pcm) with
        | Some (sent, offset', bytes') => Some (pcm :: sent, offset', bytes')
        | None => None
        end
      else Some ([], offset, bytesSent)
  end.

(** The per-processor state the handler reads and writes. *)
Record buffers := Buffers {
  bufferQueue : Float32Array;
  bytesSent : nat;
}.

Definition new_buffers : buffers := Buffers [] 0.

(** What the worklet posts to the port. *)
Inductive worklet_data :=
  | Debug                          (* { type: "debug", ... } *)
  | Stats                          (* { type: "stats", ... } *)
  | Audio (block : Float32Array)   (* an ArrayBuffer, bare or as data.buffer *)
  | Other.                         (* anything that is not an ArrayBuffer *)

(** The audio branch of the handler, shared by both capture scripts. *)
Definition on_block (quantize : Float32Array -> Int16Array)
    (actualRate targetSampleRate : Q) (frameSamples : nat)
    (st : buffers) (block : Float32Array) : option (buffers * list Int16Array) :=
  if (length block =? 0)%nat then Some (st, [])
  else
    let resampled := resampleFloat32 block actualRate targetSampleRate in
    let queue :=
      if (length (bufferQueue st) =? 0)%nat then resampled
      else bufferQueue st ++ resampled in
    match frame_loop quantize (S (length queue)) frameSamples queue 0 (bytesSent st) with
    | None => None
    | Some (sent, offset, bytes) =>
        Some (Buffers (if (0 <? offset)%nat then slice queue offset else queue) bytes,
              sent)
    end.

(** [workletNode.port.onmessage] of [ParticipantAudioProcessor.setupWorklet]. *)
Definition onmessage (actualRate targetSampleRate : Q) (frameSamples : nat)
    (st : buffers) (data : worklet_data) : option (buffers * list Int16Array) :=
  match data with
  | Debug | Stats => Some (st, [])
  | Audio block => on_block floatTo16BitPCM actualRate targetSampleRate frameSamples st block
  | Other => Some (st, [])
  end.

(** [workletNode.port.onmessage] of the offscreen script's [setupWithWorklet]:
    the data is the bare ArrayBuffer and [bytesSent] is not kept. *)
Definition onmessage_offscreen (actualRate targetSampleRate : Q) (frameSamples : nat)
    (st : buffers) (block : Float32Array) : option (buffers * list Int16Array) :=
  on_block floatTo16BitPCM_plain actualRate targetSampleRate frameSamples st block.

(** A stream of audio blocks through one handler, collecting the frames sent. *)
Fixpoint feed (handler : buffers -> Float32Array -> option (buffers * list Int16Array))
    (st : buffers) (blocks : list Float32Array) : option (buffers * list Int16Array) :=
  match blocks with
  | [] => Some (st, [])
  | block :: rest =>
      match handler st block with
      | None => None
      | Some (st', sent) =>
          match feed handler st' rest with
          | None => None
          | Some (st'', sent') => Some (st'', sent ++ sent')
          end
      end
  end.

End Codec.

(** ** JavaScript [Map]: insertion-ordered, string keys *)

Module JSMap.

Section JSMap.
Context {V : Type}.

Definition t := list (string * V).

Definition empty : t := [].

Fixpoint get (m : t) (k : string) : option V :=
  match m with
  | [] => None
  | (k', v) :: m' => if String.eqb k' k then Some v else get m' k
  end.

Definition has (m : t) (k : string) : bool :=
  match get m k with Some _ => true | None => false end.

(** [set] keeps the position of a key that is present and appends a new one. *)
Fixpoint set (m : t) (k : string) (v : V) : t :=
  match m with
  | [] => [(k, v)]
  | (k', v') :: m' =>
      if String.eqb k' k then (k, v) :: m' else (k', v') :: set m' k v
  end.

Fixpoint delete (m : t) (k : string) : t :=
  match m with
  | [] => []
  | (k', v') :: m' =>
      if String.eqb k' k then delete m' k else (k', v') :: delete m' k
  end.

Definition size (m : t) : nat := length m.

Definition keys (m : t) : list string := map fst m.

End JSMap.

Arguments t : clear implicits.

End JSMap.

(** ** The participant detector *)

Module Detector.

Local Open Scope string_scope.
Local Open Scope Z_scope.

Definition TRACK_ASSIGNMENT_WINDOW_MS : Z := 3000.

(** A registry entry (the DOM [element] is left out). *)
Record participant := Participant {
  participantId : string;
  name : option string;
  timestamp : Z;
  isFallback : bool;
}.

Record pending := Pending {
  p_timestamp : Z;
  p_trackLabel : string;
  p_streamId : string;
  p_fallbackId : string;
}.

(** A callback armed by [setTimeout]: the variables it closes over and the
    time from which it may run. *)
Record timer := Timer {
  t_trackId : string;
  t_fallbackId : string;
  t_due : Z;
}.

Record state := State {
  participantsRegistry : JSMap.t participant;
  trackToParticipant : gmap string string;
  pendingTracks : JSMap.t pending;
  timers : list timer;
}.

Definition init : state := State JSMap.empty ∅ JSMap.empty [].

(** Messages the detector posts to the window. *)
Inductive posted :=
  | TRACK_PARTICIPANT_MAPPED (trackId participantId : string)
      (participantName : option string) (timestamp : Z) (isFallback : bool)
  | MEET_PARTICIPANT_JOINED (participantId : string)
      (participantName : option string) (timestamp : Z).

(** *** [inspectTrackLabel] *)

Definition is_word (c : ascii) : bool :=
  let n := nat_of_ascii c in
  ((48 <=? n) && (n <=? 57) || (65 <=? n) && (n <=? 90)
   || (97 <=? n) && (n <=? 122) || (n =? 95))%nat.

Definition lower (c : ascii) : ascii :=
  let n := nat_of_ascii c in
  if ((65 <=? n) && (n <=? 90))%nat then ascii_of_nat (n + 32) else c.

(** The literal part of a pattern, matched under the [i] flag; the result is
    what follows it. *)
Fixpoint match_literal (lit s : string) : option string :=
  match lit with
  | EmptyString => Some s
  | String c lit' =>
      match s with
      | EmptyString => None
      | String d s' =>
          if Ascii.eqb (lower c) (lower d) then match_literal lit' s' else None
      end
  end.

(** The longest run of [\w] characters at the head of [s]. *)
Fixpoint take_word (s : string) : string :=
  match s with
  | EmptyString => EmptyString
  | String c s' => if is_word c then String c (take_word s') else EmptyString
  end.

(** [/lit[_-](\w+)/i] anchored at the head of [s]: the captured group. *)
Definition match_here (lit s : string) : option string :=
  match match_literal lit s with
  | Some (String sep rest) =>
      if Ascii.eqb sep "_" || Ascii.eqb sep "-"
      then match take_word rest with
           | EmptyString => None
           | w => Some w
           end
      else None
  | _ => None
  end.

(** [s.match(/lit[_-](\w+)/i)]: group 1 of the leftmost match. *)
Fixpoint regex_match (lit s : string) : option string :=
  match match_here lit s with
  | Some w => Some w
  | None =>
      match s with
      | EmptyString => None
      | String _ s' => regex_match lit s'
      end
  end.

Definition patterns : list string := ["participant"; "user"; "peer"].

Fixpoint first_match (pats : list string) (trackLabel : string) : option string :=
  match pats with
  | [] => None
  | pat :: pats' =>
      match regex_match pat trackLabel with
      | Some possibleId => Some possibleId
      | None => first_match pats' trackLabel
      end
  end.

(** A missing label is the empty string. *)
Definition inspectTrackLabel (trackLabel streamId : string) : option string :=
  if String.eqb trackLabel "" then None else first_match patterns trackLabel.

(** *** Timing correlation of pending tracks *)

Definition in_window (a b : Z) : bool :=
  Z.abs (a - b) <? TRACK_ASSIGNMENT_WINDOW_MS.

Definition name_of (registry : JSMap.t participant) (pid : string) : option string :=
  match JSMap.get registry pid with
  | Some info => name info
  | None => None
  end.

Definition assignPendingTracks (st : state) (pid : string)
    (participantJoinedAt now : Z) : state * list posted :=
  let assigned :=
    List.filter (fun e => in_window (p_timestamp (snd e)) participantJoinedAt)
                (pendingTracks st) in
  (State (participantsRegistry st)
         (fold_left (fun m e => <[fst e := pid]> m) assigned (trackToParticipant st))
         (fold_left (fun m e => JSMap.delete m (fst e)) assigned (pendingTracks st))
         (timers st),
   map (fun e => TRACK_PARTICIPANT_MAPPED (fst e) pid
                   (name_of (participantsRegistry st) pid) now false)
       assigned).

(** The body of the scan loop for one element with an id: a participant that
    is new is registered, announced, and offered the pending tracks. *)
Definition participant_seen (st : state) (info : participant) (now : Z)
  : state * list posted :=
  if JSMap.has (participantsRegistry st) (participantId info) then (st, [])
  else
    let st1 := State (JSMap.set (participantsRegistry st) (participantId info) info)
                     (trackToParticipant st) (pendingTracks st) (timers st) in
    let '(st2, out) :=
      assignPendingTracks st1 (participantId info) (timestamp info) now in
    (st2,
     MEET_PARTICIPANT_JOINED (participantId info) (name info) (timestamp info) :: out).

(** *** The window message listener *)

Definition direct_match (st : state) (trackLabel streamId : string) : option string :=
  match inspectTrackLabel trackLabel streamId with
  | Some possibleId =>
      if negb (String.eqb possibleId "") && JSMap.has (participantsRegistry st) possibleId
      then Some possibleId else None
  | None => None
  end.

(** The first registry entry, in iteration order, inside the window. *)
Definition timing_match (st : state) (timestamp_ : Z) : option (string * participant) :=
  List.find (fun e => in_window timestamp_ (timestamp (snd e))) (participantsRegistry st).

Definition fallback_id (trackId : string) : string :=
  String.append "participant-" (String.substring 0 8 trackId).

Definition on_track_added (st : state) (trackId trackLabel streamId : string)
    (timestamp_ now : Z) : state * list posted :=
  match direct_match st trackLabel streamId with
  | Some possibleId =>
      (State (participantsRegistry st) (<[trackId := possibleId]> (trackToParticipant st))
             (pendingTracks st) (timers st),
       [TRACK_PARTICIPANT_MAPPED trackId possibleId
          (name_of (participantsRegistry st) possibleId) now false])
  | None =>
      match timing_match st timestamp_ with
      | Some (pid, info) =>
          (State (participantsRegistry st) (<[trackId := pid]> (trackToParticipant st))
                 (pendingTracks st) (timers st),
           [TRACK_PARTICIPANT_MAPPED trackId pid (name info) now false])
      | None =>
          let fallbackId := fallback_id trackId in
          (State (participantsRegistry st) (trackToParticipant st)
                 (JSMap.set (pendingTracks st) trackId
                    (Pending timestamp_ trackLabel streamId fallbackId))
                 (timers st ++ [Timer trackId fallbackId (now + TRACK_ASSIGNMENT_WINDOW_MS)]),
           [])
      end
  end.

(** The callback armed for a pending track. *)
Definition on_timeout (st : state) (tm : timer) (now : Z) : state * list posted :=
  let trackId := t_trackId tm in
  let fallbackId := t_fallbackId tm in
  if JSMap.has (pendingTracks st) trackId then
    let registry :=
      if JSMap.has (participantsRegistry st) fallbackId then participantsRegistry st
      else
        let participantNumber := (JSMap.size (participantsRegistry st) + 1)%nat in
        JSMap.set (participantsRegistry st) fallbackId
          (Participant fallbackId (Some (String.append "Participant " (pretty participantNumber)))
                       now true) in
    (State registry (<[trackId := fallbackId]> (trackToParticipant st))
           (JSMap.delete (pendingTracks st) trackId) (timers st),
     [TRACK_PARTICIPANT_MAPPED trackId fallbackId (name_of registry fallbackId) now true])
  else (st, []).

Definition on_track_removed (st : state) (trackId : string) : state * list posted :=
  let mapping :=
    match trackToParticipant st !! trackId with
    | Some pid =>
        if String.eqb pid "" then trackToParticipant st
        else delete trackId (trackToParticipant st)
    | None => trackToParticipant st
    end in
  (State (participantsRegistry st) mapping
         (JSMap.delete (pendingTracks st) trackId) (timers st),
   []).

(** What reaches the detector: window messages, a scanned participant, and an
    armed callback (by its position among the armed ones) coming due. *)
Inductive event :=
  | WEBRTC_TRACK_ADDED (trackId trackLabel streamId : string) (timestamp_ now : Z)
  | WEBRTC_TRACK_REMOVED (trackId : string)
  | PARTICIPANT_SEEN (info : participant) (now : Z)
  | TIMEOUT (n : nat) (now : Z).

Definition step (st : state) (ev : event) : state * list posted :=
  match ev with
  | WEBRTC_TRACK_ADDED trackId trackLabel streamId timestamp_ now =>
      on_track_added st trackId trackLabel streamId timestamp_ now
  | WEBRTC_TRACK_REMOVED trackId => on_track_removed st trackId
  | PARTICIPANT_SEEN info now => participant_seen st info now
  | TIMEOUT n now =>
      match timers st !! n with
      | Some tm =>
          if now <? t_due tm then (st, [])
          else
            on_timeout (State (participantsRegistry st) (trackToParticipant st)
                              (pendingTracks st) (List.app (take n (timers st)) (drop (S n) (timers st))))
                       tm now
      | None => (st, [])
      end
  end.

(** A run of the listener; the posted messages in order. *)
Fixpoint run (st : state) (evs : list event) : state * list posted :=
  match evs with
  | [] => (st, [])
  | ev :: evs' =>
      let '(st1, out1) := step st ev in
      let '(st2, out2) := run st1 evs' in
      (st2, List.app out1 out2)
  end.

End Detector.

(** ** The multi-track supervisor *)

Module Supervisor.

Local Open Scope string_scope.

Definition DEFAULT_SAMPLE_RATE : Q := 16000%Q.

(** A MediaStreamTrack, by the fields the listener reads. *)
Record track := Track {
  id : string;
  kind : string;
  label : string;
}.

(** An entry of the interceptor's [tracksRegistry]. *)
Record trackInfo := TrackInfo {
  ti_trackId : string;
  ti_track : track;
  ti_streamId : string;
  ti_pcId : string;
  capturedAt : Z;
}.

Record ParticipantAudioProcessor := Processor {
  participantId : string;
  participantName : string;
  p_track : track;
  targetSampleRate : Q;
  buffers : Codec.buffers;
  isRunning : bool;
}.

(** The module's globals; an unset string is empty. *)
Record state := State {
  _tabId : option Z;
  _meetingId : string;
  _wsBaseUrl : string;
  audioProcessors : JSMap.t ParticipantAudioProcessor;
}.

Definition init : state := State None "" "" JSMap.empty.

(** The URL built by [openWebSocket], by its parts. *)
Record ws_url := WsUrl {
  base : string;
  room : string;
  participant : string;
  sampleRate : Q;
}.

(** Messages the supervisor posts to the window. *)
Inductive posted :=
  | AUDIO_WS_OPEN (url : ws_url) (tabId : option Z) (participantId : string)
  | AUDIO_WS_CLOSE (tabId : option Z) (participantId : string)
  | WEBRTC_TRACK_ADDED (trackId trackLabel streamId pcId : string) (timestamp : Z).

Definition new_processor (participantId participantName : string) (track_ : track)
    (targetSampleRate : Q) : ParticipantAudioProcessor :=
  Processor participantId
            (if String.eqb participantName "" then participantId else participantName)
            track_ targetSampleRate Codec.new_buffers false.

Definition openWebSocket (st : state) (p : ParticipantAudioProcessor) : list posted :=
  if String.eqb (_wsBaseUrl st) "" || String.eqb (_meetingId st) "" then []
  else [AUDIO_WS_OPEN (WsUrl (_wsBaseUrl st) (_meetingId st) (participantId p)
                             (targetSampleRate p))
                      (_tabId st) (participantId p)].

Definition stop (st : state) (p : ParticipantAudioProcessor)
  : ParticipantAudioProcessor * list posted :=
  (Processor (participantId p) (participantName p) (p_track p) (targetSampleRate p)
             (buffers p) false,
   [AUDIO_WS_CLOSE (_tabId st) (participantId p)]).

(** [start]: [acquired] tells whether the audio context and the worklet could
    be set up; a failure ends in [stop]. *)
Definition start (st : state) (p : ParticipantAudioProcessor) (acquired : bool)
  : ParticipantAudioProcessor * list posted :=
  if isRunning p then (p, [])
  else if acquired then
    (Processor (participantId p) (participantName p) (p_track p) (targetSampleRate p)
               (buffers p) true,
     openWebSocket st p)
  else stop st p.

Definition handleRemoteTrack (st : state) (participantId participantName : string)
    (track_ : track) (acquired : bool) : state * list posted :=
  if JSMap.has (audioProcessors st) participantId then (st, [])
  else
    let processor :=
      new_processor participantId participantName track_ DEFAULT_SAMPLE_RATE in
    let '(processor', out) := start st processor acquired in
    (State (_tabId st) (_meetingId st) (_wsBaseUrl st)
           (JSMap.set (audioProcessors st) participantId processor'),
     out).

(** [TRACK_PARTICIPANT_MAPPED]; [tracksRegistry] is the interceptor's registry
    at that moment, if the interceptor is installed. *)
Definition on_mapped (st : state) (tracksRegistry : option (JSMap.t trackInfo))
    (trackId participantId participantName : string) (acquired : bool)
  : state * list posted :=
  match tracksRegistry with
  | Some registry =>
      match JSMap.get registry trackId with
      | Some info => handleRemoteTrack st participantId participantName (ti_track info) acquired
      | None => (st, [])
      end
  | None => (st, [])
  end.

(** [WEBRTC_TRACK_REMOVED]: the first processor bound to the track. *)
Definition on_removed (st : state) (trackId : string) : state * list posted :=
  match List.find (fun e => String.eqb (id (p_track (snd e))) trackId) (audioProcessors st) with
  | Some (pid, processor) =>
      (State (_tabId st) (_meetingId st) (_wsBaseUrl st)
             (JSMap.delete (audioProcessors st) pid),
       snd (stop st processor))
  | None => (st, [])
  end.

(** [AUDIO_CAPTURE_START_MULTITRACK]: the globals are set and every audio
    track already in the interceptor's registry is announced again. *)
Definition on_start (st : state) (tabId : option Z) (meetingId wsUrl : string)
    (tracksRegistry : option (JSMap.t trackInfo)) (now : Z) : state * list posted :=
  (State tabId meetingId wsUrl (audioProcessors st),
   match tracksRegistry with
   | Some registry =>
       map (fun e =>
              let info := snd e in
              WEBRTC_TRACK_ADDED (ti_trackId info) (label (ti_track info))
                (ti_streamId info) (ti_pcId info)
                (if Z.eqb (capturedAt info) 0 then now else capturedAt info))
           (List.filter (fun e => String.eqb (kind (ti_track (snd e))) "audio") registry)
   | None => []
   end).

(** [AUDIO_CAPTURE_STOP_MULTITRACK]. *)
Definition on_stop_all (st : state) : state * list posted :=
  (State (_tabId st) (_meetingId st) (_wsBaseUrl st) JSMap.empty,
   concat (map (fun e => snd (stop st (snd e))) (audioProcessors st))).

Inductive event :=
  | TRACK_PARTICIPANT_MAPPED (tracksRegistry : option (JSMap.t trackInfo))
      (trackId participantId participantName : string) (acquired : bool)
  | WEBRTC_TRACK_REMOVED (trackId : string)
  | AUDIO_CAPTURE_START_MULTITRACK (tabId : option Z) (meetingId wsUrl : string)
      (tracksRegistry : option (JSMap.t trackInfo)) (now : Z)
  | AUDIO_CAPTURE_STOP_MULTITRACK.

Definition step (st : state) (ev : event) : state * list posted :=
  match ev with
  | TRACK_PARTICIPANT_MAPPED registry trackId pid pname acquired =>
      on_mapped st registry trackId pid pname acquired
  | WEBRTC_TRACK_REMOVED trackId => on_removed st trackId
  | AUDIO_CAPTURE_START_MULTITRACK tabId meetingId wsUrl registry now =>
      on_start st tabId meetingId wsUrl registry now
  | AUDIO_CAPTURE_STOP_MULTITRACK => on_stop_all st
  end.

Fixpoint run (st : state) (evs : list event) : state * list posted :=
  match evs with
  | [] => (st, [])
  | ev :: evs' =>
      let '(st1, out1) := step st ev in
      let '(st2, out2) := run st1 evs' in
      (st2, List.app out1 out2)
  end.

End Supervisor.

(** ** The relay: WebSocket proxy of the background service worker *)

Module Relay.

(** An ArrayBuffer, as its bytes. *)
Abbreviation ArrayBuffer := (list Z).

(** The [buffer] field of a port message. *)
Inductive js_buffer :=
  | Buffer (bytes : ArrayBuffer)
  | View (backing : ArrayBuffer) (byteOffset byteLength : nat)
  | PlainObject (numericKeys : bool) (nkeys : nat) (elem : nat -> Z)
      (* a typed array that was serialized to { "0": b0, "1": b1, ... }:
         whether every key parses as an integer, the number of keys, and
         [buffer[i] || 0] *)
  | NotABuffer.

(** A port message; an absent string field is empty, [tabId] is [None] when it
    is not a number, [byteLength] is 0 when absent. *)
Record message := Message {
  tabId : option Z;
  participantId : string;
  url : string;
  buffer : js_buffer;
  byteLength : nat;
}.

(** What the callbacks of one socket close over. *)
Inductive owner :=
  | ByParticipant (participantMap : nat) (tabId : Z) (participantId : string)
  | ByTab (tabId : Z).

(** A connection state object together with its socket: [ws_sent] lists the
    buffers handed to [ws.send], oldest first; [ws_closed] records a call of
    [ws.close]. *)
Record conn := Conn {
  c_url : string;
  ready : bool;
  queue : list ArrayBuffer;
  _byteCounter : nat;
  ws_sent : list ArrayBuffer;
  ws_closed : bool;
  c_owner : owner;
}.

(** Objects are kept in two stores and named by their position: the state
    objects and the per-tab participant maps.  The two global maps hold
    references into them. *)
Record state := State {
  conns : list conn;
  participantMaps : list (gmap string nat);
  __wsByTabAndParticipant : gmap Z nat;
  __wsByTab : gmap Z nat;
  keepAlive : bool;
}.

Definition init : state := State [] [] ∅ ∅ false.

Definition update_conn (st : state) (c : nat) (f : conn -> conn) : state :=
  match conns st !! c with
  | Some x =>
      State (<[c := f x]> (conns st)) (participantMaps st)
            (__wsByTabAndParticipant st) (__wsByTab st) (keepAlive st)
  | None => st
  end.

Definition close_ws (x : conn) : conn :=
  Conn (c_url x) (ready x) (queue x) (_byteCounter x) (ws_sent x) true (c_owner x).

(** [participantMap?.get(participantId)] for the map registered for the tab. *)
Definition participant_state (st : state) (tab : Z) (pid : string) : option nat :=
  match __wsByTabAndParticipant st !! tab with
  | Some pm =>
      match participantMaps st !! pm with
      | Some m => m !! pid
      | None => None
      end
  | None => None
  end.

(** [msg.byteLength || (buffer && buffer.byteLength) || 0]. *)
Definition byteLength_of (msg : message) : nat :=
  if (0 <? byteLength msg)%nat then byteLength msg
  else match buffer msg with
       | Buffer bytes => List.length bytes
       | View _ _ len => len
       | _ => 0%nat
       end.

(** The buffer an [AUDIO_WS_SEND] message carries, once brought to an
    ArrayBuffer; [None] where the handler gives up. *)
Definition normalize (msg : message) : option ArrayBuffer :=
  match buffer msg with
  | Buffer bytes => Some bytes
  | View backing byteOffset len => Some (take len (drop byteOffset backing))
  | PlainObject numericKeys nkeys elem =>
      let isSerializedTypedArray := (0 <? nkeys)%nat && numericKeys in
      if isSerializedTypedArray || (0 <? byteLength_of msg)%nat
      then Some (map (fun i => (elem i) mod 256)%Z
                     (seq 0 (if (byteLength_of msg =? 0)%nat then nkeys
                             else byteLength_of msg)))
      else None
  | NotABuffer => None
  end.

(** The state object an [AUDIO_WS_SEND] message reaches, with the buffer. *)
Definition send_target (st : state) (msg : message) : option (nat * ArrayBuffer) :=
  match tabId msg with
  | None => None
  | Some tab =>
      match normalize msg with
      | None => None
      | Some buf =>
          let found :=
            if String.eqb (participantId msg) ""%string then __wsByTab st !! tab
            else participant_state st tab (participantId msg) in
          match found with
          | Some c =>
              match conns st !! c with
              | Some _ => Some (c, buf)
              | None => None
              end
          | None => None
          end
      end
  end.

Definition on_send (st : state) (msg : message) : state :=
  match send_target st msg with
  | None => st
  | Some (c, buf) =>
      let legacy := String.eqb (participantId msg) ""%string in
      update_conn st c (fun x =>
        let counter := (_byteCounter x + byteLength_of msg)%nat in
        let counter := if legacy && (64000 <=? Z.of_nat counter)%Z then 0%nat else counter in
        if ready x
        then Conn (c_url x) (ready x) (queue x) counter (ws_sent x ++ [buf])
                  (ws_closed x) (c_owner x)
        else Conn (c_url x) (ready x) (queue x ++ [buf]) counter (ws_sent x)
                  (ws_closed x) (c_owner x))
  end.

Definition new_conn (url_ : string) (o : owner) : conn :=
  Conn url_ false [] 0 [] false o.

(** [closeWsForTab]. *)
Definition closeWsForTab (st : state) (tab : Z) : state :=
  let st1 :=
    match __wsByTab st !! tab with
    | Some c => update_conn st c close_ws
    | None => st
    end in
  State (conns st1) (participantMaps st1) (__wsByTabAndParticipant st1)
        (delete tab (__wsByTab st1)) (keepAlive st1).

(** "Get or create participant map for this tab". *)
Definition participant_map_for (st : state) (tab : Z) : state * nat :=
  match __wsByTabAndParticipant st !! tab with
  | Some pm => (st, pm)
  | None =>
      let pm := List.length (participantMaps st) in
      (State (conns st) (participantMaps st ++ [∅])
             (<[tab := pm]> (__wsByTabAndParticipant st)) (__wsByTab st) (keepAlive st),
       pm)
  end.

(** "Close existing connection for this participant if any". *)
Definition close_existing (st : state) (pm : nat) (pid : string) : state :=
  match participantMaps st !! pm with
  | Some m =>
      match m !! pid with
      | Some c => update_conn st c close_ws
      | None => st
      end
  | None => st
  end.

(** The new state object, entered into the participant map. *)
Definition register_participant (st : state) (pm : nat) (tab : Z) (pid url_ : string)
  : state :=
  let c := List.length (conns st) in
  State (conns st ++ [new_conn url_ (ByParticipant pm tab pid)])
        (match participantMaps st !! pm with
         | Some m => <[pm := <[pid := c]> m]> (participantMaps st)
         | None => participantMaps st
         end)
        (__wsByTabAndParticipant st) (__wsByTab st) (keepAlive st).

(** The new state object of the single-stream mode, entered into [__wsByTab]. *)
Definition register_tab (st : state) (tab : Z) (url_ : string) : state :=
  let c := List.length (conns st) in
  State (conns st ++ [new_conn url_ (ByTab tab)]) (participantMaps st)
        (__wsByTabAndParticipant st) (<[tab := c]> (__wsByTab st)) (keepAlive st).

(** [AUDIO_WS_OPEN]; [created] tells whether [new WebSocket(url)] returned. *)
Definition on_open (st : state) (msg : message) (created : bool) : state :=
  if negb (String.eqb (participantId msg) ""%string) then
    match tabId msg with
    | None => st
    | Some tab =>
        if String.eqb (url msg) ""%string then st
        else
          let pid := participantId msg in
          let '(st1, pm) := participant_map_for st tab in
          let st2 := close_existing st1 pm pid in
          if created then register_participant st2 pm tab pid (url msg) else st2
    end
  else
    match tabId msg with
    | None => st
    | Some tab =>
        if String.eqb (url msg) ""%string then st
        else
          let st1 := closeWsForTab st tab in
          if created then register_tab st1 tab (url msg) else st1
    end.

(** [AUDIO_WS_CLOSE]. *)
Definition on_close (st : state) (msg : message) : state :=
  match tabId msg with
  | None => st
  | Some tab =>
      if negb (String.eqb (participantId msg) ""%string) then
        let pid := participantId msg in
        match __wsByTabAndParticipant st !! tab with
        | Some pm =>
            match participantMaps st !! pm with
            | Some m =>
                let st1 :=
                  match m !! pid with
                  | Some c => update_conn st c close_ws
                  | None => st
                  end in
                let m' := delete pid m in
                State (conns st1) (<[pm := m']> (participantMaps st1))
                      (if decide (m' = ∅) then delete tab (__wsByTabAndParticipant st1)
                       else __wsByTabAndParticipant st1)
                      (__wsByTab st1) (keepAlive st1)
            | None => st
            end
        | None => st
        end
      else closeWsForTab st tab
  end.

Definition handlePortMessage (st : state) (type : string) (msg : message)
    (created : bool) : state :=
  if String.eqb type "AUDIO_WS_OPEN"%string then on_open st msg created
  else if String.eqb type "AUDIO_WS_SEND"%string then on_send st msg
  else if String.eqb type "AUDIO_WS_CLOSE"%string then on_close st msg
  else st.

(** [ws.onopen] of connection [c]: the queue is flushed to the socket. *)
Definition ws_onopen (st : state) (c : nat) : state :=
  let st1 := update_conn st c (fun x =>
    Conn (c_url x) true [] (_byteCounter x) (ws_sent x ++ queue x)
         (ws_closed x) (c_owner x)) in
  match conns st !! c with
  | Some _ =>
      State (conns st1) (participantMaps st1) (__wsByTabAndParticipant st1)
            (__wsByTab st1) true
  | None => st
  end.

(** [stopKeepAlive] once both global maps are empty. *)
Definition settle_keepAlive (st : state) : state :=
  State (conns st) (participantMaps st) (__wsByTabAndParticipant st) (__wsByTab st)
        (if decide (__wsByTab st = ∅ ∧ __wsByTabAndParticipant st = ∅)
         then false else keepAlive st).

(** [ws.onclose] of connection [c]. *)
Definition ws_onclose (st : state) (c : nat) : state :=
  match conns st !! c with
  | Some x =>
      match c_owner x with
      | ByParticipant pm tab pid =>
          match participantMaps st !! pm with
          | Some m =>
              let m' := delete pid m in
              settle_keepAlive
                (State (conns st) (<[pm := m']> (participantMaps st))
                       (if decide (m' = ∅) then delete tab (__wsByTabAndParticipant st)
                        else __wsByTabAndParticipant st)
                       (__wsByTab st) (keepAlive st))
          | None => st
          end
      | ByTab tab =>
          settle_keepAlive
            (State (conns st) (participantMaps st) (__wsByTabAndParticipant st)
                   (delete tab (__wsByTab st)) (keepAlive st))
      end
  | None => st
  end.

(** What the service worker reacts to: a port message, or a socket event of
    one of the connections it created. *)
Inductive event :=
  | PORT (type : string) (msg : message) (created : bool)
  | WS_OPEN (c : nat)
  | WS_ERROR (c : nat)
  | WS_CLOSE (c : nat).

Definition step (st : state) (ev : event) : state :=
  match ev with
  | PORT type msg created => handlePortMessage st type msg created
  | WS_OPEN c => ws_onopen st c
  | WS_ERROR _ => st
  | WS_CLOSE c => ws_onclose st c
  end.

Definition run (st : state) (evs : list event) : state := fold_left step evs st.

End Relay.

(** ** The offscreen capture script: its single socket *)

Module Offscreen.

(** [ws] is the socket, by the buffers handed to [ws.send]; [None] is null. *)
Record state := State {
  ws : option (list (list Z));
  wsReady : bool;
  pendingBinaryQueue : list (list Z);
}.

Definition sendPCM (st : state) (buffer : list Z) : state :=
  match ws st with
  | None => st
  | Some sent =>
      if wsReady st then State (Some (sent ++ [buffer])) (wsReady st) (pendingBinaryQueue st)
      else State (ws st) (wsReady st) (pendingBinaryQueue st ++ [buffer])
  end.

(** [ws.onopen]; with no socket the flush throws at the first queued buffer,
    which leaves the queue as it is. *)
Definition onopen (st : state) : state :=
  match ws st with
  | None => State None true (pendingBinaryQueue st)
  | Some sent => State (Some (sent ++ pendingBinaryQueue st)) true []
  end.

(** [ws.onclose]. *)
Definition onclose (st : state) : state :=
  State (ws st) false (pendingBinaryQueue st).

End Offscreen.

(** ** The window message bus between the two page scripts *)

Module Window.

(** A message posted by the supervisor, as the detector's listener takes it:
    only [WEBRTC_TRACK_ADDED] is of a type it handles.  [now] is the clock when
    the listener runs. *)
Definition to_detector (now : Z) (p : Supervisor.posted) : list Detector.event :=
  match p with
  | Supervisor.WEBRTC_TRACK_ADDED trackId trackLabel streamId _ timestamp =>
      [Detector.WEBRTC_TRACK_ADDED trackId trackLabel streamId timestamp now]
  | _ => []
  end.

End Window.

(** ** Downmix to mono *)

Module Mixer.

Import JS.
Local Open Scope Q_scope.

(** [for (i < len) mono[i] += chData[i]]: one channel added into the sums.
    Each sum is a double, stored into the Float32Array.  The channels of an
    audio block all have the block's length; an index past the end of a
    channel is read as 0 here. *)
Definition add_channel (mono chData : list Q) : list Q :=
  map (fun i => f32 (f64 (nth i mono 0 + nth i chData 0))) (seq 0 (length mono)).

(** The sums over all channels, starting from a zeroed array. *)
Definition sum_channels (len : nat) (channels : list (list Q)) : list Q :=
  fold_left add_channel channels (repeat 0 len).

(** [mono[i] /= channels]: the quotient is a double, stored into the
    Float32Array. *)
Definition divide (channels : nat) (mono : list Q) : list Q :=
  map (fun s => f32 (f64 (s / num channels))) mono.

(** [MonoCaptureProcessor.process]: the block posted to the port, [None] when
    nothing is posted (no input, no channel, or an empty first channel). *)
Definition process (inputs : list (list (list Q))) : option (list Q) :=
  match inputs with
  | [] => None
  | input :: _ =>
      match input with
      | [] => None
      | first :: _ =>
          let channels := length input in
          let len := length first in
          if (len =? 0)%nat then None
          else
            let mono := sum_channels len input in
            Some (if (1 <? channels)%nat then divide channels mono else mono)
      end
  end.

(** [downmixToMono] of the capture scripts: [length_] is [inputBuffer.length];
    [None] stands for the exception of [getChannelData(0)] on a buffer without
    channels. *)
Definition downmixToMono (length_ : nat) (channels : list (list Q)) : option (list Q) :=
  match channels with
  | [] => None
  | [only] => Some only
  | _ => Some (divide (length channels) (sum_channels length_ channels))
  end.

End Mixer.

(** ** The offscreen socket over its life *)

Module OffscreenRun.
Import Offscreen.

(** [openWebSocket]: a new socket replaces [ws]; [created] is false when the
    constructor throws, which leaves [ws] as it was.  Neither [wsReady] nor
    the pending queue is reset. *)
Definition openWebSocket (st : state) (created : bool) : state :=
  if created then State (Some []) (wsReady st) (pendingBinaryQueue st) else st.

(** The [finally] block of [stopCapture]. *)
Definition stopCapture (st : state) : state := State None false [].

Inductive event :=
  | SEND_PCM (buffer : list Z)
  | WS_OPEN
  | WS_CLOSE.

Definition step (st : state) (ev : event) : state :=
  match ev with
  | SEND_PCM buffer => sendPCM st buffer
  | WS_OPEN => onopen st
  | WS_CLOSE => onclose st
  end.

Definition run (st : state) (evs : list event) : state := fold_left step evs st.

End OffscreenRun.

(** ** Background: the room code of a tab *)

Module Background.

(** The characters [/[^a-zA-Z0-9_\-\.]/] leaves alone. *)
Definition safe (c : ascii) : bool :=
  let n := nat_of_ascii c in
  ((97 <=? n) && (n <=? 122) || (65 <=? n) && (n <=? 90)
   || (48 <=? n) && (n <=? 57) || (n =? 95) || (n =? 45) || (n =? 46))%nat.

Fixpoint replace_unsafe (s : string) : string :=
  match s with
  | EmptyString => EmptyString
  | String c s' => String (if safe c then c else "_"%char) (replace_unsafe s')
  end.

(** [sanitize]; a missing value is the empty string. *)
Definition sanitize (val : string) : string :=
  let r := String.substring 0 128 (replace_unsafe val) in
  if String.eqb r ""%string then "unknown"%string else r.

(** [pathname.split('/')]: the pieces between the slashes. *)
Fixpoint split (s : string) : list string :=
  match s with
  | EmptyString => [EmptyString]
  | String c s' =>
      if Ascii.eqb c "/"%char then EmptyString :: split s'
      else match split s' with
           | piece :: pieces => String c piece :: pieces
           | [] => [String c EmptyString]
           end
  end.

(** [extractMeetRoomCode], from the pathname of the parsed tab URL; [None]
    when [new URL(tabUrl)] throws. *)
Definition extractMeetRoomCode (pathname : option string) : string :=
  match pathname with
  | None => "room"%string
  | Some p =>
      let parts := List.filter (fun x => negb (String.eqb x ""%string)) (split p) in
      match parts with
      | [] => "room"%string
      | p0 :: rest =>
          match rest with
          | p1 :: _ => if String.eqb p0 "lookup"%string then sanitize p1 else sanitize p0
          | [] => sanitize p0
          end
      end
  end.

End Background.

(** ** Content script: the bridge from the page to the service worker *)

Module Bridge.

(** [data.buffer] of a page message. *)
Inductive page_buffer :=
  | PArrayBuffer (bytes : list Z)
  | PView (backing : list Z) (byteOffset byteLength : nat)
  | POther       (* truthy, neither an ArrayBuffer nor a view *)
  | PMissing.    (* falsy *)

(** [event.data] of a message the page posts to its own window; an absent
    [tabId] is [None], absent strings are empty. *)
Record data := Data {
  type : string;
  d_tabId : option Z;
  d_url : string;
  d_participantId : string;
  d_buffer : page_buffer;
}.

(** [messageQueue] and the messages handed to [port.postMessage], oldest
    first, each with its [type]. *)
Record state := State {
  currentTabId : option Z;
  messageQueue : list (string * Relay.message);
  posted : list (string * Relay.message);
}.

Definition init : state := State None [] [].

(** [data.tabId ?? currentTabId]. *)
Definition tab_of (st : state) (d : data) : option Z :=
  match d_tabId d with
  | Some t => Some t
  | None => currentTabId st
  end.

Definition enqueue (st : state) (m : string * Relay.message) : state :=
  State (currentTabId st) (messageQueue st ++ [m]) (posted st).

Definition post (st : state) (m : string * Relay.message) : state :=
  State (currentTabId st) (messageQueue st) (posted st ++ [m]).

(** The [AUDIO_WS_SEND] message built from a buffer: a [Uint8Array] over a copy
    of the bytes, and their number. *)
Definition send_message (st : state) (d : data) : option (string * Relay.message) :=
  match d_buffer d with
  | PArrayBuffer bytes =>
      Some ("AUDIO_WS_SEND"%string,
            Relay.Message (tab_of st d) (d_participantId d) ""%string
              (Relay.View bytes 0 (List.length bytes)) (List.length bytes))
  | PView backing byteOffset len =>
      let arrayBuffer := Codec.subarray backing byteOffset (byteOffset + len) in
      Some ("AUDIO_WS_SEND"%string,
            Relay.Message (tab_of st d) (d_participantId d) ""%string
              (Relay.View arrayBuffer 0 (List.length arrayBuffer)) len)
  | _ => None
  end.

(** The [message] listener of the window, for a message the window posted to
    itself; [port] tells whether [ensurePort()] returned a port.  The test
    messages [ensurePort] posts on its own are not listed in [posted], and a
    [postMessage] that throws is not represented. *)
Definition on_message (st : state) (d : data) (port : bool) : state :=
  if String.eqb (type d) "AUDIO_WS_OPEN"%string then
    if String.eqb (d_url d) ""%string then st
    else
      let message := ("AUDIO_WS_OPEN"%string,
        Relay.Message (tab_of st d) (d_participantId d) (d_url d) Relay.NotABuffer 0) in
      if port then post st message else enqueue st message
  else if String.eqb (type d) "AUDIO_WS_SEND"%string then
    match send_message st d with
    | None => st
    | Some message =>
        if port then post st message
        else if (List.length (messageQueue st) <? 50)%nat then enqueue st message
        else st
    end
  else if String.eqb (type d) "AUDIO_WS_CLOSE"%string then
    let message := ("AUDIO_WS_CLOSE"%string,
      Relay.Message (tab_of st d) (d_participantId d) ""%string Relay.NotABuffer 0) in
    if port then post st message else enqueue st message
  else st.

(** The end of the delayed callback of [ensurePort]: the queue is emptied and
    its messages posted; with [wsPort] null again ([alive] false: the test
    message failed) every [postMessage] throws and the messages are lost. *)
Definition flush (st : state) (alive : bool) : state :=
  State (currentTabId st) []
        (posted st ++ (if alive then messageQueue st else [])).

(** [INJECT_AND_START_MULTITRACK] / [INJECT_AND_START]: the tab id, when it is
    a number. *)
Definition on_inject (st : state) (tabId : option Z) : state :=
  match tabId with
  | Some t => State (Some t) (messageQueue st) (posted st)
  | None => st
  end.

Inductive event :=
  | PAGE (d : data) (port : bool)
  | PORT_READY (alive : bool)
  | INJECT (tabId : option Z).

Definition step (st : state) (ev : event) : state :=
  match ev with
  | PAGE d port => on_message st d port
  | PORT_READY alive => flush st alive
  | INJECT tabId => on_inject st tabId
  end.

Definition run (st : state) (evs : list event) : state := fold_left step evs st.

End Bridge.

(** ** The WebRTC interceptor: its track registry *)

Module Interceptor.

Local Open Scope string_scope.

(** Messages the interceptor posts to the window. *)
Inductive posted :=
  | WEBRTC_TRACK_ADDED (trackId trackLabel streamId pcId : string) (timestamp : Z)
  | WEBRTC_TRACK_REMOVED (trackId : string) (timestamp : Z).

(** [tracksRegistry], and the [ended] listeners added so far, each by the
    track id it closes over.  The [mute] and [unmute] listeners, which flip the
    [muted] flag of an entry and post messages of their own, are left out. *)
Record state := State {
  tracksRegistry : JSMap.t Supervisor.trackInfo;
  endedListeners : list string;
}.

Definition init : state := State JSMap.empty [].

(** [handleRemoteAudioTrack]; [now] is [Date.now()]. *)
Definition handleRemoteAudioTrack (st : state) (track_ : Supervisor.track)
    (streamId pcId : string) (now : Z) : state * list posted :=
  let trackId := Supervisor.id track_ in
  (State (JSMap.set (tracksRegistry st) trackId
            (Supervisor.TrackInfo trackId track_ streamId pcId now))
         (endedListeners st ++ [trackId]),
   [WEBRTC_TRACK_ADDED trackId (Supervisor.label track_) streamId pcId now]).

(** A [track] event of a peer connection: every wrapped handler (the wrapped
    [ontrack] and each wrapped [track] listener), running at the time given
    for it, captures the track if it is an audio track. *)
Fixpoint on_track (st : state) (track_ : Supervisor.track) (streamId pcId : string)
    (handlers : list Z) : state * list posted :=
  match handlers with
  | [] => (st, [])
  | now :: handlers' =>
      let '(st1, out1) :=
        if String.eqb (Supervisor.kind track_) "audio"
        then handleRemoteAudioTrack st track_ streamId pcId now
        else (st, []) in
      let '(st2, out2) := on_track st1 track_ streamId pcId handlers' in
      (st2, List.app out1 out2)
  end.

(** One [ended] listener. *)
Definition ended_listener (st : state) (trackId : string) (now : Z)
  : state * list posted :=
  (State (JSMap.delete (tracksRegistry st) trackId) (endedListeners st),
   [WEBRTC_TRACK_REMOVED trackId now]).

(** The [ended] event of the track with id [trackId]: the listeners added for
    that track run, oldest first. *)
Fixpoint fire_ended (st : state) (listeners : list string) (trackId : string) (now : Z)
  : state * list posted :=
  match listeners with
  | [] => (st, [])
  | l :: listeners' =>
      let '(st1, out1) :=
        if String.eqb l trackId then ended_listener st l now else (st, []) in
      let '(st2, out2) := fire_ended st1 listeners' trackId now in
      (st2, List.app out1 out2)
  end.

Definition on_ended (st : state) (trackId : string) (now : Z) : state * list posted :=
  fire_ended st (endedListeners st) trackId now.

Inductive event :=
  | TRACK (track_ : Supervisor.track) (streamId pcId : string) (handlers : list Z)
  | ENDED (trackId : string) (now : Z).

Definition step (st : state) (ev : event) : state * list posted :=
  match ev with
  | TRACK track_ streamId pcId handlers => on_track st track_ streamId pcId handlers
  | ENDED trackId now => on_ended st trackId now
  end.

Fixpoint run (st : state) (evs : list event) : state * list posted :=
  match evs with
  | [] => (st, [])
  | ev :: evs' =>
      let '(st1, out1) := step st ev in
      let '(st2, out2) := run st1 evs' in
      (st2, List.app out1 out2)
  end.

End Interceptor.

(** * Properties *)

(** ** Vocabulary of the statements *)

(** *** Floating-point numbers *)

(** [x] is a binary floating-point number with a significand of [prec] bits
    and an exponent no less than [emin]. *)
Definition representable (prec emin : Z) (x : Q) : Prop :=
  exists m e : Z, (Z.abs m <= 2 ^ prec)%Z /\ (emin <= e)%Z
                  /\ (x == inject_Z m * 2 ^ e)%Q.

(** An element of a Float32Array. *)
Definition float32 (x : Q) : Prop := representable 24 (-149) x.

(** *** Resampling *)





(** *** Quantization *)

(** One step of the peak search. *)
Definition peak_step (peak x : Q) : Q :=
  let abs := JS.Math_abs x in if JS.lt peak abs then abs else peak.

(** [v] is the 16-bit value of the (gain-scaled) sample [s]: the clamped
    sample lies in [[-1, 1]], it is scaled by 32768 when negative and by 32767
    otherwise, truncated, and the result needs no wrap-around. *)
Definition pcm_of (s : Q) (v : Z) : Prop :=
  (-1 <= Codec.clamp s)%Q /\ (Codec.clamp s <= 1)%Q /\
  ((Codec.clamp s < 0)%Q -> Codec.scale (Codec.clamp s) = (Codec.clamp s * 32768)%Q) /\
  ((0 <= Codec.clamp s)%Q -> Codec.scale (Codec.clamp s) = (Codec.clamp s * 32767)%Q) /\
  v = JS.trunc (Codec.scale (Codec.clamp s)) /\
  (-32768 <= v <= 32767)%Z.

(** *** Framing *)

(** The first [m] whole frames of a stream. *)
Fixpoint frames {A} (frameSize : nat) (stream : list A) (m : nat) : list (list A) :=
  match m with
  | O => []
  | S m' => firstn frameSize stream :: frames frameSize (skipn frameSize stream) m'
  end.

(** What is left of a stream after its whole frames. *)
Definition leftover {A} (frameSize : nat) (stream : list A) : list A :=
  skipn (length stream / frameSize * frameSize) stream.

(** *** JavaScript maps *)

(** The number of entries under key [k]. *)
Definition count_key {V} (k : string) (m : JSMap.t V) : nat :=
  length (List.filter (fun e => String.eqb (fst e) k) m).

(** No key occurs twice. *)
Definition unique_keys {V} (m : JSMap.t V) : Prop :=
  forall k, count_key k m <= 1.

(** *** Detector runs *)

Definition is_mapping_of (t : string) (p : Detector.posted) : bool :=
  match p with
  | Detector.TRACK_PARTICIPANT_MAPPED trackId _ _ _ _ => String.eqb trackId t
  | Detector.MEET_PARTICIPANT_JOINED _ _ _ => false
  end.

(** The mapping messages posted for track [t]. *)
Definition mappings_of (t : string) (out : list Detector.posted) : nat :=
  length (List.filter (is_mapping_of t) out).

Definition is_added (t : string) (ev : Detector.event) : bool :=
  match ev with
  | Detector.WEBRTC_TRACK_ADDED trackId _ _ _ _ => String.eqb trackId t
  | _ => false
  end.

(** The track-added messages handled for track [t]. *)
Definition additions_of (t : string) (evs : list Detector.event) : nat :=
  length (List.filter (is_added t) evs).

(** 1 when track [t] is pending, 0 when it is not. *)
Definition pend (st : Detector.state) (t : string) : nat :=
  count_key t (Detector.pendingTracks st).

(** *** Relay runs *)

(** The buffer an event hands to connection [c], if any. *)
Definition delivered (c : nat) (st : Relay.state) (ev : Relay.event) : list (list Z) :=
  match ev with
  | Relay.PORT type msg _ =>
      if String.eqb type "AUDIO_WS_SEND" then
        match Relay.send_target st msg with
        | Some (c', buf) => if (c' =? c)%nat then [buf] else []
        | None => []
        end
      else []
  | _ => []
  end.

(** All buffers a run hands to connection [c], oldest first. *)
Fixpoint accepted (c : nat) (st : Relay.state) (evs : list Relay.event) : list (list Z) :=
  match evs with
  | [] => []
  | ev :: evs' => delivered c st ev ++ accepted c (Relay.step st ev) evs'
  end.

(** Connection [x] has been handed the buffers [h]: all of them are sent or
    queued, in order; nothing is sent before the socket is ready and nothing
    stays queued after. *)
Definition conn_ok (x : Relay.conn) (h : list (list Z)) : Prop :=
  Relay.ws_sent x ++ Relay.queue x = h
  /\ (Relay.ready x = false -> Relay.ws_sent x = [])
  /\ (Relay.ready x = true -> Relay.queue x = []).

Definition relay_inv (st : Relay.state) (h : nat -> list (list Z)) : Prop :=
  (forall c x, Relay.conns st !! c = Some x -> conn_ok x (h c))
  /\ (forall c, length (Relay.conns st) <= c -> h c = []).

(** *** Track labels *)

(** Every character is a [\w] character. *)
Fixpoint all_word (s : string) : bool :=
  match s with
  | EmptyString => true
  | String c s' => Detector.is_word c && all_word s'
  end.

(** Equal up to the case of ASCII letters. *)
Fixpoint same_letters (a b : string) : bool :=
  match a, b with
  | EmptyString, EmptyString => true
  | String c a', String d b' =>
      Ascii.eqb (Detector.lower c) (Detector.lower d) && same_letters a' b'
  | _, _ => false
  end.

(** [s] is empty or starts with a character that is not a [\w] character. *)
Definition word_ends (s : string) : bool :=
  match s with
  | EmptyString => true
  | String c _ => negb (Detector.is_word c)
  end.

(** *** Registries of the detector and the supervisor *)

(** The mapping messages of a run never name a participant the registry lacks. *)
Definition names_registered (registry : JSMap.t Detector.participant)
    (p : Detector.posted) : Prop :=
  match p with
  | Detector.TRACK_PARTICIPANT_MAPPED _ pid _ _ _ => JSMap.has registry pid = true
  | Detector.MEET_PARTICIPANT_JOINED pid _ _ => JSMap.has registry pid = true
  end.

(** Every track that is mapped is mapped to a registered participant. *)
Definition mapping_registered (st : Detector.state) : Prop :=
  forall t pid, Detector.trackToParticipant st !! t = Some pid ->
                JSMap.has (Detector.participantsRegistry st) pid = true.

(** An open request is complete: it names a backend, a meeting, its
    participant and the default rate. *)
Definition open_is_complete (p : Supervisor.posted) : Prop :=
  match p with
  | Supervisor.AUDIO_WS_OPEN u _ pid =>
      Supervisor.base u <> EmptyString /\ Supervisor.room u <> EmptyString
      /\ Supervisor.participant u = pid
      /\ Supervisor.sampleRate u = Supervisor.DEFAULT_SAMPLE_RATE
  | _ => True
  end.

(** Every processor is filed under its own participant id. *)
Definition keyed_by_id (m : JSMap.t Supervisor.ParticipantAudioProcessor) : Prop :=
  forall k p, In (k, p) m -> Supervisor.participantId p = k.

(** *** References of the relay *)

(** The references of the relay state are sound: a registered participant map
    exists; an entry of a participant map names a connection made for that
    map and participant; a connection's map is registered under its own tab
    only; an entry of [__wsByTab] names a connection made for that tab; no map
    is registered under two tabs. *)
Definition relay_wf (st : Relay.state) : Prop :=
  (forall tab pm, Relay.__wsByTabAndParticipant st !! tab = Some pm ->
     is_Some (Relay.participantMaps st !! pm))
  /\ (forall pm m pid c, Relay.participantMaps st !! pm = Some m -> m !! pid = Some c ->
        exists x tab, Relay.conns st !! c = Some x
                      /\ Relay.c_owner x = Relay.ByParticipant pm tab pid)
  /\ (forall c x pm tab pid, Relay.conns st !! c = Some x ->
        Relay.c_owner x = Relay.ByParticipant pm tab pid ->
        is_Some (Relay.participantMaps st !! pm)
        /\ forall tab', Relay.__wsByTabAndParticipant st !! tab' = Some pm -> tab' = tab)
  /\ (forall tab c, Relay.__wsByTab st !! tab = Some c ->
        exists x, Relay.conns st !! c = Some x /\ Relay.c_owner x = Relay.ByTab tab)
  /\ (forall t1 t2 pm, Relay.__wsByTabAndParticipant st !! t1 = Some pm ->
        Relay.__wsByTabAndParticipant st !! t2 = Some pm -> t1 = t2).

(** The bytes of a typed array as the port hands them over: an object with
    one numeric key per byte. *)
Definition serialized (bytes : list Z) : Relay.js_buffer :=
  Relay.PlainObject true (length bytes) (fun i => nth i bytes 0%Z).

(** *** Channels and sample ranges *)

(** Every sample lies between [lo] and [hi]. *)
Definition within (lo hi : Q) (samples : list Q) : Prop :=
  Forall (fun x => (lo <= x)%Q /\ (x <= hi)%Q) samples.

(** *** The offscreen socket, room codes and the content-script queue *)

(** The buffers given to [sendPCM] by a run of socket events. *)
Definition pcm_given (evs : list OffscreenRun.event) : list (list Z) :=
  flat_map (fun ev => match ev with OffscreenRun.SEND_PCM b => [b] | _ => [] end) evs.

Fixpoint all_safe (s : string) : bool :=
  match s with
  | EmptyString => true
  | String c s' => Background.safe c && all_safe s'
  end.

(** A string fit for a query parameter: not empty, at most 128 characters,
    each of them a letter, a digit, [_], [-] or [.]. *)
Definition room_code (s : string) : Prop :=
  s <> ""%string /\ (String.length s <= 128)%nat /\ all_safe s = true.

(** The bytes a page buffer stands for: the whole ArrayBuffer, or the part of
    the backing buffer a view covers. *)
Definition carried (b : Bridge.page_buffer) : option (list Z) :=
  match b with
  | Bridge.PArrayBuffer bytes => Some bytes
  | Bridge.PView backing byteOffset len =>
      if (byteOffset + len <=? List.length backing)%nat
      then Some (Codec.subarray backing byteOffset (byteOffset + len))
      else None
  | _ => None
  end.

Definition is_send (m : string * Relay.message) : bool :=
  String.eqb (fst m) "AUDIO_WS_SEND"%string.

Definition queued_audio (st : Bridge.state) : nat :=
  List.length (List.filter is_send (Bridge.messageQueue st)).

(** *** The interceptor *)

(** The announcements and the removals of track [t] among posted messages. *)
Definition announced (t : string) (out : list Interceptor.posted) : nat :=
  List.length (List.filter (fun p => match p with
    | Interceptor.WEBRTC_TRACK_ADDED t' _ _ _ _ => String.eqb t' t
    | _ => false end) out).

Definition withdrawn (t : string) (out : list Interceptor.posted) : nat :=
  List.length (List.filter (fun p => match p with
    | Interceptor.WEBRTC_TRACK_REMOVED t' _ => String.eqb t' t
    | _ => false end) out).

(** The [ended] listeners closing over track [t]. *)
Definition listeners_of (t : string) (st : Interceptor.state) : nat :=
  List.length (List.filter (fun l => String.eqb l t) (Interceptor.endedListeners st)).

(** An entry of the registry has an [ended] listener. *)
Definition registry_listened (st : Interceptor.state) : Prop :=
  forall t, JSMap.has (Interceptor.tracksRegistry st) t = true -> 0 < listeners_of t st.


(** ** Rounding to the nearest floating-point number *)

Section Rounding.
Import JS.
Local Open Scope Q_scope.

Lemma pow2_pos e : 0 < 2 ^ e.
Proof. by apply Qpower_0_lt. Qed.

Lemma pow2_plus a b : 2 ^ (a + b) == 2 ^ a * 2 ^ b.
Proof. by apply Qpower_plus. Qed.

Lemma pow2_le a b : (a <= b)%Z -> 2 ^ a <= 2 ^ b.
Proof. intros H. by apply Qpower_le_compat_l. Qed.

Lemma pow2_Z n : (0 <= n)%Z -> 2 ^ n == inject_Z (2 ^ n).
Proof. intros H. symmetry. by apply (Zpower_Qpower 2 n). Qed.

Lemma ilog2_spec x : 0 < x -> 2 ^ ilog2 x <= x /\ x < 2 ^ (ilog2 x + 1).
Proof.
  intros Hx. unfold ilog2.
  destruct x as [n d]. cbn [Qnum Qden].
  assert (Hn : (0 < n)%Z) by (unfold Qlt in Hx; simpl in Hx; lia).
  pose proof (Z.log2_spec n Hn) as [Ha1 Ha2].
  pose proof (Z.log2_spec (Z.pos d) ltac:(lia)) as [Hb1 Hb2].
  pose proof (Z.log2_nonneg n) as Ha0. pose proof (Z.log2_nonneg (Z.pos d)) as Hb0.
  set (a := Z.log2 n) in *. set (b := Z.log2 (Z.pos d)) in *.
  assert (Hx' : (n # d) * inject_Z (Z.pos d) == inject_Z n).
  { unfold Qeq, Qmult, inject_Z. simpl. lia. }
  assert (HA1 : inject_Z (2 ^ a) <= inject_Z n) by (by rewrite <- Zle_Qle).
  assert (HA2 : inject_Z n < inject_Z (2 ^ Z.succ a)) by (by rewrite <- Zlt_Qlt).
  assert (HB1 : inject_Z (2 ^ b) <= inject_Z (Z.pos d)) by (by rewrite <- Zle_Qle).
  assert (HB2 : inject_Z (Z.pos d) < inject_Z (2 ^ Z.succ b)) by (by rewrite <- Zlt_Qlt).
  rewrite <- !pow2_Z in HA1, HA2, HB1, HB2 by lia.
  pose proof (pow2_pos b) as Pb. pose proof (pow2_pos a) as Pa.
  assert (Hup : (n # d) < 2 ^ (a - b + 1)).
  { assert (E : 2 ^ (a - b + 1) * 2 ^ b == 2 ^ Z.succ a).
    { rewrite <- pow2_plus. by replace (a - b + 1 + b)%Z with (Z.succ a) by lia. }
    pose proof (pow2_pos (a - b + 1)) as Pu.
    set (X := n # d) in *. set (D := inject_Z (Z.pos d)) in *.
    set (N := inject_Z n) in *. set (U := 2 ^ (a - b + 1)) in *.
    set (B := 2 ^ b) in *. set (A1 := 2 ^ Z.succ a) in *.
    clearbody X D N U B A1. nra. }
  assert (Hlo : 2 ^ (a - b - 1) < (n # d)).
  { assert (E : 2 ^ (a - b - 1) * 2 ^ Z.succ b == 2 ^ a).
    { rewrite <- pow2_plus. by replace (a - b - 1 + Z.succ b)%Z with a by lia. }
    pose proof (pow2_pos (a - b - 1)) as Pu. pose proof (pow2_pos (Z.succ b)) as Pb1.
    set (X := n # d) in *. set (D := inject_Z (Z.pos d)) in *.
    set (N := inject_Z n) in *. set (U := 2 ^ (a - b - 1)) in *.
    set (B1 := 2 ^ Z.succ b) in *. set (A := 2 ^ a) in *.
    clearbody X D N U B1 A. nra. }
  destruct (Qle_bool (2 ^ (a - b)) (n # d)) eqn:E.
  - apply Qle_bool_iff in E. done.
  - assert (E' : (n # d) < 2 ^ (a - b)).
    { apply Qnot_le_lt. intros H. apply Qle_bool_iff in H. congruence. }
    replace (a - b - 1 + 1)%Z with (a - b)%Z by lia. split; [by apply Qlt_le_weak|done].
Qed.

Lemma round_half_even_nearest x k :
  Qabs (inject_Z (round_half_even x) - x) <= Qabs (inject_Z k - x).
Proof.
  unfold round_half_even.
  pose proof (Qfloor_le x) as H1. pose proof (Qlt_floor x) as H2.
  rewrite inject_Z_plus in H2. change (inject_Z 1) with 1 in H2.
  set (f := Qfloor x) in *.
  assert (Hk : inject_Z k <= inject_Z f \/ inject_Z f + 1 <= inject_Z k).
  { destruct (Z_le_gt_dec k f) as [H|H].
    - left. by rewrite <- Zle_Qle.
    - right. assert (E1 : inject_Z (f + 1) <= inject_Z k) by (rewrite <- Zle_Qle; lia).
      rewrite inject_Z_plus in E1. exact E1. }
  assert (G : forall r, (r = f \/ r = (f + 1)%Z) ->
            (r = f -> x - inject_Z f <= 1 # 2) ->
            (r = (f + 1)%Z -> 1 # 2 <= x - inject_Z f) ->
            Qabs (inject_Z r - x) <= Qabs (inject_Z k - x)).
  { intros r Hr Ha Hb. destruct Hr as [-> | ->].
    - specialize (Ha eq_refl). apply Qabs_case; intros ?; apply Qabs_case; intros ?; lra.
    - specialize (Hb eq_refl). rewrite inject_Z_plus. change (inject_Z 1) with 1.
      apply Qabs_case; intros ?; apply Qabs_case; intros ?; lra. }
  destruct (Qcompare_spec (x - inject_Z f) (1 # 2)) as [E|E|E].
  - destruct (Z.even f); apply G; auto; intros _; lra.
  - apply G; auto; intros ?; [lra|lia].
  - apply G; auto; intros ?; [lia|lra].
Qed.

Lemma Qabs_mult_pow2 z e : Qabs (z * 2 ^ e) == Qabs z * 2 ^ e.
Proof.
  rewrite Qabs_Qmult. rewrite (Qabs_pos (2 ^ e)); [reflexivity|].
  apply Qlt_le_weak, pow2_pos.
Qed.

(** On the grid of spacing [2 ^ e], the rounded quotient is a nearest point. *)
Lemma grid_nearest x e k :
  Qabs (inject_Z (round_half_even (x / 2 ^ e)) * 2 ^ e - x)
  <= Qabs (inject_Z k * 2 ^ e - x).
Proof.
  pose proof (pow2_pos e) as Pe.
  pose proof (round_half_even_nearest (x / 2 ^ e) k) as H.
  assert (E : forall z, inject_Z z * 2 ^ e - x == (inject_Z z - x / 2 ^ e) * 2 ^ e).
  { intros z. field. intros H0. rewrite H0 in Pe. by apply Qlt_irrefl in Pe. }
  rewrite !E, !Qabs_mult_pow2.
  apply Qmult_le_compat_r; [done|by apply Qlt_le_weak].
Qed.

(** No floating-point number is nearer to [x] than the rounded value. *)
Lemma fround_nearest prec emin x y :
  (0 < prec)%Z -> representable prec emin y ->
  Qabs (fround prec emin x - x) <= Qabs (y - x).
Proof.
  intros Hprec (m & e' & Hm & He' & Hy). unfold fround.
  destruct (Qeq_bool x 0) eqn:E0.
  { apply Qeq_bool_iff in E0. rewrite E0.
    assert (E : 0 - 0 == 0) by ring. rewrite E. apply Qabs_nonneg. }
  assert (Hx0 : ~ x == 0).
  { intros H. apply Qeq_bool_iff in H. congruence. }
  assert (Hax : 0 < Qabs x).
  { destruct (Qlt_le_dec 0 x) as [H|H].
    - rewrite Qabs_pos by lra. done.
    - destruct (Qlt_le_dec x 0) as [H'|H'].
      + rewrite Qabs_neg by lra. lra.
      + exfalso. apply Hx0. lra. }
  destruct (ilog2_spec (Qabs x) Hax) as [HL _].
  set (L := ilog2 (Qabs x)) in *.
  set (e := Z.max (L - prec + 1) emin).
  destruct (Z_le_gt_dec e e') as [Hee|Hee].
  - (* [y] lies on the grid *)
    assert (Ey : y == inject_Z (m * 2 ^ (e' - e)) * 2 ^ e).
    { rewrite Hy, inject_Z_mult, <- pow2_Z by lia.
      rewrite <- Qmult_assoc, <- pow2_plus.
      by replace (e' - e + e)%Z with e' by lia. }
    rewrite Ey. apply grid_nearest.
  - (* [y] is smaller in magnitude than [2 ^ L], which is on the grid *)
    assert (Ee : e = (L - prec + 1)%Z) by lia.
    assert (EP : 2 ^ L == inject_Z (2 ^ (prec - 1)) * 2 ^ e).
    { rewrite <- pow2_Z by lia. rewrite <- pow2_plus.
      by replace (prec - 1 + e)%Z with L by lia. }
    assert (Hy' : Qabs y <= 2 ^ L).
    { rewrite Hy, Qabs_mult_pow2.
      assert (Hm' : Qabs (inject_Z m) <= 2 ^ prec).
      { rewrite pow2_Z by lia. change (Qabs (inject_Z m)) with (inject_Z (Z.abs m)).
        by rewrite <- Zle_Qle. }
      assert (Hle : 2 ^ e' <= 2 ^ (e - 1)) by (apply pow2_le; lia).
      assert (EL : 2 ^ L == 2 ^ prec * 2 ^ (e - 1)).
      { rewrite <- pow2_plus. by replace (prec + (e - 1))%Z with L by lia. }
      rewrite EL.
      pose proof (pow2_pos e') as P1. pose proof (pow2_pos prec) as P2.
      pose proof (Qabs_nonneg (inject_Z m)) as P3.
      set (A := Qabs (inject_Z m)) in *. set (B := 2 ^ e') in *.
      set (C := 2 ^ prec) in *. set (D := 2 ^ (e - 1)) in *.
      clearbody A B C D. nra. }
    destruct (Qlt_le_dec 0 x) as [Hpos|Hneg].
    + rewrite Qabs_pos in HL by lra.
      eapply Qle_trans; [apply (grid_nearest x e (2 ^ (prec - 1)))|].
      rewrite <- EP.
      revert Hy'. apply Qabs_case; intros ? ?; apply Qabs_case; intros ?;
        apply Qabs_case; intros ?; lra.
    + rewrite Qabs_neg in HL by lra.
      eapply Qle_trans; [apply (grid_nearest x e (- 2 ^ (prec - 1)))|].
      rewrite inject_Z_opp.
      assert (EN : - inject_Z (2 ^ (prec - 1)) * 2 ^ e == - 2 ^ L) by (rewrite EP; ring).
      rewrite EN.
      revert Hy'. apply Qabs_case; intros ? ?; apply Qabs_case; intros ?;
        apply Qabs_case; intros ?; lra.
Qed.

(** The rounded value is itself a floating-point number. *)
Lemma fround_representable prec emin x :
  (0 < prec)%Z -> representable prec emin (fround prec emin x).
Proof.
  intros Hprec. unfold fround.
  destruct (Qeq_bool x 0) eqn:E0.
  { exists 0%Z, emin. split; [by apply Z.pow_nonneg|]. split; [done|]. ring. }
  assert (Hx0 : ~ x == 0).
  { intros H. apply Qeq_bool_iff in H. congruence. }
  assert (Hax : 0 < Qabs x).
  { destruct (Qlt_le_dec 0 x) as [H|H].
    - rewrite Qabs_pos by lra. done.
    - destruct (Qlt_le_dec x 0) as [H'|H'].
      + rewrite Qabs_neg by lra. lra.
      + exfalso. apply Hx0. lra. }
  destruct (ilog2_spec (Qabs x) Hax) as [_ HL].
  set (L := ilog2 (Qabs x)) in *.
  set (e := Z.max (L - prec + 1) emin).
  set (m := round_half_even (x / 2 ^ e)).
  exists m, e. split; [|split; [lia|reflexivity]].
  pose proof (pow2_pos e) as Pe.
  assert (Hz : Qabs (x / 2 ^ e) <= 2 ^ prec).
  { unfold Qdiv. rewrite Qabs_Qmult, (Qabs_pos (/ 2 ^ e)) by (apply Qlt_le_weak, Qinv_lt_0_compat, Pe).
    apply Qle_shift_div_r; [done|].
    rewrite <- pow2_plus. apply Qlt_le_weak. eapply Qlt_le_trans; [exact HL|].
    apply pow2_le. lia. }
  assert (Hz' : Qabs (x / 2 ^ e) <= inject_Z (2 ^ prec)).
  { eapply Qle_trans; [exact Hz|]. rewrite (pow2_Z prec) by lia. apply Qle_refl. }
  clear Hz. rename Hz' into Hz.
  pose proof (round_half_even_nearest (x / 2 ^ e) (2 ^ prec)) as H1.
  pose proof (round_half_even_nearest (x / 2 ^ e) (- 2 ^ prec)) as H2.
  rewrite inject_Z_opp in H2. fold m in H1, H2.
  assert (Hm : - inject_Z (2 ^ prec) <= inject_Z m /\ inject_Z m <= inject_Z (2 ^ prec)).
  { revert Hz H1 H2. generalize (inject_Z (2 ^ prec)) (inject_Z m) (x / 2 ^ e).
    intros P M z. repeat (apply Qabs_case; intros ?); intros; split; lra. }
  rewrite <- inject_Z_opp, <- !Zle_Qle in Hm. lia.
Qed.

Lemma fround_fixed prec emin x :
  (0 < prec)%Z -> representable prec emin x -> fround prec emin x == x.
Proof.
  intros Hp Hx. pose proof (fround_nearest prec emin x x Hp Hx) as H.
  assert (E : x - x == 0) by ring. rewrite E in H. change (Qabs 0) with 0 in H.
  revert H. apply Qabs_case; intros; lra.
Qed.

Lemma fround_le prec emin x b :
  (0 < prec)%Z -> representable prec emin b -> x <= b -> fround prec emin x <= b.
Proof.
  intros Hp Hb Hx. pose proof (fround_nearest prec emin x b Hp Hb) as H.
  revert H. apply Qabs_case; intros ?; apply Qabs_case; intros ?; lra.
Qed.

Lemma fround_ge prec emin x b :
  (0 < prec)%Z -> representable prec emin b -> b <= x -> b <= fround prec emin x.
Proof.
  intros Hp Hb Hx. pose proof (fround_nearest prec emin x b Hp Hb) as H.
  revert H. apply Qabs_case; intros ?; apply Qabs_case; intros ?; lra.
Qed.

Lemma representable_Z prec emin (j : Z) :
  (Z.abs j <= 2 ^ prec)%Z -> (emin <= 0)%Z -> representable prec emin (inject_Z j).
Proof.
  intros Hj He. exists j, 0%Z. split; [done|]. split; [done|].
  change (2 ^ 0) with 1. ring.
Qed.

Lemma representable_proper prec emin x y :
  x == y -> representable prec emin x -> representable prec emin y.
Proof. intros E (m & e & H1 & H2 & H3). exists m, e. by rewrite <- E. Qed.

Lemma representable_double prec emin x :
  representable prec emin x -> representable prec emin (x + x).
Proof.
  intros (m & e & H1 & H2 & H3). exists m, (e + 1)%Z. split; [done|]. split; [lia|].
  rewrite pow2_plus, H3. change (2 ^ 1) with 2. ring.
Qed.

Lemma representable_wider prec prec' emin emin' x :
  (prec <= prec')%Z -> (emin' <= emin)%Z ->
  representable prec emin x -> representable prec' emin' x.
Proof.
  intros Hp He (m & e & H1 & H2 & H3). exists m, e. split; [|split; [lia|done]].
  etrans; [exact H1|]. apply Z.pow_le_mono_r; lia.
Qed.

End Rounding.

(** ** Codec: resampling and quantization *)

Section CodecProperties.
Import JS Codec.
Local Open Scope Q_scope.

Lemma lt_true a b : lt a b = true <-> a < b.
Proof.
  unfold lt. rewrite negb_true_iff. split.
  - intros H. apply Qnot_le_lt. intros Hle. apply Qle_bool_iff in Hle. congruence.
  - intros H. destruct (Qle_bool b a) eqn:E; [|done].
    apply Qle_bool_iff in E. exfalso. eapply Qlt_not_le; eauto.
Qed.

Lemma lt_false a b : lt a b = false <-> b <= a.
Proof.
  unfold lt. rewrite negb_false_iff. apply Qle_bool_iff.
Qed.


Lemma window_loop_spec buffer k : forall i accum count,
  window_loop buffer k i accum count =
  (fold_left Qplus (firstn k (skipn i buffer)) accum,
   (count + length (firstn k (skipn i buffer)))%nat).
Proof.
  induction k as [|k IH]; intros i accum count; simpl.
  - by rewrite Nat.add_0_r.
  - destruct (i <? length buffer)%nat eqn:E.
    + apply Nat.ltb_lt in E.
      rewrite IH.
      assert (Hs : skipn i buffer = nth i buffer 0 :: skipn (S i) buffer).
      { clear -E. revert i E. induction buffer as [|x l IHl]; intros i E; simpl in *; [lia|].
        destruct i; [done|]. simpl. apply IHl. lia. }
      rewrite Hs. simpl. f_equal. lia.
    + apply Nat.ltb_ge in E. rewrite skipn_all2 by lia.
      rewrite firstn_nil. simpl. by rewrite Nat.add_0_r.
Qed.




Lemma Math_round_num n : Math_round (num n) = Z.of_nat n.
Proof.
  unfold Math_round, num, Qfloor, Qplus, inject_Z. simpl.
  change (Z.pos (1 * 2)) with 2%Z.
  replace (Z.of_nat n * 2 + 1 * 1)%Z with (1 + Z.of_nat n * 2)%Z by lia.
  rewrite Z.div_add by lia. change (1 / 2)%Z with 0%Z. lia.
Qed.





Example resample_48k_to_16k :
  resampleFloat32 [1; 2; 3; 4; 5; 6; 7] 48000 16000 = [6 # 3; 15 # 3].
Proof. vm_compute. reflexivity. Qed.

Lemma peak_fold_bound f : forall p0,
  p0 <= fold_left peak_step f p0 /\
  (forall x, In x f -> Qabs x <= fold_left peak_step f p0).
Proof.
  induction f as [|y f IH]; intros p0; simpl.
  - split; [apply Qle_refl | tauto].
  - destruct (IH (peak_step p0 y)) as [H1 H2].
    assert (Hp : p0 <= peak_step p0 y /\ Qabs y <= peak_step p0 y).
    { unfold peak_step, Math_abs. destruct (lt p0 (Qabs y)) eqn:E.
      - apply lt_true in E. split; [by apply Qlt_le_weak | apply Qle_refl].
      - apply lt_false in E. split; [apply Qle_refl | done]. }
    split.
    + eapply Qle_trans; [apply Hp | apply H1].
    + intros x [->|Hx]; [|by apply H2].
      eapply Qle_trans; [apply Hp | apply H1].
Qed.

Lemma peak_fold_attained f : forall p0,
  fold_left peak_step f p0 = p0 \/
  exists x, In x f /\ fold_left peak_step f p0 = Qabs x.
Proof.
  induction f as [|y f IH]; intros p0; simpl; [by left|].
  destruct (IH (peak_step p0 y)) as [H|(x & Hx & H)].
  - rewrite H. unfold peak_step, Math_abs. destruct (lt p0 (Qabs y)); [|by left].
    right. exists y. tauto.
  - right. exists x. tauto.
Qed.

Lemma peak_of_max f :
  (forall x, In x f -> Qabs x <= peak_of f) /\
  (peak_of f = 0 \/ exists x, In x f /\ peak_of f = Qabs x).
Proof.
  split.
  - apply (peak_fold_bound f 0).
  - apply (peak_fold_attained f 0).
Qed.

Lemma clamp_range s : -1 <= clamp s /\ clamp s <= 1.
Proof.
  unfold clamp. destruct (lt 1 s) eqn:E1; [done|].
  apply lt_false in E1.
  destruct (lt s (-1)) eqn:E2; [done|].
  apply lt_false in E2. done.
Qed.

Lemma scale_range s : -1 <= s -> s <= 1 -> -32768 <= scale s /\ scale s <= 32767.
Proof.
  intros Hlo Hhi. unfold scale. destruct (lt s 0) eqn:E.
  - apply lt_true in E. destruct s as [n d].
    unfold Qle, Qlt, Qmult in *. simpl in *. rewrite Pos.mul_1_r. lia.
  - apply lt_false in E. destruct s as [n d].
    unfold Qle, Qlt, Qmult in *. simpl in *. rewrite Pos.mul_1_r. lia.
Qed.

Lemma trunc_range x (lo hi : Z) :
  inject_Z lo <= x -> x <= inject_Z hi -> (lo <= 0)%Z -> (0 <= hi)%Z ->
  (lo <= trunc x <= hi)%Z.
Proof.
  destruct x as [n d]. unfold Qle, trunc. simpl. intros Hlo Hhi Hl0 Hh0.
  rewrite Z.mul_1_r in *.
  split.
  - rewrite <- (Z.quot_mul lo (Z.pos d)) by lia.
    apply Z.quot_le_mono; lia.
  - rewrite <- (Z.quot_mul hi (Z.pos d)) by lia.
    apply Z.quot_le_mono; lia.
Qed.

Lemma ToInt16_exact x :
  -32768 <= x -> x <= 32767 ->
  ToInt16 x = trunc x /\ (-32768 <= trunc x <= 32767)%Z.
Proof.
  intros Hlo Hhi.
  assert (H : (-32768 <= trunc x <= 32767)%Z) by (apply trunc_range; done).
  split; [|done]. unfold ToInt16. rewrite Z.mod_small; lia.
Qed.


Lemma quantize_sample s : pcm_of s (ToInt16 (scale (clamp s))).
Proof.
  destruct (clamp_range s) as [Hlo Hhi].
  destruct (scale_range _ Hlo Hhi) as [Slo Shi].
  destruct (ToInt16_exact _ Slo Shi) as [He Hr].
  unfold pcm_of. repeat split; try done.
  - intros Hneg. unfold scale. apply lt_true in Hneg. by rewrite Hneg.
  - intros Hpos. unfold scale. apply lt_false in Hpos. by rewrite Hpos.
  - rewrite He. apply Hr.
  - rewrite He. apply Hr.
Qed.

(** C9.  Every value [floatTo16BitPCM] produces lies in [[-32768, 32767]],
    whatever the magnitude of the input: the gain-scaled sample is clamped to
    [[-1, 1]], scaled by 32768 when negative and by 32767 otherwise, and the
    16-bit store only truncates.  The same holds for the variant without
    gain. *)
Theorem quantize_in_int16_range (float32 : list Q) :
  Forall2 (fun x v => pcm_of (x * gain_of (peak_of float32)) v)
          float32 (floatTo16BitPCM float32)
  /\ Forall2 pcm_of float32 (floatTo16BitPCM_plain float32)
  /\ Forall (fun v => (-32768 <= v <= 32767)%Z) (floatTo16BitPCM float32)
  /\ Forall (fun v => (-32768 <= v <= 32767)%Z) (floatTo16BitPCM_plain float32).
Proof.
  unfold floatTo16BitPCM, floatTo16BitPCM_plain.
  generalize (gain_of (peak_of float32)) as g. intros g.
  repeat split.
  - induction float32; simpl; constructor; [apply quantize_sample | done].
  - induction float32; simpl; constructor; [apply quantize_sample | done].
  - induction float32; simpl; constructor; [apply (quantize_sample (a * g)) | done].
  - induction float32; simpl; constructor; [apply (quantize_sample a) | done].
Qed.

Example quantize_out_of_range_input :
  floatTo16BitPCM [1 # 2; -3 # 2; 2] = [16383; -32768; 32767]%Z.
Proof. reflexivity. Qed.

(** C3 (as the code has it).  [floatTo16BitPCM] takes the peak absolute
    amplitude of the frame and multiplies every sample by the gain before
    clamping; the gain is [min (50, 0.7 / peak)] when
    [0.00001 < peak < 0.3] and 1 otherwise.  A peak of 0.01 gives 50, a peak
    of 0.5 gives 1. *)
Theorem adaptive_gain (float32 : list Q) :
  let peak := peak_of float32 in
  let gain := gain_of peak in
  (forall x, In x float32 -> Qabs x <= peak)
  /\ (peak = 0 \/ exists x, In x float32 /\ peak = Qabs x)
  /\ floatTo16BitPCM float32 = map (fun x => ToInt16 (scale (clamp (x * gain)))) float32
  /\ ((1 # 100000) < peak -> peak < (3 # 10) -> gain = Math_min 50 ((7 # 10) / peak))
  /\ (peak <= (1 # 100000) \/ (3 # 10) <= peak -> gain = 1)
  /\ (peak == (1 # 100) -> gain = 50)
  /\ (peak == (1 # 2) -> gain = 1).
Proof.
  intros peak gain. subst gain.
  destruct (peak_of_max float32) as [Hub Hat]. fold peak in Hub, Hat.
  assert (Hon : (1 # 100000) < peak -> peak < (3 # 10) ->
                gain_of peak = Math_min 50 ((7 # 10) / peak)).
  { intros H1 H2. unfold gain_of.
    apply lt_true in H1. apply lt_true in H2. by rewrite H1, H2. }
  assert (Hoff : peak <= (1 # 100000) \/ (3 # 10) <= peak -> gain_of peak = 1).
  { intros [H|H]; apply lt_false in H; unfold gain_of; rewrite H; [done|].
    by rewrite andb_false_r. }
  repeat split; try done.
  - intros Hp. rewrite Hon.
    + unfold Math_min.
      assert (H : Qle_bool 50 ((7 # 10) / peak) = true); [|by rewrite H].
      apply Qle_bool_iff. rewrite Hp. done.
    + rewrite Hp. done.
    + rewrite Hp. done.
  - intros Hp. apply Hoff. right. rewrite Hp. done.
Qed.

(** A frame with peak 0.01 is boosted 50 times, one with peak 0.5 is not. *)
Lemma adaptive_gain_witness :
  gain_of (peak_of [1 # 100; -1 # 200]) = 50
  /\ gain_of (peak_of [1 # 2; -1 # 4]) = 1.
Proof.
  split.
  - apply (adaptive_gain [1 # 100; -1 # 200]). reflexivity.
  - apply (adaptive_gain [1 # 2; -1 # 4]). reflexivity.
Defined.

(** C3, as stated, fails below the noise floor: a frame whose peak is 2^-20
    has [0 < peak < 0.3], yet its gain is 1 and not [min (50, 0.7 / peak)],
    which is 50; the sample comes out as 0 where a gain of 50 would give 1. *)
Lemma quiet_frame_not_boosted :
  let float32 := [1 # 1048576] in
  let peak := peak_of float32 in
  0 < peak /\ peak < (3 # 10)
  /\ gain_of peak = 1
  /\ ~ gain_of peak == Math_min 50 ((7 # 10) / peak)
  /\ floatTo16BitPCM float32 = [0%Z]
  /\ map (fun x => ToInt16 (scale (clamp (x * Math_min 50 ((7 # 10) / peak))))) float32
     = [1%Z].
Proof. vm_compute. repeat split; congruence. Qed.

End CodecProperties.

Section FramingProperties.
Import JS Codec.

Lemma frames_length {A} fs (l : list A) m : length (frames fs l m) = m.
Proof. revert l. induction m; intros; simpl; auto. Qed.

Lemma frames_nth {A} fs m : forall (l : list A) k,
  k < m -> nth k (frames fs l m) [] = subarray l (k * fs) (k * fs + fs).
Proof.
  induction m as [|m IH]; intros l k Hk; [lia|].
  destruct k as [|k]; simpl.
  - unfold subarray. simpl. by replace (fs - 0) with fs by lia.
  - rewrite IH by lia. unfold subarray.
    rewrite skipn_skipn. f_equal; [lia|]. f_equal. lia.
Qed.

Lemma frames_app_l {A} fs m : forall (l r : list A),
  m * fs <= length l -> frames fs (l ++ r) m = frames fs l m.
Proof.
  induction m as [|m IH]; intros l r H; simpl; [done|].
  simpl in H.
  rewrite firstn_app. replace (fs - length l) with 0 by lia.
  rewrite firstn_0, app_nil_r. f_equal.
  rewrite skipn_app. replace (fs - length l) with 0 by lia.
  rewrite skipn_0. apply IH. rewrite length_skipn. lia.
Qed.

Lemma frames_add {A} fs m1 m2 : forall (l : list A),
  frames fs l (m1 + m2) = frames fs l m1 ++ frames fs (skipn (m1 * fs) l) m2.
Proof.
  induction m1 as [|m1 IH]; intros l; simpl; [done|].
  f_equal. rewrite IH. f_equal. f_equal.
  rewrite skipn_skipn. f_equal. lia.
Qed.

Lemma frame_loop_spec quantize fs (Hfs : 0 < fs) q : forall fuel offset bytes,
  offset <= length q ->
  (length q - offset) / fs < fuel ->
  exists bytes',
    frame_loop quantize fuel fs q offset bytes =
    Some (map quantize (frames fs (skipn offset q) ((length q - offset) / fs)),
          offset + (length q - offset) / fs * fs, bytes').
Proof.
  induction fuel as [|fuel IH]; intros offset bytes Hoff Hfuel; [lia|].
  simpl.
  destruct (Z.leb_spec (Z.of_nat fs) (Z.of_nat (length q) - Z.of_nat offset)) as [Hle|Hgt].
  - assert (Hd : (length q - offset) / fs = S ((length q - (offset + fs)) / fs)).
    { replace (length q - offset) with (1 * fs + (length q - (offset + fs))) by lia.
      rewrite Nat.div_add_l by lia. lia. }
    destruct (IH (offset + fs) (bytes + byteLength (quantize (subarray q offset (offset + fs))))
                ltac:(lia) ltac:(lia)) as [bytes' Hb].
    rewrite Hb. exists bytes'. rewrite Hd. simpl.
    replace (offset + fs - offset) with fs by lia.
    rewrite skipn_skipn.
    replace (offset + fs + (length q - (offset + fs)) / fs * fs)
      with (offset + (fs + (length q - (offset + fs)) / fs * fs)) by lia.
    unfold subarray. replace (offset + fs - offset) with fs by lia.
    replace (fs + offset) with (offset + fs) by lia. done.
  - exists bytes. rewrite Nat.div_small by lia. simpl. by rewrite Nat.add_0_r.
Qed.

Lemma resample_nil s t : resampleFloat32 [] s t = [].
Proof.
  unfold resampleFloat32. destruct (eqn s t); [done|].
  cbn [length]. generalize (f64 (s / t)) as r. intros r. unfold f64, fround.
  assert (H : Qeq_bool (num 0 / r) 0 = true).
  { apply Qeq_bool_iff. unfold num, Qdiv. simpl. ring. }
  by rewrite H.
Qed.


Lemma on_block_spec quantize s t fs (Hfs : 0 < fs) st block :
  length (bufferQueue st) < fs ->
  let q := bufferQueue st ++ resampleFloat32 block s t in
  exists st',
    on_block quantize s t fs st block =
      Some (st', map quantize (frames fs q (length q / fs)))
    /\ bufferQueue st' = leftover fs q.
Proof.
  intros Hinv q. unfold on_block.
  destruct (length block =? 0) eqn:E.
  - apply Nat.eqb_eq in E. destruct block; [|done].
    exists st. subst q. rewrite resample_nil, app_nil_r.
    unfold leftover. rewrite Nat.div_small by done. done.
  - set (queue := if length (bufferQueue st) =? 0 then _ else _).
    assert (Hq : queue = q).
    { subst queue q. destruct (length (bufferQueue st) =? 0) eqn:E0; [|done].
      apply Nat.eqb_eq in E0. by destruct (bufferQueue st). }
    rewrite Hq.
    assert (Hfuel : (length q - 0) / fs < S (length q)).
    { rewrite Nat.sub_0_r. assert (length q / fs <= length q); [|lia].
      apply Nat.Div0.div_le_upper_bound. nia. }
    destruct (frame_loop_spec quantize fs Hfs q (S (length q)) 0 (bytesSent st)
                ltac:(lia) Hfuel) as [bytes' Hb].
    rewrite Hb. rewrite Nat.sub_0_r. simpl.
    eexists. split; [reflexivity|]. simpl.
    unfold leftover, slice. destruct (0 <? length q / fs * fs) eqn:E1; [done|].
    apply Nat.ltb_ge in E1. by replace (length q / fs * fs) with 0 by lia.
Qed.

Lemma leftover_length fs (Hfs : 0 < fs) (l : list Q) :
  length (leftover fs l) = length l mod fs.
Proof.
  unfold leftover. rewrite length_skipn.
  pose proof (Nat.div_mod_eq (length l) fs). lia.
Qed.

Lemma feed_spec quantize s t fs (Hfs : 0 < fs) blocks : forall st,
  length (bufferQueue st) < fs ->
  let stream := bufferQueue st ++ concat (map (fun b => resampleFloat32 b s t) blocks) in
  exists st',
    feed (on_block quantize s t fs) st blocks =
      Some (st', map quantize (frames fs stream (length stream / fs)))
    /\ bufferQueue st' = leftover fs stream.
Proof.
  induction blocks as [|b rest IH]; intros st Hinv stream; simpl in *.
  - exists st. subst stream. rewrite app_nil_r.
    unfold leftover. rewrite Nat.div_small by done. done.
  - destruct (on_block_spec quantize s t fs Hfs st b Hinv) as (st1 & H1 & Hq1).
    rewrite H1.
    set (q1 := bufferQueue st ++ resampleFloat32 b s t) in *.
    set (rs := concat (map (fun b => resampleFloat32 b s t) rest)) in *.
    assert (Hinv1 : length (bufferQueue st1) < fs).
    { rewrite Hq1, leftover_length by done. by apply Nat.mod_upper_bound, Nat.neq_0_lt_0. }
    destruct (IH st1 Hinv1) as (st2 & H2 & Hq2). fold rs in H2, Hq2.
    rewrite H2. exists st2.
    set (m1 := length q1 / fs) in *.
    assert (Hm1 : m1 * fs <= length q1).
    { subst m1. pose proof (Nat.div_mod_eq (length q1) fs). lia. }
    assert (Hs : stream = q1 ++ rs) by (subst stream q1; by rewrite <- app_assoc).
    clearbody stream q1.
    assert (Hs' : bufferQueue st1 ++ rs = skipn (m1 * fs) stream).
    { rewrite Hq1, Hs. unfold leftover. fold m1.
      rewrite skipn_app. by replace (m1 * fs - length q1) with 0 by lia. }
    assert (Hlen : length stream = m1 * fs + length (bufferQueue st1 ++ rs)).
    { rewrite Hs', length_skipn. rewrite Hs, length_app. lia. }
    assert (Hm : length stream / fs = m1 + length (bufferQueue st1 ++ rs) / fs).
    { rewrite Hlen, Nat.add_comm, Nat.div_add by lia. lia. }
    split.
    + f_equal. f_equal. rewrite <- map_app. f_equal.
      rewrite Hm, frames_add, <- Hs'. f_equal.
      rewrite Hs. symmetry. by apply frames_app_l.
    + rewrite Hq2. unfold leftover.
      set (r := bufferQueue st1 ++ rs) in *.
      transitivity (skipn (length r / fs * fs) (skipn (m1 * fs) stream));
        [by rewrite <- Hs'|].
      rewrite skipn_skipn, Hm, Nat.mul_add_distr_r. f_equal. lia.
Qed.

(** C4.  Feeding a processor any sequence of blocks emits exactly
    [total / frameSamples] frames, where [total] counts the resampled samples:
    frame [k] is the quantization of samples [k * frameSamples ..] of the
    resampled stream, so what one block leaves over is put in front of the
    next block before slicing.  Exactly [total mod frameSamples] samples stay
    buffered: none when [total] is a multiple of the frame size.  The same
    holds for the offscreen script's handler. *)
Theorem frame_emission (actualRate targetSampleRate : Q) (frameSamples : nat)
    (blocks : list (list Q)) :
  0 < frameSamples ->
  let stream := concat (map (fun b => resampleFloat32 b actualRate targetSampleRate) blocks) in
  let total := length stream in
  let emits quantize handler :=
    exists st' sent,
      feed handler new_buffers blocks = Some (st', sent)
      /\ length sent = total / frameSamples
      /\ (forall k, k < total / frameSamples ->
            nth k sent [] =
            quantize (subarray stream (k * frameSamples) (k * frameSamples + frameSamples)))
      /\ bufferQueue st' = slice stream (total / frameSamples * frameSamples)
      /\ length (bufferQueue st') = total mod frameSamples
      /\ (total mod frameSamples = 0 -> bufferQueue st' = []) in
  emits floatTo16BitPCM
        (fun st block => onmessage actualRate targetSampleRate frameSamples st (Audio block))
  /\ emits floatTo16BitPCM_plain
        (onmessage_offscreen actualRate targetSampleRate frameSamples).
Proof.
  intros Hfs stream total emits.
  assert (H : forall quantize,
             emits quantize (on_block quantize actualRate targetSampleRate frameSamples)).
  { intros quantize. subst emits. simpl.
    destruct (feed_spec quantize actualRate targetSampleRate frameSamples Hfs blocks
                new_buffers ltac:(simpl; lia)) as (st' & Hfeed & Hq).
    simpl in Hfeed, Hq. fold stream in Hfeed, Hq. fold total in Hfeed.
    exists st', (map quantize (frames frameSamples stream (total / frameSamples))).
    split; [done|].
    split; [by rewrite length_map, frames_length|].
    split.
    { intros k Hk.
      rewrite <- (frames_nth frameSamples (total / frameSamples) stream k Hk).
      change [] with (@nil Z) at 1.
      rewrite (nth_indep _ [] (quantize [])) by (by rewrite length_map, frames_length).
      by rewrite map_nth. }
    split; [done|].
    split; [by rewrite Hq, leftover_length|].
    intros Hmod. apply nil_length_inv. by rewrite Hq, leftover_length. }
  split; apply H.
Qed.

(** Two blocks of 3 and 2 samples with frames of 2 samples: two frames go out
    and one sample stays. *)
Lemma frame_emission_witness :
  exists st',
    feed (fun st block => onmessage 16000 16000 2 st (Audio block)) new_buffers
         [[1 # 4; 1 # 2; -1 # 2]; [1; -1]]%Q
    = Some (st', [[8191; 16383]; [-16384; 32767]]%Z)
    /\ bufferQueue st' = [-1]%Q.
Proof.
  destruct (frame_emission 16000 16000 2 [[1 # 4; 1 # 2; -1 # 2]; [1; -1]]%Q
              ltac:(lia)) as [(st' & sent & Hfeed & _ & _ & Hq & _) _].
  exists st'. split; [|exact Hq].
  rewrite Hfeed. f_equal. f_equal. vm_compute in Hfeed. congruence.
Defined.

End FramingProperties.

(** ** JavaScript maps *)

Section JSMapProperties.
Context {V : Type}.
Implicit Types (m : JSMap.t V) (k : string) (v : V).

Lemma get_set_eq m k v : JSMap.get (JSMap.set m k v) k = Some v.
Proof.
  induction m as [|[k' v'] m IH]; simpl.
  - by rewrite String.eqb_refl.
  - destruct (String.eqb k' k) eqn:E; simpl.
    + by rewrite String.eqb_refl.
    + by rewrite E.
Qed.

Lemma get_set_ne m k k' v : k <> k' -> JSMap.get (JSMap.set m k v) k' = JSMap.get m k'.
Proof.
  intros Hne. induction m as [|[k1 v1] m IH]; simpl.
  - apply String.eqb_neq in Hne. by rewrite Hne.
  - destruct (String.eqb k1 k) eqn:E; simpl.
    + apply String.eqb_eq in E as ->. apply String.eqb_neq in Hne. by rewrite Hne.
    + by rewrite IH.
Qed.

Lemma get_delete_eq m k : JSMap.get (JSMap.delete m k) k = None.
Proof.
  induction m as [|[k' v'] m IH]; simpl; [done|].
  destruct (String.eqb k' k) eqn:E; simpl; [done|]. by rewrite E.
Qed.

Lemma get_delete_ne m k k' : k <> k' -> JSMap.get (JSMap.delete m k) k' = JSMap.get m k'.
Proof.
  intros Hne. induction m as [|[k1 v1] m IH]; simpl; [done|].
  destruct (String.eqb k1 k) eqn:E; simpl.
  - apply String.eqb_eq in E as ->. apply String.eqb_neq in Hne. by rewrite Hne.
  - by rewrite IH.
Qed.

Lemma has_delete_eq m k : JSMap.has (JSMap.delete m k) k = false.
Proof. unfold JSMap.has. by rewrite get_delete_eq. Qed.

Lemma has_delete_ne m k k' : k <> k' -> JSMap.has (JSMap.delete m k) k' = JSMap.has m k'.
Proof. intros. unfold JSMap.has. by rewrite get_delete_ne. Qed.

Lemma has_set_eq m k v : JSMap.has (JSMap.set m k v) k = true.
Proof. unfold JSMap.has. by rewrite get_set_eq. Qed.

Lemma has_set_ne m k k' v : k <> k' -> JSMap.has (JSMap.set m k v) k' = JSMap.has m k'.
Proof. intros. unfold JSMap.has. by rewrite get_set_ne. Qed.

Lemma count_key_has_false m k : JSMap.has m k = false -> count_key k m = 0.
Proof.
  unfold JSMap.has, count_key. induction m as [|[k' v'] m IH]; simpl; [done|].
  destruct (String.eqb k' k); [done|]. apply IH.
Qed.

Lemma count_key_filter m k (f : string * V -> bool) :
  count_key k (List.filter f m) <= count_key k m.
Proof.
  unfold count_key. induction m as [|e m IH]; simpl; [done|].
  destruct (f e); simpl; destruct (String.eqb e.1 k); simpl; lia.
Qed.

Lemma count_key_cons k k1 v1 m :
  count_key k ((k1, v1) :: m) = (if String.eqb k1 k then 1 else 0) + count_key k m.
Proof. unfold count_key. simpl. by destruct (String.eqb k1 k). Qed.

Lemma count_key_set m k k' v :
  count_key k' (JSMap.set m k v) =
  if String.eqb k k' then Nat.max 1 (count_key k' m) else count_key k' m.
Proof.
  induction m as [|[k1 v1] m IH]; simpl.
  - rewrite count_key_cons. by destruct (String.eqb k k').
  - destruct (String.eqb k1 k) eqn:E; rewrite !count_key_cons.
    + apply String.eqb_eq in E as ->. destruct (String.eqb k k'); simpl; lia.
    + rewrite IH. destruct (String.eqb k1 k') eqn:E1; simpl; [|done].
      destruct (String.eqb k k') eqn:E2; [|done].
      apply String.eqb_eq in E1, E2. subst. by rewrite String.eqb_refl in E.
Qed.

Lemma count_key_delete m k k' :
  count_key k' (JSMap.delete m k) = if String.eqb k k' then 0 else count_key k' m.
Proof.
  induction m as [|[k1 v1] m IH]; simpl.
  - by destruct (String.eqb k k').
  - destruct (String.eqb k1 k) eqn:E; rewrite ?count_key_cons, IH.
    + apply String.eqb_eq in E as ->. by destruct (String.eqb k k').
    + destruct (String.eqb k1 k') eqn:E1; simpl; [|done].
      destruct (String.eqb k k') eqn:E2; [|done].
      apply String.eqb_eq in E1, E2. subst. by rewrite String.eqb_refl in E.
Qed.

Lemma has_count m k : JSMap.has m k = negb (count_key k m =? 0).
Proof.
  unfold JSMap.has, count_key. induction m as [|[k' v'] m IH]; simpl; [done|].
  destruct (String.eqb k' k); [done|]. apply IH.
Qed.

Lemma unique_keys_set m k v : unique_keys m -> unique_keys (JSMap.set m k v).
Proof.
  intros H k'. rewrite count_key_set. specialize (H k').
  destruct (String.eqb k k'); lia.
Qed.

Lemma unique_keys_delete m k : unique_keys m -> unique_keys (JSMap.delete m k).
Proof.
  intros H k'. rewrite count_key_delete. specialize (H k').
  destruct (String.eqb k k'); lia.
Qed.

Lemma unique_keys_fold_delete (l : list (string * V)) : forall m,
  unique_keys m -> unique_keys (fold_left (fun m e => JSMap.delete m (fst e)) l m).
Proof.
  induction l as [|e l IH]; intros m H; simpl; [done|].
  by apply IH, unique_keys_delete.
Qed.

Lemma count_key_fold_delete (l : list (string * V)) k : forall m,
  count_key k (fold_left (fun m e => JSMap.delete m (fst e)) l m) =
  if (count_key k l =? 0) then count_key k m else 0.
Proof.
  induction l as [|[k1 v1] l IH]; intros m; simpl; [done|].
  rewrite IH, count_key_delete, count_key_cons.
  destruct (String.eqb k1 k) eqn:E; simpl; [|done].
  by destruct (count_key k l =? 0).
Qed.

End JSMapProperties.

(** ** The participant detector *)

Section DetectorProperties.
Import Detector.
Local Open Scope Z_scope.

Lemma match_here_nonempty lit s w : match_here lit s = Some w -> w <> EmptyString.
Proof.
  unfold match_here. destruct (match_literal lit s) as [[|sep rest]|]; try done.
  destruct (_ || _); [|done]. destruct (take_word rest); [done|].
  by intros [= <-].
Qed.

Lemma regex_match_nonempty lit s w : regex_match lit s = Some w -> w <> EmptyString.
Proof.
  induction s as [|c s IH]; simpl.
  - destruct (match_here lit "") eqn:E; [|done]. intros [= <-].
    by eapply match_here_nonempty.
  - destruct (match_here lit (String c s)) eqn:E; [|done].
    intros [= <-]. by eapply match_here_nonempty.
Qed.

Lemma inspectTrackLabel_nonempty trackLabel streamId w :
  inspectTrackLabel trackLabel streamId = Some w -> w <> EmptyString.
Proof.
  unfold inspectTrackLabel. destruct (String.eqb trackLabel ""); [done|].
  generalize patterns. intros pats. induction pats as [|p pats IH]; simpl; [done|].
  destruct (regex_match p trackLabel) eqn:E; [|done].
  intros [= <-]. by eapply regex_match_nonempty.
Qed.

(** C5.  A track-added message whose label yields a participant token that is
    a key of the registry is mapped to that participant at once: the mapping
    is recorded and one mapping message is posted, whatever the timestamps
    are; nothing becomes pending and no timer is armed.  The label
    "participant-42" yields the token "42". *)
Theorem label_match_maps_directly (st : state)
    (trackId trackLabel streamId possibleId : string) (timestamp_ now : Z) :
  inspectTrackLabel trackLabel streamId = Some possibleId ->
  JSMap.has (participantsRegistry st) possibleId = true ->
  on_track_added st trackId trackLabel streamId timestamp_ now =
    (State (participantsRegistry st)
           (<[trackId := possibleId]> (trackToParticipant st))
           (pendingTracks st) (timers st),
     [TRACK_PARTICIPANT_MAPPED trackId possibleId
        (name_of (participantsRegistry st) possibleId) now false])
  /\ inspectTrackLabel "participant-42" streamId = Some "42"%string.
Proof.
  intros Hlabel Hreg. split; [|done].
  unfold on_track_added, direct_match. rewrite Hlabel, Hreg.
  apply inspectTrackLabel_nonempty in Hlabel.
  apply String.eqb_neq in Hlabel. by rewrite Hlabel.
Qed.

(** Participant "42" joined at time 0; the track arrives 1000 s later. *)
Lemma label_match_maps_directly_witness :
  let st := State [("42"%string, Participant "42" (Some "Ana"%string) 0 false)] ∅ [] [] in
  on_track_added st "t1" "participant-42" "s1" 1000000 1000001 =
    (State (participantsRegistry st) (<["t1"%string := "42"%string]> ∅) [] [],
     [TRACK_PARTICIPANT_MAPPED "t1" "42" (Some "Ana"%string) 1000001 false])
  /\ timing_match st 1000000 = None.
Proof.
  split; [|reflexivity].
  apply (label_match_maps_directly
           (State [("42"%string, Participant "42" (Some "Ana"%string) 0 false)] ∅ [] [])
           "t1" "participant-42" "s1" "42" 1000000 1000001); reflexivity.
Defined.

Lemma timing_match_None st timestamp_ :
  (forall pid info, In (pid, info) (participantsRegistry st) ->
     TRACK_ASSIGNMENT_WINDOW_MS <= Z.abs (timestamp_ - timestamp info)) ->
  timing_match st timestamp_ = None.
Proof.
  intros H. unfold timing_match.
  destruct (List.find _ _) as [[pid info]|] eqn:E; [|done].
  apply find_some in E as [Hin Hw]. apply H in Hin.
  unfold in_window in Hw. simpl in Hw. apply Z.ltb_lt in Hw. lia.
Qed.

(** C6 (as the code has it).  A track with no label match in the registry and
    no participant within 3000 ms becomes pending under the fallback id
    "participant-" followed by the first 8 characters of the track id, and a
    callback is armed for 3000 ms later.  The callback cannot run earlier;
    when it runs and the track is no longer pending it does nothing; when the
    track is still pending it maps the track to the fallback id, removes it
    from the pending ones and posts one mapping message with [isFallback]
    set.  A participant record with [isFallback] set is synthesized when the
    registry has none under the fallback id; a record already there is left
    as it is. *)
Theorem deferred_fallback (st : state) (trackId trackLabel streamId : string)
    (timestamp_ now : Z) :
  direct_match st trackLabel streamId = None ->
  (forall pid info, In (pid, info) (participantsRegistry st) ->
     3000 <= Z.abs (timestamp_ - timestamp info)) ->
  let fallbackId := String.append "participant-" (String.substring 0 8 trackId) in
  let tm := Timer trackId fallbackId (now + 3000) in
  on_track_added st trackId trackLabel streamId timestamp_ now =
    (State (participantsRegistry st) (trackToParticipant st)
           (JSMap.set (pendingTracks st) trackId
              (Pending timestamp_ trackLabel streamId fallbackId))
           (timers st ++ [tm]),
     [])
  /\ (forall st2 n now2,
        timers st2 !! n = Some tm -> now2 < now + 3000 ->
        step st2 (TIMEOUT n now2) = (st2, []))
  /\ (forall st2 now2,
        JSMap.has (pendingTracks st2) trackId = false ->
        on_timeout st2 tm now2 = (st2, []))
  /\ (forall st2 now2,
        JSMap.has (pendingTracks st2) trackId = true ->
        let st3 := (on_timeout st2 tm now2).1 in
        trackToParticipant st3 !! trackId = Some fallbackId
        /\ JSMap.has (pendingTracks st3) trackId = false
        /\ (on_timeout st2 tm now2).2 =
             [TRACK_PARTICIPANT_MAPPED trackId fallbackId
                (name_of (participantsRegistry st3) fallbackId) now2 true]
        /\ (JSMap.has (participantsRegistry st2) fallbackId = false ->
              JSMap.get (participantsRegistry st3) fallbackId =
                Some (Participant fallbackId
                        (Some (String.append "Participant "
                                 (pretty (JSMap.size (participantsRegistry st2) + 1)%nat)))
                        now2 true))
        /\ (JSMap.has (participantsRegistry st2) fallbackId = true ->
              participantsRegistry st3 = participantsRegistry st2)).
Proof.
  intros Hdirect Htiming fallbackId tm.
  split; [|split; [|split]].
  - unfold on_track_added. rewrite Hdirect, timing_match_None; done.
  - intros st2 n now2 Htm Hlt. simpl. rewrite Htm. simpl.
    apply Z.ltb_lt in Hlt. by rewrite Hlt.
  - intros st2 now2 Hp. unfold on_timeout. simpl. by rewrite Hp.
  - intros st2 now2 Hp st3. subst st3. unfold on_timeout. simpl. rewrite Hp. simpl.
    split; [by rewrite lookup_insert_eq|].
    split; [apply has_delete_eq|].
    split; [done|].
    split.
    + intros Hr. rewrite Hr. apply get_set_eq.
    + intros Hr. by rewrite Hr.
Qed.

(** A far-away participant; the track "abcdefgh-1" gets "participant-abcdefgh". *)
Lemma deferred_fallback_witness :
  let st := State [("p1"%string, Participant "p1" (Some "Ana"%string) 0 false)] ∅ [] [] in
  let tm := Timer "abcdefgh-1" "participant-abcdefgh" 13000 in
  let st1 := (on_track_added st "abcdefgh-1" "" "s1" 10000 10000).1 in
  timers st1 = [tm]
  /\ step st1 (TIMEOUT 0 12999) = (st1, [])
  /\ (step st1 (TIMEOUT 0 13000)).2 =
       [TRACK_PARTICIPANT_MAPPED "abcdefgh-1" "participant-abcdefgh"
          (Some "Participant 2"%string) 13000 true].
Proof.
  intros st tm st1.
  assert (H1 : direct_match st "" "s1" = None) by reflexivity.
  assert (H2 : forall pid info, In (pid, info) (participantsRegistry st) ->
                 3000 <= Z.abs (10000 - timestamp info)).
  { intros pid info [[= <- <-]|[]]. simpl. lia. }
  destruct (deferred_fallback st "abcdefgh-1" "" "s1" 10000 10000 H1 H2)
    as (Hadd & _ & _ & _).
  unfold st1. rewrite Hadd. simpl.
  split; [reflexivity|]. split; reflexivity.
Defined.

(** C6, as stated, fails when the registry already has a participant under
    the fallback id: no record is synthesized.  Here a participant found in
    the page carries the id "participant-abcdefgh"; the track "abcdefgh-1" has
    no label and arrives 10 s after that participant.  When the callback runs
    the registry is unchanged, its record is not a fallback one, and the
    message tagged [isFallback] names that participant. *)
Lemma fallback_reuses_existing_participant :
  let ana := Participant "participant-abcdefgh" (Some "Ana"%string) 0 false in
  let st := State [("participant-abcdefgh"%string, ana)] ∅ [] [] in
  let r1 := step st (WEBRTC_TRACK_ADDED "abcdefgh-1" "" "s1" 10000 10000) in
  let r2 := step r1.1 (TIMEOUT 0 13000) in
  inspectTrackLabel "" "s1" = None
  /\ timing_match st 10000 = None
  /\ r1.2 = []
  /\ JSMap.has (pendingTracks r1.1) "abcdefgh-1" = true
  /\ r2.2 = [TRACK_PARTICIPANT_MAPPED "abcdefgh-1" "participant-abcdefgh"
               (Some "Ana"%string) 13000 true]
  /\ participantsRegistry r2.1 = participantsRegistry st
  /\ JSMap.get (participantsRegistry r2.1) "participant-abcdefgh" = Some ana
  /\ isFallback ana = false.
Proof. vm_compute. repeat split; reflexivity. Qed.

Lemma mappings_of_app t a b :
  mappings_of t (List.app a b) = (mappings_of t a + mappings_of t b)%nat.
Proof. unfold mappings_of. by rewrite List.filter_app, length_app. Qed.

Lemma mappings_of_assigned t pid nm now (assigned : list (string * pending)) :
  mappings_of t (map (fun e => TRACK_PARTICIPANT_MAPPED (fst e) pid nm now false) assigned)
  = count_key t assigned.
Proof.
  unfold mappings_of, count_key. induction assigned as [|e l IH]; simpl; [done|].
  destruct (String.eqb e.1 t); simpl; by rewrite IH.
Qed.

Lemma assign_effect st pid joined now t :
  unique_keys (pendingTracks st) ->
  let r := assignPendingTracks st pid joined now in
  unique_keys (pendingTracks r.1)
  /\ (mappings_of t r.2 + pend r.1 t <= pend st t)%nat.
Proof.
  intros Hu r. subst r. unfold assignPendingTracks, pend. simpl.
  split; [by apply unique_keys_fold_delete|].
  rewrite mappings_of_assigned, count_key_fold_delete.
  set (f := fun e : string * pending => _).
  pose proof (count_key_filter (pendingTracks st) t f) as Hle.
  destruct (count_key t (List.filter f (pendingTracks st)) =? 0)%nat eqn:E.
  - apply Nat.eqb_eq in E. lia.
  - lia.
Qed.

Lemma step_effect st ev t :
  unique_keys (pendingTracks st) ->
  let r := step st ev in
  unique_keys (pendingTracks r.1)
  /\ (mappings_of t r.2 + pend r.1 t
       <= pend st t + (if is_added t ev then 1 else 0))%nat.
Proof.
  intros Hu r. subst r.
  pose proof (Hu t) as Hle. fold (pend st t) in Hle.
  destruct ev as [trackId trackLabel streamId ts now|trackId|info now|n now];
    unfold step.
  - unfold on_track_added. simpl.
    destruct (direct_match st trackLabel streamId) as [pid|]; simpl.
    { split; [done|]. unfold mappings_of, pend. simpl.
      destruct (String.eqb trackId t); simpl; lia. }
    destruct (timing_match st ts) as [[pid info]|]; simpl.
    { split; [done|]. unfold mappings_of, pend. simpl.
      destruct (String.eqb trackId t); simpl; lia. }
    split; [by apply unique_keys_set|].
    unfold mappings_of, pend in *. simpl. rewrite count_key_set.
    destruct (String.eqb trackId t); simpl; lia.
  - unfold pend, on_track_removed. simpl. split; [by apply unique_keys_delete|].
    rewrite count_key_delete. unfold mappings_of. simpl.
    destruct (String.eqb trackId t); lia.
  - unfold participant_seen.
    destruct (JSMap.has (participantsRegistry st) (participantId info)).
    { split; [done|]. unfold mappings_of. simpl. lia. }
    set (st1 := State _ _ _ _).
    pose proof (assign_effect st1 (participantId info) (timestamp info) now t Hu) as H.
    destruct (assignPendingTracks st1 _ _ _) as [st2 out].
    destruct H as [H1 H2]. split; [done|].
    unfold mappings_of in *. simpl in *. unfold pend in *. simpl in *. lia.
  - simpl. destruct (timers st !! n) as [tm|]; simpl.
    2:{ split; [done|]. unfold mappings_of. simpl. lia. }
    destruct (now <? t_due tm); simpl.
    { split; [done|]. unfold mappings_of. simpl. lia. }
    unfold on_timeout. simpl.
    destruct (JSMap.has (pendingTracks st) (t_trackId tm)) eqn:Hp; simpl.
    2:{ split; [done|]. unfold mappings_of, pend. simpl. lia. }
    split; [by apply unique_keys_delete|].
    unfold mappings_of, pend in *. simpl. rewrite count_key_delete.
    destruct (String.eqb (t_trackId tm) t) eqn:E; simpl; [|lia].
    apply String.eqb_eq in E as <-.
    rewrite has_count in Hp. destruct (count_key _ _ =? 0)%nat eqn:E0; [done|].
    apply Nat.eqb_neq in E0. lia.
Qed.

Lemma run_effect evs t : forall st,
  unique_keys (pendingTracks st) ->
  (mappings_of t (run st evs).2 + pend (run st evs).1 t
   <= pend st t + additions_of t evs)%nat.
Proof.
  induction evs as [|ev evs IH]; intros st Hu; simpl.
  - unfold mappings_of, additions_of. simpl. lia.
  - pose proof (step_effect st ev t Hu) as [Hu1 Hstep].
    destruct (step st ev) as [st1 out1]. simpl in *.
    specialize (IH st1 Hu1).
    destruct (run st1 evs) as [st2 out2]. simpl in *.
    rewrite mappings_of_app. unfold additions_of in *. simpl.
    destruct (is_added t ev); simpl in *; lia.
Qed.

(** C8 (as the code has it).  Over any run of the detector, the mapping
    messages posted for a track never outnumber the track-added messages
    handled for it, whichever way the mappings are made: a track announced
    once is mapped at most once. *)
Theorem mappings_bounded_by_additions (evs : list event) (t : string) :
  (mappings_of t (run init evs).2 <= additions_of t evs)%nat.
Proof.
  pose proof (run_effect evs t init) as H.
  assert (Hu : unique_keys (pendingTracks init)) by (intros k; cbv; lia).
  specialize (H Hu).
  assert (H0 : pend init t = 0%nat) by done.
  lia.
Qed.

(** C8, as stated, fails on a replay.  Participant "42" is known and track
    "t1", labelled "participant-42", has been mapped.  When multi-track
    capture starts, the supervisor announces the tracks of the interceptor's
    registry again; the detector takes the replayed message like a new one
    and posts a second mapping message for "t1". *)
Lemma replayed_track_mapped_twice :
  let info := Supervisor.TrackInfo "t1" (Supervisor.Track "t1" "audio" "participant-42")
                "s1" "pc1" 1000 in
  let replay :=
    (Supervisor.on_start Supervisor.init (Some 7) "meet-1" "ws://backend"
       (Some [("t1"%string, info)]) 5000).2 in
  let evs :=
    PARTICIPANT_SEEN (Participant "42" (Some "Ana"%string) 900 false) 900
    :: WEBRTC_TRACK_ADDED "t1" "participant-42" "s1" 1000 1000
    :: List.concat (map (Window.to_detector 5000) replay) in
  replay = [Supervisor.WEBRTC_TRACK_ADDED "t1" "participant-42" "s1" "pc1" 1000]
  /\ (run init evs).2 =
       [MEET_PARTICIPANT_JOINED "42" (Some "Ana"%string) 900;
        TRACK_PARTICIPANT_MAPPED "t1" "42" (Some "Ana"%string) 1000 false;
        TRACK_PARTICIPANT_MAPPED "t1" "42" (Some "Ana"%string) 5000 false]
  /\ mappings_of "t1" (run init evs).2 = 2%nat.
Proof. vm_compute. repeat split; reflexivity. Qed.

End DetectorProperties.

(** ** The supervisor *)

Section SupervisorProperties.
Import Supervisor.

Lemma start_keeps_track st p acquired :
  p_track (start st p acquired).1 = p_track p
  /\ participantId (start st p acquired).1 = participantId p.
Proof.
  unfold start. destruct (isRunning p); [done|]. by destruct acquired.
Qed.

Lemma step_unique_keys st ev :
  unique_keys (audioProcessors st) -> unique_keys (audioProcessors (step st ev).1).
Proof.
  intros Hu.
  destruct ev as [registry trackId pid pname acquired|trackId|tab mid url registry now|];
    unfold step.
  - unfold on_mapped. destruct registry as [registry|]; [|done].
    destruct (JSMap.get registry trackId) as [info|]; [|done].
    unfold handleRemoteTrack. destruct (JSMap.has (audioProcessors st) pid); [done|].
    destruct (start st _ acquired) as [p' out]. simpl. by apply unique_keys_set.
  - unfold on_removed. destruct (List.find _ _) as [[pid p]|]; [|done].
    simpl. by apply unique_keys_delete.
  - done.
  - intros k. cbv. lia.
Qed.

Lemma run_unique_keys evs : forall st,
  unique_keys (audioProcessors st) -> unique_keys (audioProcessors (run st evs).1).
Proof.
  induction evs as [|ev evs IH]; intros st Hu; simpl; [done|].
  pose proof (step_unique_keys st ev Hu) as Hu1.
  destruct (step st ev) as [st1 out1]. simpl in Hu1.
  specialize (IH st1 Hu1). by destruct (run st1 evs).
Qed.

(** C7.  When a participant has no processor, the first mapping message for
    it creates one bound to that track; a second mapping message for the same
    participant, for whatever track, changes nothing and posts nothing.  The
    participant then has exactly one processor, still bound to the first
    track.  In every run of the supervisor a participant id has at most one
    processor. *)
Theorem one_processor_per_participant
    (st : state) (registry1 registry2 : JSMap.t trackInfo)
    (t1 t2 pid name1 name2 : string) (info1 info2 : trackInfo) (a1 a2 : bool) :
  JSMap.get registry1 t1 = Some info1 ->
  JSMap.get registry2 t2 = Some info2 ->
  JSMap.has (audioProcessors st) pid = false ->
  let st1 := (on_mapped st (Some registry1) t1 pid name1 a1).1 in
  let r2 := on_mapped st1 (Some registry2) t2 pid name2 a2 in
  r2 = (st1, [])
  /\ count_key pid (audioProcessors r2.1) = 1
  /\ (exists p, JSMap.get (audioProcessors r2.1) pid = Some p
                /\ p_track p = ti_track info1)
  /\ (forall evs k, count_key k (audioProcessors (run init evs).1) <= 1).
Proof.
  intros H1 H2 Hnew st1 r2.
  assert (Hst1 : exists p, audioProcessors st1 = JSMap.set (audioProcessors st) pid p
                           /\ p_track p = ti_track info1).
  { subst st1. unfold on_mapped. rewrite H1. unfold handleRemoteTrack. rewrite Hnew.
    pose proof (start_keeps_track st
      (new_processor pid name1 (ti_track info1) DEFAULT_SAMPLE_RATE) a1) as [Ht _].
    destruct (start st _ a1) as [p' out]. simpl in *. by exists p'. }
  destruct Hst1 as (p & Hp & Htrack).
  assert (Hr2 : r2 = (st1, [])).
  { subst r2. unfold on_mapped. rewrite H2. unfold handleRemoteTrack.
    by rewrite Hp, has_set_eq. }
  rewrite Hr2. simpl. split; [done|]. split; [|split].
  - rewrite Hp, count_key_set, String.eqb_refl.
    rewrite has_count in Hnew. destruct (count_key pid (audioProcessors st) =? 0) eqn:E; [|done].
    apply Nat.eqb_eq in E. lia.
  - exists p. by rewrite Hp, get_set_eq.
  - intros evs k. apply run_unique_keys. intros k'. cbv. lia.
Qed.

(** Tracks "t1" and "t2" are both mapped to participant "42". *)
Lemma one_processor_per_participant_witness :
  let a := Track "t1" "audio" "" in
  let b := Track "t2" "audio" "" in
  let registry := [("t1"%string, TrackInfo "t1" a "s1" "pc" 1000);
                   ("t2"%string, TrackInfo "t2" b "s2" "pc" 2000)] in
  let st1 := (on_mapped init (Some registry) "t1" "42" "Ana" true).1 in
  let r2 := on_mapped st1 (Some registry) "t2" "42" "Ana" true in
  r2 = (st1, [])
  /\ count_key "42" (audioProcessors r2.1) = 1
  /\ (exists p, JSMap.get (audioProcessors r2.1) "42" = Some p /\ p_track p = a).
Proof.
  intros a b registry st1 r2.
  destruct (one_processor_per_participant init registry registry "t1" "t2" "42"
              "Ana" "Ana" (TrackInfo "t1" a "s1" "pc" 1000)
              (TrackInfo "t2" b "s2" "pc" 2000) true true
              eq_refl eq_refl eq_refl) as (H1 & H2 & H3 & _).
  split; [exact H1|]. split; [exact H2|exact H3].
Defined.

End SupervisorProperties.

(** ** The relay *)

Section RelayProperties.
Import Relay.

Lemma conns_update_conn st c f c' :
  conns (update_conn st c f) !! c' =
  if decide (c = c') then f <$> (conns st !! c) else conns st !! c'.
Proof.
  unfold update_conn. destruct (conns st !! c) as [x|] eqn:E; simpl.
  - destruct (decide (c = c')) as [->|Hne].
    + rewrite list_lookup_insert_eq; [done|]. by eapply lookup_lt_Some.
    + by rewrite list_lookup_insert_ne.
  - destruct (decide (c = c')) as [->|Hne]; [by rewrite E|done].
Qed.

Lemma length_update_conn st c f :
  length (conns (update_conn st c f)) = length (conns st).
Proof.
  unfold update_conn. destruct (conns st !! c); simpl; [|done].
  by rewrite length_insert.
Qed.

(** Closing a socket leaves what was sent and what is queued alone. *)
Lemma conn_ok_close x h : conn_ok x h -> conn_ok (close_ws x) h.
Proof. done. Qed.

Lemma relay_inv_update st h c f :
  relay_inv st h ->
  (forall x, conns st !! c = Some x -> conn_ok (f x) (h c)) ->
  relay_inv (update_conn st c f) h.
Proof.
  intros [H1 H2] Hf. split.
  - intros c' x'. rewrite conns_update_conn.
    destruct (decide (c = c')) as [->|Hne]; [|by apply H1].
    destruct (conns st !! c') as [x|] eqn:E; simpl; [|done].
    intros [= <-]. by apply Hf.
  - intros c'. rewrite length_update_conn. apply H2.
Qed.

Lemma relay_inv_ext st st' h :
  conns st' = conns st -> relay_inv st h -> relay_inv st' h.
Proof. unfold relay_inv. by intros ->. Qed.

Lemma relay_inv_alloc st st' h url_ o :
  conns st' = conns st ++ [new_conn url_ o] -> relay_inv st h -> relay_inv st' h.
Proof.
  intros Hc [H1 H2]. split.
  - intros c x. rewrite Hc. intros Hl.
    apply lookup_app_Some in Hl as [Hl|[Hge Hl]]; [by apply H1|].
    apply list_lookup_singleton_Some in Hl as [_ <-].
    rewrite (H2 c Hge). done.
  - intros c. rewrite Hc, length_app. simpl. intros Hge. apply H2. lia.
Qed.

Lemma relay_inv_closeWsForTab st h tab :
  relay_inv st h -> relay_inv (closeWsForTab st tab) h.
Proof.
  intros Hinv. unfold closeWsForTab.
  eapply relay_inv_ext; [reflexivity|]. simpl.
  destruct (__wsByTab st !! tab); [|done].
  apply relay_inv_update; [done|]. intros x Hx. apply conn_ok_close.
  by apply Hinv.
Qed.

Lemma relay_inv_participant_map_for st h tab :
  relay_inv st h -> relay_inv (participant_map_for st tab).1 h.
Proof.
  intros Hinv. unfold participant_map_for.
  destruct (__wsByTabAndParticipant st !! tab); [done|].
  by eapply relay_inv_ext; [|apply Hinv].
Qed.

Lemma relay_inv_close_existing st h pm pid :
  relay_inv st h -> relay_inv (close_existing st pm pid) h.
Proof.
  intros Hinv. unfold close_existing.
  destruct (participantMaps st !! pm) as [m|]; [|done].
  destruct (m !! pid); [|done].
  apply relay_inv_update; [done|]. intros x Hx. apply conn_ok_close.
  by apply Hinv.
Qed.

Lemma relay_inv_on_open st h msg created :
  relay_inv st h -> relay_inv (on_open st msg created) h.
Proof.
  intros Hinv. unfold on_open.
  destruct (negb (String.eqb (participantId msg) "")).
  - destruct (tabId msg) as [tab|]; [|done].
    destruct (String.eqb (url msg) ""); [done|].
    pose proof (relay_inv_participant_map_for st h tab Hinv) as Hinv1.
    destruct (participant_map_for st tab) as [st1 pm]. simpl in Hinv1.
    pose proof (relay_inv_close_existing st1 h pm (participantId msg) Hinv1) as Hinv2.
    destruct created; [|done].
    eapply relay_inv_alloc; [|apply Hinv2]. reflexivity.
  - destruct (tabId msg) as [tab|]; [|done].
    destruct (String.eqb (url msg) ""); [done|].
    pose proof (relay_inv_closeWsForTab st h tab Hinv) as Hinv1.
    destruct created; [|done].
    eapply relay_inv_alloc; [|apply Hinv1]. reflexivity.
Qed.

Lemma relay_inv_on_close st h msg :
  relay_inv st h -> relay_inv (on_close st msg) h.
Proof.
  intros Hinv. unfold on_close.
  destruct (tabId msg) as [tab|]; [|done].
  destruct (negb (String.eqb (participantId msg) "")); [|by apply relay_inv_closeWsForTab].
  destruct (__wsByTabAndParticipant st !! tab) as [pm|]; [|done].
  destruct (participantMaps st !! pm) as [m|]; [|done].
  eapply relay_inv_ext; [reflexivity|]. simpl.
  destruct (m !! participantId msg); [|done].
  apply relay_inv_update; [done|]. intros x Hx. apply conn_ok_close. by apply Hinv.
Qed.

Lemma send_target_Some st msg c buf :
  send_target st msg = Some (c, buf) -> is_Some (conns st !! c).
Proof.
  unfold send_target. intros H.
  destruct (tabId msg); [|done]. destruct (normalize msg); [|done].
  destruct (if String.eqb _ _ then _ else _) as [c'|]; [|done].
  destruct (conns st !! c') eqn:E; [|done]. injection H as <- _. by rewrite E.
Qed.

Lemma relay_inv_step st h ev :
  relay_inv st h -> relay_inv (step st ev) (fun c => h c ++ delivered c st ev).
Proof.
  intros Hinv.
  assert (Hnil : forall st', relay_inv st' h -> relay_inv st' (fun c => h c ++ [])).
  { intros st' [H1 H2]. split; intros c; rewrite app_nil_r; auto. }
  destruct ev as [type msg created|c|c|c]; simpl.
  - unfold handlePortMessage.
    destruct (String.eqb type "AUDIO_WS_OPEN") eqn:E1.
    { apply String.eqb_eq in E1 as ->. simpl.
      by apply Hnil, relay_inv_on_open. }
    destruct (String.eqb type "AUDIO_WS_SEND") eqn:E2.
    2:{ destruct (String.eqb type "AUDIO_WS_CLOSE"); apply Hnil; [|done].
        by apply relay_inv_on_close. }
    unfold on_send. destruct (send_target st msg) as [[c buf]|] eqn:Et.
    2:{ by apply Hnil. }
    destruct Hinv as [H1 H2].
    destruct (send_target_Some _ _ _ _ Et) as [x Hx].
    split.
    + intros c' x'. rewrite conns_update_conn.
      destruct (decide (c = c')) as [<-|Hne].
      * rewrite Hx. simpl. intros [= <-]. rewrite Nat.eqb_refl.
        destruct (H1 c x Hx) as (Ha & Hb & Hc).
        destruct (ready x) eqn:Er; unfold conn_ok; simpl.
        -- rewrite (Hc eq_refl) in *. rewrite app_nil_r in *.
           rewrite Ha. split; [done|]. split; [done|]. by intros _.
        -- rewrite (Hb eq_refl) in *. simpl in *. rewrite Ha.
           split; [done|]. split; [done|]. done.
      * intros Hl. apply Nat.eqb_neq in Hne. rewrite Hne, app_nil_r. by apply H1.
    + intros c'. rewrite length_update_conn. intros Hge.
      destruct (c =? c')%nat eqn:E.
      * apply Nat.eqb_eq in E as <-. apply lookup_lt_Some in Hx. lia.
      * rewrite app_nil_r. by apply H2.
  - apply Hnil. unfold ws_onopen.
    destruct (conns st !! c) as [x|] eqn:Ex; [|done].
    eapply relay_inv_ext; [reflexivity|]. simpl.
    apply relay_inv_update; [done|]. intros x' Hx'.
    destruct Hinv as [H1 _]. destruct (H1 c x' Hx') as (Ha & Hb & Hc).
    unfold conn_ok. simpl. rewrite app_nil_r. split; [done|]. split; done.
  - by apply Hnil.
  - apply Hnil. unfold ws_onclose.
    destruct (conns st !! c) as [x|]; [|done].
    destruct (c_owner x) as [pm tab pid|tab].
    + destruct (participantMaps st !! pm); [|done].
      by eapply relay_inv_ext; [|apply Hinv].
    + by eapply relay_inv_ext; [|apply Hinv].
Qed.

Lemma relay_inv_run evs : forall st h,
  relay_inv st h -> relay_inv (run st evs) (fun c => h c ++ accepted c st evs).
Proof.
  induction evs as [|ev evs IH]; intros st h Hinv; simpl.
  - destruct Hinv as [H1 H2]. split; intros c; rewrite app_nil_r; auto.
  - apply relay_inv_step with (ev := ev) in Hinv.
    apply IH in Hinv. unfold run in *.
    destruct Hinv as [H1 H2]. split.
    + intros c x Hx. rewrite app_assoc. by apply H1.
    + intros c Hc. rewrite app_assoc. by apply H2.
Qed.

(** A buffer that reaches a connection which is not ready is put at the end of
    its queue. *)
Lemma send_enqueues st msg c buf x :
  send_target st msg = Some (c, buf) ->
  conns st !! c = Some x ->
  ready x = false ->
  exists x', conns (on_send st msg) !! c = Some x'
             /\ queue x' = queue x ++ [buf]
             /\ ws_sent x' = ws_sent x
             /\ ready x' = false.
Proof.
  intros Ht Hx Hr. unfold on_send. rewrite Ht, conns_update_conn.
  destruct (decide (c = c)) as [_|]; [|done]. rewrite Hx. simpl. rewrite Hr.
  eexists. split; [reflexivity|]. done.
Qed.

(** The open event sends the queue, oldest first, and empties it. *)
Lemma open_flushes st c x :
  conns st !! c = Some x ->
  exists x', conns (ws_onopen st c) !! c = Some x'
             /\ ws_sent x' = ws_sent x ++ queue x
             /\ queue x' = []
             /\ ready x' = true.
Proof.
  intros Hx. unfold ws_onopen. rewrite Hx. simpl. rewrite conns_update_conn.
  destruct (decide (c = c)) as [_|]; [|done]. rewrite Hx. simpl.
  eexists. split; [reflexivity|]. done.
Qed.

(** C1.  In every run of the service worker, for every connection state
    object: the buffers handed to it are, in the order they came, exactly
    those sent on its socket followed by those still queued.  While it is not
    ready nothing has been sent and the queue holds all of them, and a further
    buffer goes to the end of the queue.  The open event leaves the queue
    empty with every buffer handed so far sent once, in that order; once
    ready the queue stays empty. *)
Theorem relay_queue_fifo (evs : list event) (c : nat) (x : conn) :
  conns (run init evs) !! c = Some x ->
  ws_sent x ++ queue x = accepted c init evs
  /\ (ready x = false -> ws_sent x = [] /\ queue x = accepted c init evs)
  /\ (ready x = true -> queue x = [] /\ ws_sent x = accepted c init evs)
  /\ (forall msg buf,
        ready x = false ->
        send_target (run init evs) msg = Some (c, buf) ->
        exists x', conns (on_send (run init evs) msg) !! c = Some x'
                   /\ queue x' = accepted c init evs ++ [buf]
                   /\ ws_sent x' = []
                   /\ ready x' = false)
  /\ (exists x', conns (ws_onopen (run init evs) c) !! c = Some x'
                 /\ ws_sent x' = accepted c init evs
                 /\ queue x' = []
                 /\ ready x' = true).
Proof.
  intros Hx.
  assert (Hinv : relay_inv init (fun _ => [])).
  { split; [|done]. intros c' x'. done. }
  apply relay_inv_run with (evs := evs) in Hinv.
  destruct Hinv as [H1 _]. destruct (H1 c x Hx) as (Ha & Hb & Hc). simpl in Ha.
  split; [done|]. split; [|split; [|split]].
  - intros Hr. rewrite (Hb Hr) in *. done.
  - intros Hr. rewrite (Hc Hr) in *. rewrite app_nil_r in Ha. done.
  - intros msg buf Hr Ht.
    destruct (send_enqueues _ _ _ _ _ Ht Hx Hr) as (x' & Hx' & Hq & Hs & Hr').
    exists x'. rewrite Hq, Hs, (Hb Hr) in *. simpl in Ha. by rewrite Ha.
  - destruct (open_flushes _ _ _ Hx) as (x' & Hx' & Hs & Hq & Hr').
    exists x'. by rewrite Hs, Ha.
Qed.

(** F1, F2, F3 are sent before the socket of participant "ana" opens. *)
Lemma relay_queue_fifo_witness :
  let open_ := Message (Some 7%Z) "ana" "ws://backend" NotABuffer 0 in
  let send b := PORT "AUDIO_WS_SEND" (Message (Some 7%Z) "ana" "" (Buffer b) 0) false in
  let evs := [PORT "AUDIO_WS_OPEN" open_ true;
              send [1; 1]%Z; send [2; 2]%Z; send [3; 3]%Z; WS_OPEN 0] in
  let x := Conn "ws://backend" true [] 6 [[1; 1]; [2; 2]; [3; 3]]%Z false
                (ByParticipant 0 7 "ana") in
  conns (run init evs) !! 0 = Some x
  /\ accepted 0 init evs = [[1; 1]; [2; 2]; [3; 3]]%Z
  /\ ws_sent x ++ queue x = accepted 0 init evs.
Proof.
  intros open_ send evs x.
  assert (Hx : conns (run init evs) !! 0 = Some x) by (vm_compute; reflexivity).
  split; [exact Hx|]. split; [vm_compute; reflexivity|].
  exact (proj1 (relay_queue_fifo evs 0 x Hx)).
Defined.

(** C10.  A frame addressed to a tab and participant for which the relay holds
    no connection state leaves the relay as it is: nothing is sent, nothing
    is queued, no connection is made.  That is so once a close request has
    removed the state.  The offscreen script's [sendPCM] likewise does
    nothing while it has no socket. *)
Theorem send_without_state_discarded (st : state) (msg : message) (tab : Z)
    (created : bool) :
  tabId msg = Some tab ->
  participantId msg <> ""%string ->
  participant_state st tab (participantId msg) = None ->
  handlePortMessage st "AUDIO_WS_SEND" msg created = st
  /\ (let closed := handlePortMessage st "AUDIO_WS_CLOSE" msg created in
      handlePortMessage closed "AUDIO_WS_SEND" msg created = closed)
  /\ (forall ost buffer_, Offscreen.ws ost = None -> Offscreen.sendPCM ost buffer_ = ost).
Proof.
  intros Htab Hpid Hnone.
  assert (Hsend : forall st', participant_state st' tab (participantId msg) = None ->
                    handlePortMessage st' "AUDIO_WS_SEND" msg created = st').
  { intros st' Hst'. unfold handlePortMessage. simpl. unfold on_send, send_target.
    rewrite Htab. apply String.eqb_neq in Hpid. rewrite Hpid, Hst'.
    by destruct (normalize msg). }
  split; [by apply Hsend|]. split.
  - simpl. apply Hsend.
    unfold handlePortMessage. simpl. unfold on_close. rewrite Htab.
    apply String.eqb_neq in Hpid. rewrite Hpid. simpl.
    clear Hnone Hsend. unfold participant_state.
    destruct (__wsByTabAndParticipant st !! tab) as [pm|] eqn:Ept.
    2:{ by rewrite Ept. }
    destruct (participantMaps st !! pm) as [m|] eqn:Epm.
    2:{ by rewrite Ept, Epm. }
    set (st1 := match m !! participantId msg with Some _ => _ | None => _ end).
    assert (Hst1 : participantMaps st1 = participantMaps st
                   /\ __wsByTabAndParticipant st1 = __wsByTabAndParticipant st).
    { subst st1. destruct (m !! participantId msg) as [c|]; [|done].
      unfold update_conn. by destruct (conns st !! c). }
    destruct Hst1 as [Hm Hb]. simpl. rewrite Hm, Hb.
    destruct (decide (delete (participantId msg) m = ∅)).
    + by rewrite lookup_delete_eq.
    + rewrite Ept, list_lookup_insert_eq by (by eapply lookup_lt_Some).
      by rewrite lookup_delete_eq.
  - intros ost buffer_ Hws. unfold Offscreen.sendPCM. by rewrite Hws.
Qed.

(** No connection was ever opened for tab 7 and participant "ana". *)
Lemma send_without_state_discarded_witness :
  handlePortMessage init "AUDIO_WS_SEND"
    (Message (Some 7%Z) "ana" "" (Buffer [1; 2]%Z) 2) false = init.
Proof.
  apply (send_without_state_discarded init
           (Message (Some 7%Z) "ana" "" (Buffer [1; 2]%Z) 2) 7 false);
    [reflexivity | discriminate | reflexivity].
Defined.

End RelayProperties.

(** ** Detector: what the label patterns extract *)

Section DetectorLabels.
Import Detector.
Local Open Scope Z_scope.

Lemma take_word_all_word s : all_word (take_word s) = true.
Proof.
  induction s as [|c s IH]; simpl; [done|].
  destruct (is_word c) eqn:E; simpl; [|done]. by rewrite E.
Qed.

Lemma match_here_all_word lit s w : match_here lit s = Some w -> all_word w = true.
Proof.
  unfold match_here. destruct (match_literal lit s) as [[|sep rest]|]; try done.
  destruct (_ || _); [|done].
  pose proof (take_word_all_word rest) as H.
  destruct (take_word rest); [done|]. by intros [= <-].
Qed.

Lemma regex_match_all_word lit s w : regex_match lit s = Some w -> all_word w = true.
Proof.
  induction s as [|c s IH]; simpl.
  - destruct (match_here lit "") eqn:E; [|done]. intros [= <-].
    by eapply match_here_all_word.
  - destruct (match_here lit (String c s)) eqn:E; [|done].
    intros [= <-]. by eapply match_here_all_word.
Qed.

(** X1.  Whatever [inspectTrackLabel] extracts from a track label is a
    non-empty run of word characters (letters, digits, underscore), and it
    extracts nothing from an empty label. *)
Theorem inspect_token_shape (trackLabel streamId w : string) :
  inspectTrackLabel trackLabel streamId = Some w ->
  w <> EmptyString /\ all_word w = true /\ trackLabel <> EmptyString.
Proof.
  intros H. split; [by eapply inspectTrackLabel_nonempty|]. split.
  - revert H. unfold inspectTrackLabel. destruct (String.eqb trackLabel ""); [done|].
    generalize patterns. intros pats. induction pats as [|p pats IH]; simpl; [done|].
    destruct (regex_match p trackLabel) eqn:E; [|done].
    intros [= <-]. by eapply regex_match_all_word.
  - intros ->. done.
Qed.

Lemma inspect_token_shape_witness :
  inspectTrackLabel "remote-audio-User_7x!" "s" = Some "7x"%string
  /\ all_word "7x" = true.
Proof.
  split; [reflexivity|].
  apply (inspect_token_shape "remote-audio-User_7x!" "s" "7x" eq_refl).
Defined.

Lemma match_literal_same lit : forall p rest,
  same_letters lit p = true -> match_literal lit (p +:+ rest) = Some rest.
Proof.
  induction lit as [|c lit IH]; intros p rest H; destruct p as [|d p]; simpl in *; try done.
  apply andb_true_iff in H as [H1 H2]. rewrite H1. by apply IH.
Qed.

Lemma take_word_app w r :
  all_word w = true -> word_ends r = true -> take_word (w +:+ r) = w.
Proof.
  intros Hw Hr. induction w as [|c w IH]; simpl in *.
  - destruct r as [|d r]; simpl in *; [done|].
    apply negb_true_iff in Hr. by rewrite Hr.
  - apply andb_true_iff in Hw as [H1 H2]. rewrite H1. f_equal. by apply IH.
Qed.

(** X2.  A label that starts with "participant" in any letter case, followed
    by [-] or [_] and a non-empty run of word characters that ends at the end
    of the label or at a non-word character, yields exactly that run. *)
Theorem inspect_participant_label (p w r streamId : string) (sep : ascii) :
  same_letters "participant" p = true ->
  sep = "-"%char \/ sep = "_"%char ->
  w <> EmptyString -> all_word w = true -> word_ends r = true ->
  inspectTrackLabel (p +:+ String sep (w +:+ r)) streamId = Some w.
Proof.
  intros Hp Hsep Hne Hw Hr. unfold inspectTrackLabel.
  destruct p as [|c p]; [done|]. simpl String.eqb.
  change (String c p +:+ String sep (w +:+ r)) with (String c (p +:+ String sep (w +:+ r))).
  cbn [String.eqb]. unfold patterns. cbn [first_match].
  assert (Hm : match_here "participant" (String c p +:+ String sep (w +:+ r)) = Some w).
  { unfold match_here. rewrite (match_literal_same _ _ _ Hp).
    assert (Hs : Ascii.eqb sep "_" || Ascii.eqb sep "-" = true)
      by (destruct Hsep as [-> | ->]; done).
    rewrite Hs, take_word_app by done. by destruct w. }
  change (String c (p +:+ String sep (w +:+ r))) with (String c p +:+ String sep (w +:+ r)).
  assert (Hr' : regex_match "participant" (String c p +:+ String sep (w +:+ r)) = Some w).
  { change (String c p +:+ String sep (w +:+ r)) with (String c (p +:+ String sep (w +:+ r))) in *.
    cbn [regex_match]. by rewrite Hm. }
  by rewrite Hr'.
Qed.

Lemma inspect_participant_label_witness :
  inspectTrackLabel "Participant_ab12 (audio)" "s" = Some "ab12"%string.
Proof.
  apply (inspect_participant_label "Participant" "ab12" " (audio)" "s" "_");
    [reflexivity | by right | discriminate | reflexivity | reflexivity].
Defined.

End DetectorLabels.

(** ** Detector: timing correlation and removal *)

Section JSMapLookup.
Context {V : Type}.
Implicit Types (m : JSMap.t V) (k : string) (v : V).

Lemma has_set_mono m k k' v : JSMap.has m k' = true -> JSMap.has (JSMap.set m k v) k' = true.
Proof.
  intros H. destruct (String.eqb k k') eqn:E.
  - apply String.eqb_eq in E as ->. apply has_set_eq.
  - apply String.eqb_neq in E. by rewrite has_set_ne.
Qed.

Lemma get_In m k v : JSMap.get m k = Some v -> In (k, v) m.
Proof.
  induction m as [|[k' v'] m IH]; simpl; [done|].
  destruct (String.eqb k' k) eqn:E.
  - apply String.eqb_eq in E as ->. intros [= ->]. by left.
  - intros H. right. by apply IH.
Qed.

Lemma count_key_In m k v : In (k, v) m -> 1 <= count_key k m.
Proof.
  induction m as [|[k' v'] m IH]; simpl; [done|].
  rewrite count_key_cons. intros [[= -> ->]|H].
  - rewrite String.eqb_refl. lia.
  - apply IH in H. lia.
Qed.

(** With unique keys, an entry of the list is what [get] finds. *)
Lemma In_get m k v : unique_keys m -> In (k, v) m -> JSMap.get m k = Some v.
Proof.
  intros Hu. induction m as [|[k' v'] m IH]; simpl; [done|].
  assert (Hu' : unique_keys m).
  { intros k0. specialize (Hu k0). rewrite count_key_cons in Hu. lia. }
  intros [[= -> ->]|H].
  - by rewrite String.eqb_refl.
  - destruct (String.eqb k' k) eqn:E; [|by apply IH].
    apply String.eqb_eq in E as ->. apply count_key_In in H.
    specialize (Hu k). rewrite count_key_cons, String.eqb_refl in Hu. lia.
Qed.

Lemma get_fold_delete (l : list (string * V)) k : forall m,
  JSMap.get (fold_left (fun m e => JSMap.delete m (fst e)) l m) k =
  if (count_key k l =? 0) then JSMap.get m k else None.
Proof.
  induction l as [|[k1 v1] l IH]; intros m; simpl; [done|].
  rewrite IH, count_key_cons.
  destruct (String.eqb k1 k) eqn:E; simpl.
  - apply String.eqb_eq in E as ->. rewrite get_delete_eq.
    by destruct (count_key k l =? 0).
  - apply String.eqb_neq in E. by rewrite get_delete_ne.
Qed.

Lemma lookup_fold_insert (l : list (string * V)) (x : string) k :
  forall (g : gmap string string),
  fold_left (fun g e => <[fst e := x]> g) l g !! k =
  if (count_key k l =? 0) then g !! k else Some x.
Proof.
  induction l as [|[k1 v1] l IH]; intros g; simpl; [done|].
  rewrite IH, count_key_cons.
  destruct (String.eqb k1 k) eqn:E; simpl.
  - apply String.eqb_eq in E as ->. rewrite lookup_insert_eq.
    by destruct (count_key k l =? 0).
  - apply String.eqb_neq in E. by rewrite lookup_insert_ne.
Qed.

Lemma count_key_filter_In m k v (f : string * V -> bool) :
  unique_keys m -> In (k, v) m ->
  count_key k (List.filter f m) = if f (k, v) then 1 else 0.
Proof.
  intros Hu. induction m as [|[k' v'] m IH]; simpl; [done|].
  assert (Hu' : unique_keys m).
  { intros k0. specialize (Hu k0). rewrite count_key_cons in Hu. lia. }
  intros [[= -> ->]|H].
  - assert (H0 : count_key k m = 0).
    { specialize (Hu k). rewrite count_key_cons, String.eqb_refl in Hu. lia. }
    pose proof (count_key_filter m k f) as Hle.
    destruct (f (k, v)); [rewrite count_key_cons, String.eqb_refl|]; lia.
  - assert (Hne : String.eqb k' k = false).
    { destruct (String.eqb k' k) eqn:E; [|done]. apply String.eqb_eq in E as ->.
      apply count_key_In in H. specialize (Hu k).
      rewrite count_key_cons, String.eqb_refl in Hu. lia. }
    destruct (f (k', v')); [rewrite count_key_cons, Hne|]; by apply IH.
Qed.

End JSMapLookup.

Section DetectorCorrelation.
Import Detector.
Local Open Scope Z_scope.

(** X3.  With no direct label match, a track is given to the first
    participant, in the insertion order of the registry, whose join time is
    less than 3000 ms from the track's timestamp; later participants inside the
    window are not considered, and one mapping message (not a fallback) is
    posted. *)
Theorem timing_first_in_order (st : state) (trackId trackLabel streamId pid : string)
    (timestamp_ now : Z) (info : participant)
    (before after : JSMap.t participant) :
  participantsRegistry st = before ++ (pid, info) :: after ->
  direct_match st trackLabel streamId = None ->
  (forall e, In e before -> 3000 <= Z.abs (timestamp_ - timestamp e.2)) ->
  Z.abs (timestamp_ - timestamp info) < 3000 ->
  on_track_added st trackId trackLabel streamId timestamp_ now =
    (State (participantsRegistry st) (<[trackId := pid]> (trackToParticipant st))
           (pendingTracks st) (timers st),
     [TRACK_PARTICIPANT_MAPPED trackId pid (name info) now false]).
Proof.
  intros Hreg Hdirect Hbefore Hin. unfold on_track_added. rewrite Hdirect.
  assert (Ht : timing_match st timestamp_ = Some (pid, info)).
  { unfold timing_match. rewrite Hreg. clear Hreg.
    induction before as [|e before IH]; simpl.
    - unfold in_window, TRACK_ASSIGNMENT_WINDOW_MS. simpl.
      apply Z.ltb_lt in Hin. by rewrite Hin.
    - assert (He : in_window timestamp_ (timestamp e.2) = false).
      { unfold in_window, TRACK_ASSIGNMENT_WINDOW_MS. apply Z.ltb_ge.
        apply Hbefore. by left. }
      rewrite He. apply IH. intros e' He'. apply Hbefore. by right. }
  by rewrite Ht.
Qed.

Lemma timing_first_in_order_witness :
  let a := Participant "a" (Some "Ana"%string) 1000 false in
  let b := Participant "b" (Some "Bo"%string) 3900 false in
  let st := State [("a"%string, a); ("b"%string, b)] ∅ [] [] in
  (on_track_added st "t1" "" "s1" 3950 3950).2 =
    [TRACK_PARTICIPANT_MAPPED "t1" "a" (Some "Ana"%string) 3950 false].
Proof.
  intros a b st.
  rewrite (timing_first_in_order st "t1" "" "s1" "a" 3950 3950 a [] [("b"%string, b)]);
    [reflexivity | reflexivity | reflexivity | intros e [] | simpl; lia].
Defined.

Lemma run_unique_pending evs : forall st,
  unique_keys (pendingTracks st) -> unique_keys (pendingTracks (run st evs).1).
Proof.
  induction evs as [|ev evs IH]; intros st Hu; simpl; [done|].
  pose proof (step_effect st ev "" Hu) as [Hu1 _].
  destruct (step st ev) as [st1 out1]. simpl in Hu1.
  specialize (IH st1 Hu1). by destruct (run st1 evs).
Qed.

(** X4.  When a participant not yet in the registry is seen, the join
    message is posted first and then one mapping, in the order the tracks were
    put on hold, for every pending track whose timestamp is within the window
    of the join time; exactly those tracks are mapped to the participant and
    leave the pending map, every other track keeps its state. *)
Theorem new_participant_takes_pending (evs : list event) (info : participant) (now : Z) :
  let st := (run init evs).1 in
  let pid := participantId info in
  let inside (p : pending) := in_window (p_timestamp p) (timestamp info) in
  JSMap.has (participantsRegistry st) pid = false ->
  let r := participant_seen st info now in
  r.2 = MEET_PARTICIPANT_JOINED pid (name info) (timestamp info)
        :: map (fun e => TRACK_PARTICIPANT_MAPPED e.1 pid (name info) now false)
               (List.filter (fun e => inside e.2) (pendingTracks st))
  /\ JSMap.get (participantsRegistry r.1) pid = Some info
  /\ (forall t p, JSMap.get (pendingTracks st) t = Some p ->
        if inside p
        then trackToParticipant r.1 !! t = Some pid
             /\ JSMap.has (pendingTracks r.1) t = false
        else JSMap.get (pendingTracks r.1) t = Some p
             /\ trackToParticipant r.1 !! t = trackToParticipant st !! t)
  /\ (forall t, JSMap.get (pendingTracks st) t = None ->
        JSMap.get (pendingTracks r.1) t = None
        /\ trackToParticipant r.1 !! t = trackToParticipant st !! t).
Proof.
  intros st pid inside Hnew r.
  assert (Hu : unique_keys (pendingTracks st)).
  { apply run_unique_pending. intros k. cbv. lia. }
  subst r. unfold participant_seen. fold pid. rewrite Hnew.
  unfold assignPendingTracks. cbn [fst snd participantsRegistry pendingTracks
    trackToParticipant timers].
  assert (Hname : name_of (JSMap.set (participantsRegistry st) pid info) pid = name info).
  { unfold name_of. by rewrite get_set_eq. }
  rewrite Hname.
  split; [done|]. split; [apply get_set_eq|]. split.
  - intros t p Hget. pose proof (get_In _ _ _ Hget) as HIn.
    pose proof (count_key_filter_In (pendingTracks st) t p
                  (fun e => in_window (p_timestamp e.2) (timestamp info)) Hu HIn) as Hc.
    simpl in Hc. fold (inside p) in Hc.
    rewrite lookup_fold_insert. unfold JSMap.has. rewrite get_fold_delete, Hc.
    destruct (inside p); simpl; [done|]. by rewrite Hget.
  - intros t Hget.
    assert (Hc : count_key t (List.filter
                  (fun e => in_window (p_timestamp e.2) (timestamp info))
                  (pendingTracks st)) = 0%nat).
    { pose proof (count_key_filter (pendingTracks st) t
                    (fun e => in_window (p_timestamp e.2) (timestamp info))) as Hle.
      assert (H0 : count_key t (pendingTracks st) = 0%nat); [|lia].
      apply count_key_has_false. unfold JSMap.has. by rewrite Hget. }
    rewrite lookup_fold_insert, get_fold_delete, Hc. simpl. by rewrite Hget.
Qed.

Lemma new_participant_takes_pending_witness :
  let evs := [WEBRTC_TRACK_ADDED "t1" "" "s1" 1000 1000;
              WEBRTC_TRACK_ADDED "t2" "" "s2" 9000 9000] in
  let info := Participant "ana" (Some "Ana"%string) 2000 false in
  (participant_seen (run init evs).1 info 2001).2 =
    [MEET_PARTICIPANT_JOINED "ana" (Some "Ana"%string) 2000;
     TRACK_PARTICIPANT_MAPPED "t1" "ana" (Some "Ana"%string) 2001 false].
Proof.
  intros evs info.
  destruct (new_participant_takes_pending evs info 2001 eq_refl) as (H & _).
  rewrite H. reflexivity.
Defined.

(** X5.  After [WEBRTC_TRACK_REMOVED] a track is no longer pending, and as
    long as it is not announced again no later event maps it: the fallback
    timer armed for it finds nothing to do. *)
Theorem removed_track_is_not_mapped (before after : list event) (t : string) :
  additions_of t after = 0%nat ->
  let st := (step (run init before).1 (WEBRTC_TRACK_REMOVED t)).1 in
  JSMap.has (pendingTracks st) t = false
  /\ mappings_of t (run st after).2 = 0%nat.
Proof.
  intros Hadd st.
  assert (Hu0 : unique_keys (pendingTracks (run init before).1)).
  { apply run_unique_pending. intros k. cbv. lia. }
  assert (Hp : JSMap.has (pendingTracks st) t = false) by apply has_delete_eq.
  assert (Hu : unique_keys (pendingTracks st)) by (by apply unique_keys_delete).
  split; [done|].
  pose proof (run_effect after t st Hu) as H.
  assert (H0 : pend st t = 0%nat) by (by apply count_key_has_false).
  lia.
Qed.

Lemma removed_track_is_not_mapped_witness :
  (run init [WEBRTC_TRACK_ADDED "t1" "" "s1" 1000 1000;
             WEBRTC_TRACK_REMOVED "t1";
             TIMEOUT 0 4000]).2 = []
  /\ mappings_of "t1"
       (run (step (run init [WEBRTC_TRACK_ADDED "t1" "" "s1" 1000 1000]).1
                  (WEBRTC_TRACK_REMOVED "t1")).1 [TIMEOUT 0 4000]).2 = 0%nat.
Proof.
  split; [reflexivity|].
  apply (removed_track_is_not_mapped [WEBRTC_TRACK_ADDED "t1" "" "s1" 1000 1000]
           [TIMEOUT 0 4000] "t1" eq_refl).
Defined.

End DetectorCorrelation.

(** ** Detector and supervisor: registries over a run *)

Section JSMapMembership.
Context {V : Type}.
Implicit Types (m : JSMap.t V) (k : string) (v : V).

Lemma In_has m k v : In (k, v) m -> JSMap.has m k = true.
Proof.
  intros H. apply count_key_In in H. rewrite has_count.
  destruct (count_key k m =? 0) eqn:E; [|done]. apply Nat.eqb_eq in E. lia.
Qed.

Lemma In_set m k v k' v' :
  In (k', v') (JSMap.set m k v) -> (k', v') = (k, v) \/ In (k', v') m.
Proof.
  induction m as [|[k1 v1] m IH]; simpl.
  - intros [H|[]]. by left.
  - destruct (String.eqb k1 k); simpl.
    + intros [H|H]; [by left | right; by right].
    + intros [H|H]; [right; by left|]. destruct (IH H); [by left | right; by right].
Qed.

Lemma In_delete m k k' v' : In (k', v') (JSMap.delete m k) -> In (k', v') m.
Proof.
  induction m as [|[k1 v1] m IH]; simpl; [done|].
  destruct (String.eqb k1 k); simpl.
  - intros H. right. by apply IH.
  - intros [H|H]; [by left | right; by apply IH].
Qed.

Lemma delete_absent m k : count_key k m = 0 -> JSMap.delete m k = m.
Proof.
  induction m as [|[k1 v1] m IH]; simpl; [done|].
  rewrite count_key_cons. destruct (String.eqb k1 k); [lia|].
  intros H. f_equal. apply IH. lia.
Qed.

Lemma count_key_app m1 m2 k : count_key k (m1 ++ m2) = count_key k m1 + count_key k m2.
Proof. unfold count_key. by rewrite List.filter_app, length_app. Qed.

Lemma delete_middle (m1 m2 : JSMap.t V) k v :
  unique_keys (m1 ++ (k, v) :: m2) -> JSMap.delete (m1 ++ (k, v) :: m2) k = m1 ++ m2.
Proof.
  intros Hu. specialize (Hu k).
  rewrite count_key_app, count_key_cons, String.eqb_refl in Hu.
  induction m1 as [|[k1 v1] m1 IH]; simpl.
  - rewrite String.eqb_refl. apply delete_absent. simpl in Hu. lia.
  - simpl in Hu. rewrite count_key_cons in Hu.
    destruct (String.eqb k1 k); [lia|]. f_equal. apply IH. lia.
Qed.

End JSMapMembership.

Section DetectorInvariant.
Import Detector.
Local Open Scope Z_scope.

Lemma step_registered st ev :
  mapping_registered st ->
  mapping_registered (step st ev).1
  /\ Forall (names_registered (participantsRegistry (step st ev).1)) (step st ev).2
  /\ (forall pid, JSMap.has (participantsRegistry st) pid = true ->
                  JSMap.has (participantsRegistry (step st ev).1) pid = true).
Proof.
  intros Hinv.
  destruct ev as [trackId trackLabel streamId ts now|trackId|info now|n now];
    unfold step.
  - unfold on_track_added.
    destruct (direct_match st trackLabel streamId) as [pid|] eqn:Ed.
    { assert (Hpid : JSMap.has (participantsRegistry st) pid = true).
      { unfold direct_match in Ed. destruct (inspectTrackLabel _ _) as [w|]; [|done].
        destruct (negb _ && JSMap.has _ w) eqn:E; [|done]. injection Ed as <-.
        by apply andb_true_iff in E as [_ E]. }
      cbn [fst snd trackToParticipant participantsRegistry].
      split; [|split; [by repeat constructor|done]].
      unfold mapping_registered. cbn [trackToParticipant participantsRegistry].
      intros t p. destruct (decide (trackId = t)) as [<-|Hne].
      - rewrite lookup_insert_eq. by intros [= <-].
      - rewrite lookup_insert_ne by done. apply Hinv. }
    destruct (timing_match st ts) as [[pid info]|] eqn:Et.
    { assert (Hpid : JSMap.has (participantsRegistry st) pid = true).
      { unfold timing_match in Et. apply find_some in Et as [Hin _]. by eapply In_has. }
      cbn [fst snd trackToParticipant participantsRegistry].
      split; [|split; [by repeat constructor|done]].
      unfold mapping_registered. cbn [trackToParticipant participantsRegistry].
      intros t p. destruct (decide (trackId = t)) as [<-|Hne].
      - rewrite lookup_insert_eq. by intros [= <-].
      - rewrite lookup_insert_ne by done. apply Hinv. }
    cbn [fst snd trackToParticipant participantsRegistry].
    split; [done|]. split; [constructor|done].
  - unfold on_track_removed. cbn [fst snd trackToParticipant participantsRegistry].
    split; [|split; [constructor|done]].
    unfold mapping_registered. cbn [trackToParticipant participantsRegistry].
      intros t p. destruct (trackToParticipant st !! trackId) as [pid|]; [|apply Hinv].
    destruct (String.eqb pid ""); [apply Hinv|].
    destruct (decide (trackId = t)) as [<-|Hne].
    + by rewrite lookup_delete_eq.
    + rewrite lookup_delete_ne by done. apply Hinv.
  - unfold participant_seen.
    destruct (JSMap.has (participantsRegistry st) (participantId info)) eqn:Eh.
    { cbn [fst snd]. split; [done|]. split; [constructor|done]. }
    unfold assignPendingTracks.
    cbn [fst snd trackToParticipant participantsRegistry pendingTracks timers].
    assert (Hpid : JSMap.has (JSMap.set (participantsRegistry st) (participantId info) info)
                     (participantId info) = true) by apply has_set_eq.
    split; [|split].
    + unfold mapping_registered. cbn [trackToParticipant participantsRegistry].
      intros t p. rewrite lookup_fold_insert.
      destruct (count_key t _ =? 0)%nat.
      * intros H. apply has_set_mono. by eapply Hinv.
      * by intros [= <-].
    + constructor; [done|]. apply Forall_forall. intros p Hp.
      apply list_elem_of_In, in_map_iff in Hp as (e & <- & _). done.
    + intros pid. apply has_set_mono.
  - destruct (timers st !! n) as [tm|]; [|by (split; [|split; [constructor|]])].
    destruct (now <? t_due tm); [by (split; [|split; [constructor|]])|].
    unfold on_timeout. cbn [pendingTracks participantsRegistry trackToParticipant timers].
    destruct (JSMap.has (pendingTracks st) (t_trackId tm));
      [|by (split; [|split; [constructor|]])].
    set (registry := if JSMap.has _ _ then _ else _).
    assert (Hmono : forall pid, JSMap.has (participantsRegistry st) pid = true ->
                                JSMap.has registry pid = true).
    { intros pid H. subst registry.
      destruct (JSMap.has (participantsRegistry st) (t_fallbackId tm)); [done|].
      by apply has_set_mono. }
    assert (Hfb : JSMap.has registry (t_fallbackId tm) = true).
    { subst registry.
      destruct (JSMap.has (participantsRegistry st) (t_fallbackId tm)) eqn:E; [done|].
      apply has_set_eq. }
    cbn [fst snd trackToParticipant participantsRegistry].
    split; [|split; [by repeat constructor|done]].
    unfold mapping_registered. cbn [trackToParticipant participantsRegistry].
      intros t p. destruct (decide (t_trackId tm = t)) as [<-|Hne].
    + rewrite lookup_insert_eq. by intros [= <-].
    + rewrite lookup_insert_ne by done. intros H. apply Hmono. by eapply Hinv.
Qed.

Lemma names_registered_mono r r' p :
  (forall pid, JSMap.has r pid = true -> JSMap.has r' pid = true) ->
  names_registered r p -> names_registered r' p.
Proof. intros H. destruct p; simpl; apply H. Qed.

Lemma run_registered evs : forall st,
  mapping_registered st ->
  mapping_registered (run st evs).1
  /\ Forall (names_registered (participantsRegistry (run st evs).1)) (run st evs).2
  /\ (forall pid, JSMap.has (participantsRegistry st) pid = true ->
                  JSMap.has (participantsRegistry (run st evs).1) pid = true).
Proof.
  induction evs as [|ev evs IH]; intros st Hinv; simpl.
  - split; [done|]. split; [constructor|done].
  - destruct (step_registered st ev Hinv) as (H1 & H2 & H3).
    destruct (step st ev) as [st1 out1]. simpl in *.
    destruct (IH st1 H1) as (I1 & I2 & I3).
    destruct (run st1 evs) as [st2 out2]. simpl in *.
    split; [done|]. split; [|by auto].
    apply Forall_app. split; [|done].
    eapply Forall_impl; [exact H2|]. intros p. by apply names_registered_mono.
Qed.

(** X6.  Over every run of the detector, each track in [trackToParticipant]
    is mapped to a participant present in the registry at the end of the run,
    and every posted message names such a participant. *)
Theorem mapped_participants_registered (evs : list event) :
  let st := (run init evs).1 in
  (forall t pid, trackToParticipant st !! t = Some pid ->
                 JSMap.has (participantsRegistry st) pid = true)
  /\ Forall (names_registered (participantsRegistry st)) (run init evs).2.
Proof.
  assert (H0 : mapping_registered init) by (intros t pid; done).
  destruct (run_registered evs init H0) as (H1 & H2 & _). by split.
Qed.

Lemma mapped_participants_registered_witness :
  let evs := [WEBRTC_TRACK_ADDED "t1" "" "s1" 1000 1000; TIMEOUT 0 4000] in
  trackToParticipant (run init evs).1 !! "t1" = Some "participant-t1"%string
  /\ JSMap.has (participantsRegistry (run init evs).1) "participant-t1" = true.
Proof.
  intros evs. split; [reflexivity|].
  apply (proj1 (mapped_participants_registered evs) "t1" "participant-t1"). reflexivity.
Defined.

End DetectorInvariant.

Section SupervisorLifecycle.
Import Supervisor.

Lemma step_keyed st ev :
  keyed_by_id (audioProcessors st) -> keyed_by_id (audioProcessors (step st ev).1).
Proof.
  intros Hk.
  destruct ev as [registry trackId pid pname acquired|trackId|tab mid url registry now|];
    unfold step.
  - unfold on_mapped. destruct registry as [registry|]; [|done].
    destruct (JSMap.get registry trackId) as [info|]; [|done].
    unfold handleRemoteTrack. destruct (JSMap.has (audioProcessors st) pid); [done|].
    pose proof (start_keeps_track st
      (new_processor pid pname (ti_track info) DEFAULT_SAMPLE_RATE) acquired) as [_ Hid].
    destruct (start st _ acquired) as [p' out]. simpl in *.
    intros k p Hin. apply In_set in Hin as [[= -> ->]|Hin]; [done|by apply Hk].
  - unfold on_removed. destruct (List.find _ _) as [[pid p]|]; [|done].
    simpl. intros k p' Hin. apply In_delete in Hin. by apply Hk.
  - done.
  - intros k p [].
Qed.

Lemma run_keyed evs : forall st,
  keyed_by_id (audioProcessors st) -> keyed_by_id (audioProcessors (run st evs).1).
Proof.
  induction evs as [|ev evs IH]; intros st Hk; simpl; [done|].
  pose proof (step_keyed st ev Hk) as Hk1.
  destruct (step st ev) as [st1 out1]. simpl in Hk1.
  specialize (IH st1 Hk1). by destruct (run st1 evs).
Qed.

(** X7.  [AUDIO_CAPTURE_STOP_MULTITRACK] empties [audioProcessors] and posts
    one [AUDIO_WS_CLOSE] per processor, in insertion order, each under the
    participant id its processor is filed under: a participant has a close
    message exactly when it had a processor. *)
Theorem global_stop_closes_all (evs : list event) :
  let st := (run init evs).1 in
  let r := on_stop_all st in
  audioProcessors r.1 = []
  /\ r.2 = map (fun k => AUDIO_WS_CLOSE (_tabId st) k) (JSMap.keys (audioProcessors st))
  /\ (forall k, count_key k (audioProcessors st) <= 1)
  /\ (forall k, JSMap.has (audioProcessors st) k = true <->
                In (AUDIO_WS_CLOSE (_tabId st) k) r.2).
Proof.
  intros st r.
  assert (Hk : keyed_by_id (audioProcessors st)) by (apply run_keyed; intros k p []).
  assert (Hu : unique_keys (audioProcessors st)).
  { apply run_unique_keys. intros k. cbv. lia. }
  assert (Hout : r.2 = map (fun k => AUDIO_WS_CLOSE (_tabId st) k)
                           (JSMap.keys (audioProcessors st))).
  { subst r. unfold on_stop_all. simpl. unfold JSMap.keys.
    revert Hk. generalize (audioProcessors st) as m.
    induction m as [|[k p] m IH]; intros Hk; simpl; [done|].
    rewrite (Hk k p) by (by left). f_equal. apply IH.
    intros k' p' Hin. apply Hk. by right. }
  split; [done|]. split; [done|]. split; [done|].
  intros k. rewrite Hout, in_map_iff. unfold JSMap.keys. split.
  - intros Hhas. exists k. split; [done|].
    unfold JSMap.has in Hhas. destruct (JSMap.get (audioProcessors st) k) as [p|] eqn:E; [|done].
    apply get_In in E. apply in_map_iff. by exists (k, p).
  - intros (k' & [= ->] & Hin). apply in_map_iff in Hin as ([k1 p] & Hk1 & Hin).
    simpl in Hk1. subst k1. by eapply In_has.
Qed.

Lemma global_stop_closes_all_witness :
  let a := Track "t1" "audio" "" in
  let registry := [("t1"%string, TrackInfo "t1" a "s1" "pc" 1000)] in
  let evs := [AUDIO_CAPTURE_START_MULTITRACK (Some 7%Z) "room" "ws://backend" None 0%Z;
              TRACK_PARTICIPANT_MAPPED (Some registry) "t1" "42" "Ana" true] in
  (on_stop_all (run init evs).1).2 = [AUDIO_WS_CLOSE (Some 7%Z) "42"].
Proof.
  intros a registry evs.
  destruct (global_stop_closes_all evs) as (_ & H & _). rewrite H. reflexivity.
Defined.

(** X8.  [WEBRTC_TRACK_REMOVED] stops the first processor (in insertion
    order) bound to the removed track: it posts [AUDIO_WS_CLOSE] for that
    participant, removes that entry only, and the participant has no processor
    afterwards. *)
Theorem removal_stops_bound_processor (evs : list event) (t pid : string)
    (p : ParticipantAudioProcessor)
    (before after : JSMap.t ParticipantAudioProcessor) :
  let st := (run init evs).1 in
  audioProcessors st = before ++ (pid, p) :: after ->
  (forall e, In e before -> id (p_track e.2) <> t) ->
  id (p_track p) = t ->
  on_removed st t =
    (State (_tabId st) (_meetingId st) (_wsBaseUrl st) (before ++ after),
     [AUDIO_WS_CLOSE (_tabId st) pid])
  /\ JSMap.has (before ++ after) pid = false.
Proof.
  intros st Haps Hbefore Hp.
  assert (Hk : keyed_by_id (audioProcessors st)) by (apply run_keyed; intros k q []).
  assert (Hu : unique_keys (audioProcessors st)).
  { apply run_unique_keys. intros k. cbv. lia. }
  assert (Hid : participantId p = pid).
  { apply Hk. rewrite Haps. apply in_or_app. right. by left. }
  assert (Hfind : List.find (fun e => String.eqb (id (p_track e.2)) t) (audioProcessors st)
                  = Some (pid, p)).
  { rewrite Haps. clear Haps Hk Hu. induction before as [|e before IH]; simpl.
    - by rewrite Hp, String.eqb_refl.
    - assert (He : String.eqb (id (p_track e.2)) t = false).
      { apply String.eqb_neq. apply Hbefore. by left. }
      rewrite He. apply IH. intros e' He'. apply Hbefore. by right. }
  unfold on_removed. rewrite Hfind. simpl. rewrite Hid.
  rewrite Haps in Hu |- *. rewrite (delete_middle before after pid p Hu).
  split; [done|].
  rewrite has_count.
  specialize (Hu pid). rewrite count_key_app, count_key_cons, String.eqb_refl in Hu.
  rewrite count_key_app.
  assert (H0 : count_key pid before + count_key pid after = 0) by lia.
  by rewrite H0.
Qed.

Lemma removal_stops_bound_processor_witness :
  let a := Track "t1" "audio" "" in
  let registry := [("t1"%string, TrackInfo "t1" a "s1" "pc" 1000)] in
  let st := (run init [TRACK_PARTICIPANT_MAPPED (Some registry) "t1" "42" "Ana" true]).1 in
  on_removed st "t1" = (init, [AUDIO_WS_CLOSE None "42"]).
Proof.
  intros a registry st.
  destruct (removal_stops_bound_processor
              [TRACK_PARTICIPANT_MAPPED (Some registry) "t1" "42" "Ana" true] "t1" "42"
              (Processor "42" "Ana" a DEFAULT_SAMPLE_RATE Codec.new_buffers true) [] []
              eq_refl ltac:(intros e []) eq_refl) as [H _].
  exact H.
Defined.

Lemma unbound_removal_is_ignored st t :
  (forall e, In e (audioProcessors st) -> id (p_track e.2) <> t) ->
  on_removed st t = (st, []).
Proof.
  intros H. unfold on_removed.
  destruct (List.find _ _) as [[pid p]|] eqn:E; [|done].
  apply find_some in E as [Hin Heq]. apply String.eqb_eq in Heq.
  by apply H in Hin.
Qed.

Lemma step_open_complete st ev : Forall open_is_complete (step st ev).2.
Proof.
  destruct ev as [registry trackId pid pname acquired|trackId|tab mid url registry now|];
    unfold step.
  - unfold on_mapped. destruct registry as [registry|]; [|constructor].
    destruct (JSMap.get registry trackId) as [info|]; [|constructor].
    unfold handleRemoteTrack. destruct (JSMap.has (audioProcessors st) pid); [constructor|].
    unfold start, new_processor. simpl. destruct acquired; simpl.
    + unfold openWebSocket. simpl.
      destruct (String.eqb (_wsBaseUrl st) "") eqn:E1; [constructor|].
      destruct (String.eqb (_meetingId st) "") eqn:E2; [constructor|].
      simpl. repeat constructor; simpl; by apply String.eqb_neq.
    + by repeat constructor.
  - unfold on_removed. destruct (List.find _ _) as [[pid p]|]; [|constructor].
    simpl. by repeat constructor.
  - unfold on_start. simpl. destruct registry as [registry|]; [|constructor].
    apply Forall_forall. intros p Hp.
    apply list_elem_of_In, in_map_iff in Hp as (e & <- & _). done.
  - unfold on_stop_all. simpl. apply Forall_forall. intros p Hp.
    apply list_elem_of_In, in_concat in Hp as (l & Hl & Hp).
    apply in_map_iff in Hl as (e & <- & _). simpl in Hp. by destruct Hp as [<-|[]].
Qed.

(** X9.  Every [AUDIO_WS_OPEN] the supervisor posts, from any state and over
    any run, names a non-empty backend and meeting, the participant it is
    posted for, and the default sample rate. *)
Theorem open_requests_are_complete (evs : list event) (st : state) :
  Forall open_is_complete (run st evs).2.
Proof.
  revert st. induction evs as [|ev evs IH]; intros st; simpl; [constructor|].
  pose proof (step_open_complete st ev) as H1.
  destruct (step st ev) as [st1 out1]. simpl in H1.
  specialize (IH st1). destruct (run st1 evs) as [st2 out2]. simpl in *.
  apply Forall_app. by split.
Qed.

Lemma open_requests_are_complete_witness :
  let a := Track "t1" "audio" "" in
  let registry := [("t1"%string, TrackInfo "t1" a "s1" "pc" 1000)] in
  let evs := [AUDIO_CAPTURE_START_MULTITRACK (Some 7%Z) "room" "ws://backend" None 0%Z;
              TRACK_PARTICIPANT_MAPPED (Some registry) "t1" "42" "Ana" true] in
  (run init evs).2 = [AUDIO_WS_OPEN (WsUrl "ws://backend" "room" "42" DEFAULT_SAMPLE_RATE)
                                    (Some 7%Z) "42"]
  /\ Forall open_is_complete (run init evs).2.
Proof.
  intros a registry evs. split; [reflexivity|].
  apply (open_requests_are_complete evs init).
Defined.

(** X10.  A mapping handled while the backend URL or the meeting id is still
    unset creates the processor and marks it running without posting
    [AUDIO_WS_OPEN]; since the participant then has a processor, no later
    mapping for it posts anything either, also once
    [AUDIO_CAPTURE_START_MULTITRACK] has set the globals. *)
Theorem mapping_before_setup_opens_nothing (st : state) (registry : JSMap.t trackInfo)
    (t pid pname : string) (info : trackInfo) :
  JSMap.get registry t = Some info ->
  JSMap.has (audioProcessors st) pid = false ->
  _wsBaseUrl st = EmptyString \/ _meetingId st = EmptyString ->
  let r := on_mapped st (Some registry) t pid pname true in
  r.2 = []
  /\ (exists p, JSMap.get (audioProcessors r.1) pid = Some p /\ isRunning p = true)
  /\ (forall registry' t' pname' acquired,
        on_mapped r.1 registry' t' pid pname' acquired = (r.1, []))
  /\ (forall tabId meetingId wsUrl replayed now registry' t' pname' acquired,
        let st' := (on_start r.1 tabId meetingId wsUrl replayed now).1 in
        on_mapped st' registry' t' pid pname' acquired = (st', [])).
Proof.
  intros Hget Hnew Hcfg r.
  set (p := Processor pid (if String.eqb pname "" then pid else pname) (ti_track info)
                      DEFAULT_SAMPLE_RATE Codec.new_buffers true).
  assert (Hr : r = (State (_tabId st) (_meetingId st) (_wsBaseUrl st)
                          (JSMap.set (audioProcessors st) pid p), [])).
  { subst r. unfold on_mapped. rewrite Hget. unfold handleRemoteTrack. rewrite Hnew.
    unfold start, new_processor. simpl.
    assert (Ho : forall q, openWebSocket st q = []).
    { intros q. unfold openWebSocket. destruct Hcfg as [-> | ->]; simpl; [done|].
      by rewrite orb_true_r. }
    by rewrite Ho. }
  rewrite Hr. cbn [fst snd audioProcessors]. split; [done|]. split; [|split].
  - exists p. split; [apply get_set_eq|done].
  - intros registry' t' pname' acquired. unfold on_mapped.
    destruct registry' as [registry'|]; [|done].
    destruct (JSMap.get registry' t'); [|done].
    unfold handleRemoteTrack. cbn [audioProcessors]. by rewrite has_set_eq.
  - intros tabId meetingId wsUrl replayed now registry' t' pname' acquired.
    unfold on_start. cbn [fst audioProcessors]. unfold on_mapped.
    destruct registry' as [registry'|]; [|done].
    destruct (JSMap.get registry' t'); [|done].
    unfold handleRemoteTrack. cbn [audioProcessors]. by rewrite has_set_eq.
Qed.

Lemma mapping_before_setup_opens_nothing_witness :
  let a := Track "t1" "audio" "" in
  let registry := [("t1"%string, TrackInfo "t1" a "s1" "pc" 1000)] in
  let r := on_mapped init (Some registry) "t1" "42" "Ana" true in
  r.2 = []
  /\ (step (step r.1 (AUDIO_CAPTURE_START_MULTITRACK (Some 7%Z) "room" "ws://backend"
                        None 0%Z)).1
           (TRACK_PARTICIPANT_MAPPED (Some registry) "t1" "42" "Ana" true)).2 = [].
Proof.
  intros a registry r.
  destruct (mapping_before_setup_opens_nothing init registry "t1" "42" "Ana"
              (TrackInfo "t1" a "s1" "pc" 1000) eq_refl eq_refl (or_introl eq_refl))
    as (H1 & _ & _ & H2).
  split; [exact H1|].
  exact (f_equal snd (H2 (Some 7%Z) "room" "ws://backend" None 0%Z
                         (Some registry) "t1" "Ana" true)).
Defined.

End SupervisorLifecycle.

(** ** Relay: the references between the maps and the connections *)

Section RelayReferences.
Import Relay.

(** Changing a connection in place, keeping its owner. *)
Lemma relay_wf_update st c f :
  (forall x, c_owner (f x) = c_owner x) ->
  relay_wf st -> relay_wf (update_conn st c f).
Proof.
  intros Hf (Ha & Hb & Hc & Hd & He).
  unfold update_conn. destruct (conns st !! c) as [x0|] eqn:E0; [|done].
  assert (Hl : forall c' x', <[c := f x0]> (conns st) !! c' = Some x' ->
                 exists x, conns st !! c' = Some x /\ c_owner x' = c_owner x).
  { intros c' x'. destruct (decide (c = c')) as [<-|Hne].
    - rewrite list_lookup_insert_eq by (by eapply lookup_lt_Some).
      intros [= <-]. exists x0. by rewrite Hf.
    - rewrite list_lookup_insert_ne by done. intros H. by exists x'. }
  assert (Hr : forall c' x, conns st !! c' = Some x ->
                 exists x', <[c := f x0]> (conns st) !! c' = Some x' /\ c_owner x' = c_owner x).
  { intros c' x H. destruct (decide (c = c')) as [<-|Hne].
    - rewrite list_lookup_insert_eq by (by eapply lookup_lt_Some).
      exists (f x0). rewrite Hf. split; [done|]. congruence.
    - rewrite list_lookup_insert_ne by done. by exists x. }
  repeat split; simpl.
  - done.
  - intros pm m pid c' Hm Hp. destruct (Hb pm m pid c' Hm Hp) as (x & tab & Hx & Ho).
    destruct (Hr c' x Hx) as (x' & Hx' & Ho'). exists x', tab. by rewrite Ho'.
  - destruct (Hl c0 x H) as (x1 & Hx1 & Ho). rewrite Ho in H0.
    by destruct (Hc c0 x1 pm tab pid Hx1 H0).
  - destruct (Hl c0 x H) as (x1 & Hx1 & Ho). rewrite Ho in H0.
    by destruct (Hc c0 x1 pm tab pid Hx1 H0).
  - intros tab c' Ht. destruct (Hd tab c' Ht) as (x & Hx & Ho).
    destruct (Hr c' x Hx) as (x' & Hx' & Ho'). exists x'. by rewrite Ho'.
  - done.
Qed.

Lemma relay_wf_close st c : relay_wf st -> relay_wf (update_conn st c close_ws).
Proof. by apply relay_wf_update. Qed.

(** Taking an entry out of a participant map, and perhaps a tab out of the
    global map. *)
Lemma relay_wf_unregister st pm m pid byTab' :
  relay_wf st ->
  participantMaps st !! pm = Some m ->
  (forall tab pm', byTab' !! tab = Some pm' ->
     __wsByTabAndParticipant st !! tab = Some pm') ->
  relay_wf (State (conns st) (<[pm := delete pid m]> (participantMaps st)) byTab'
                  (__wsByTab st) (keepAlive st)).
Proof.
  intros (Ha & Hb & Hc & Hd & He) Hm Hsub.
  assert (Hlen : pm < length (participantMaps st)) by (by eapply lookup_lt_Some).
  assert (Hsome : forall pm', is_Some (participantMaps st !! pm') ->
                    is_Some (<[pm := delete pid m]> (participantMaps st) !! pm')).
  { intros pm' [m' Hm']. destruct (decide (pm = pm')) as [<-|Hne].
    - rewrite list_lookup_insert_eq by done. by eexists.
    - rewrite list_lookup_insert_ne by done. by eexists. }
  repeat split; simpl.
  - intros tab pm' H. apply Hsome. eapply Ha. by apply Hsub.
  - intros pm' m' pid' c. destruct (decide (pm = pm')) as [<-|Hne].
    + rewrite list_lookup_insert_eq by done. intros [= <-] Hp.
      apply lookup_delete_Some in Hp as [_ Hp]. by eapply Hb.
    + rewrite list_lookup_insert_ne by done. apply Hb.
  - apply Hsome. by destruct (Hc c x pm0 tab pid0 H H0).
  - intros tab' Ht. destruct (Hc c x pm0 tab pid0 H H0) as [_ Hu]. apply Hu. by apply Hsub.
  - done.
  - intros t1 t2 pm' H1 H2. eapply He; by apply Hsub.
Qed.

Lemma relay_wf_closeWsForTab st tab : relay_wf st -> relay_wf (closeWsForTab st tab).
Proof.
  intros Hwf. unfold closeWsForTab.
  set (st1 := match __wsByTab st !! tab with Some c => _ | None => _ end).
  assert (Hwf1 : relay_wf st1).
  { subst st1. destruct (__wsByTab st !! tab); [by apply relay_wf_close|done]. }
  destruct Hwf1 as (Ha & Hb & Hc & Hd & He). repeat split; simpl; try done.
  - by destruct (Hc c x pm tab0 pid H H0).
  - by destruct (Hc c x pm tab0 pid H H0).
  - intros tab' c Ht. apply lookup_delete_Some in Ht as [_ Ht]. by apply Hd.
Qed.

Lemma relay_wf_participant_map_for st tab :
  relay_wf st ->
  relay_wf (participant_map_for st tab).1
  /\ __wsByTabAndParticipant (participant_map_for st tab).1 !! tab
     = Some (participant_map_for st tab).2
  /\ conns (participant_map_for st tab).1 = conns st.
Proof.
  intros (Ha & Hb & Hc & Hd & He). unfold participant_map_for.
  destruct (__wsByTabAndParticipant st !! tab) as [pm|] eqn:E; [done|].
  simpl. rewrite lookup_insert_eq. split; [|done].
  assert (Hfresh : forall tab', __wsByTabAndParticipant st !! tab' <>
                                Some (length (participantMaps st))).
  { intros tab' H. apply Ha in H as [m Hm]. apply lookup_lt_Some in Hm. lia. }
  repeat split; simpl.
  - intros tab' pm. destruct (decide (tab = tab')) as [<-|Hne].
    + rewrite lookup_insert_eq. intros [= <-].
      rewrite lookup_app_r by done. rewrite Nat.sub_diag. by eexists.
    + rewrite lookup_insert_ne by done. intros H. apply Ha in H as [m Hm].
      exists m. by apply lookup_app_l_Some.
  - intros pm m pid c Hm Hp. apply lookup_app_Some in Hm as [Hm|[Hge Hm]].
    + by eapply Hb.
    + apply list_lookup_singleton_Some in Hm as [_ <-]. done.
  - destruct (Hc c x pm tab0 pid H H0) as [[m Hm] _]. exists m. by apply lookup_app_l_Some.
  - intros tab'. destruct (Hc c x pm tab0 pid H H0) as [[m Hm] Hu].
    destruct (decide (tab = tab')) as [<-|Hne].
    + rewrite lookup_insert_eq. intros [= <-]. apply lookup_lt_Some in Hm. lia.
    + rewrite lookup_insert_ne by done. apply Hu.
  - done.
  - intros t1 t2 pm. destruct (decide (tab = t1)) as [<-|Hne1];
      destruct (decide (tab = t2)) as [<-|Hne2]; try done.
    + rewrite lookup_insert_eq, lookup_insert_ne by done. intros [= <-] H.
      by apply Hfresh in H.
    + rewrite lookup_insert_eq, lookup_insert_ne by done. intros H [= <-].
      by apply Hfresh in H.
    + rewrite !lookup_insert_ne by done. apply He.
Qed.

Lemma relay_wf_register_participant st pm tab pid url_ :
  relay_wf st ->
  __wsByTabAndParticipant st !! tab = Some pm ->
  relay_wf (register_participant st pm tab pid url_)
  /\ participant_state (register_participant st pm tab pid url_) tab pid
     = Some (length (conns st))
  /\ conns (register_participant st pm tab pid url_)
     = conns st ++ [new_conn url_ (ByParticipant pm tab pid)].
Proof.
  intros (Ha & Hb & Hc & Hd & He) Ht.
  destruct (Ha tab pm Ht) as [m Hm].
  assert (Hlen : pm < length (participantMaps st)) by (by eapply lookup_lt_Some).
  unfold register_participant. rewrite Hm. split; [|split; [|done]].
  2:{ unfold participant_state. simpl. rewrite Ht, list_lookup_insert_eq by done.
      by rewrite lookup_insert_eq. }
  assert (Hsome : forall pm', is_Some (participantMaps st !! pm') ->
            is_Some (<[pm := <[pid := length (conns st)]> m]> (participantMaps st) !! pm')).
  { intros pm' [m' Hm']. destruct (decide (pm = pm')) as [<-|Hne].
    - rewrite list_lookup_insert_eq by done. by eexists.
    - rewrite list_lookup_insert_ne by done. by eexists. }
  repeat split; simpl.
  - intros tab' pm' H. apply Hsome. by eapply Ha.
  - intros pm' m' pid' c. destruct (decide (pm = pm')) as [<-|Hne].
    + rewrite list_lookup_insert_eq by done. intros [= <-].
      destruct (decide (pid = pid')) as [<-|Hnp].
      * rewrite lookup_insert_eq. intros [= <-].
        eexists _, tab. rewrite lookup_app_r by done. rewrite Nat.sub_diag. done.
      * rewrite lookup_insert_ne by done. intros Hp.
        destruct (Hb pm m pid' c Hm Hp) as (x & tab' & Hx & Ho).
        exists x, tab'. split; [by apply lookup_app_l_Some|done].
    + rewrite list_lookup_insert_ne by done. intros Hm' Hp.
      destruct (Hb pm' m' pid' c Hm' Hp) as (x & tab' & Hx & Ho).
      exists x, tab'. split; [by apply lookup_app_l_Some|done].
  - apply Hsome. apply lookup_app_Some in H as [H|[Hge H]].
    + by destruct (Hc c x pm0 tab0 pid0 H H0).
    + apply list_lookup_singleton_Some in H as [_ <-]. injection H0 as <- <- <-. by eexists.
  - intros tab' Ht'. apply lookup_app_Some in H as [H|[Hge H]].
    + destruct (Hc c x pm0 tab0 pid0 H H0) as [_ Hu]. by apply Hu.
    + apply list_lookup_singleton_Some in H as [_ <-]. injection H0 as <- <- <-.
      by eapply He.
  - intros tab' c Ht'. destruct (Hd tab' c Ht') as (x & Hx & Ho).
    exists x. split; [by apply lookup_app_l_Some|done].
  - done.
Qed.

Lemma relay_wf_register_tab st tab url_ :
  relay_wf st -> relay_wf (register_tab st tab url_).
Proof.
  intros (Ha & Hb & Hc & Hd & He). unfold register_tab. repeat split; simpl; try done.
  - intros pm m pid c Hm Hp. destruct (Hb pm m pid c Hm Hp) as (x & tab' & Hx & Ho).
    exists x, tab'. split; [by apply lookup_app_l_Some|done].
  - apply lookup_app_Some in H as [H|[Hge H]].
    + by destruct (Hc c x pm tab0 pid H H0).
    + apply list_lookup_singleton_Some in H as [_ <-]. done.
  - apply lookup_app_Some in H as [H|[Hge H]].
    + by destruct (Hc c x pm tab0 pid H H0).
    + apply list_lookup_singleton_Some in H as [_ <-]. done.
  - intros tab' c. destruct (decide (tab = tab')) as [<-|Hne].
    + rewrite lookup_insert_eq. intros [= <-]. eexists.
      rewrite lookup_app_r by done. rewrite Nat.sub_diag. done.
    + rewrite lookup_insert_ne by done. intros Ht.
      destruct (Hd tab' c Ht) as (x & Hx & Ho).
      exists x. split; [by apply lookup_app_l_Some|done].
Qed.

Lemma relay_wf_close_existing st pm pid :
  relay_wf st -> relay_wf (close_existing st pm pid).
Proof.
  intros Hwf. unfold close_existing.
  destruct (participantMaps st !! pm) as [m|]; [|done].
  destruct (m !! pid); [by apply relay_wf_close|done].
Qed.

Lemma byTab_update_conn st c f :
  __wsByTabAndParticipant (update_conn st c f) = __wsByTabAndParticipant st
  /\ participantMaps (update_conn st c f) = participantMaps st
  /\ __wsByTab (update_conn st c f) = __wsByTab st.
Proof. unfold update_conn. by destruct (conns st !! c). Qed.

Lemma relay_wf_on_open st msg created : relay_wf st -> relay_wf (on_open st msg created).
Proof.
  intros Hwf. unfold on_open.
  destruct (negb (String.eqb (participantId msg) "")).
  - destruct (tabId msg) as [tab|]; [|done].
    destruct (String.eqb (url msg) ""); [done|].
    destruct (relay_wf_participant_map_for st tab Hwf) as (Hwf1 & Ht1 & _).
    destruct (participant_map_for st tab) as [st1 pm]. simpl in *.
    pose proof (relay_wf_close_existing st1 pm (participantId msg) Hwf1) as Hwf2.
    destruct created; [|done].
    apply relay_wf_register_participant; [done|].
    unfold close_existing. destruct (participantMaps st1 !! pm) as [m|]; [|done].
    destruct (m !! participantId msg); [|done].
    by destruct (byTab_update_conn st1 n close_ws) as (-> & _).
  - destruct (tabId msg) as [tab|]; [|done].
    destruct (String.eqb (url msg) ""); [done|].
    pose proof (relay_wf_closeWsForTab st tab Hwf).
    destruct created; [|done]. by apply relay_wf_register_tab.
Qed.

Lemma relay_wf_on_close st msg : relay_wf st -> relay_wf (on_close st msg).
Proof.
  intros Hwf. unfold on_close.
  destruct (tabId msg) as [tab|]; [|done].
  destruct (negb (String.eqb (participantId msg) "")); [|by apply relay_wf_closeWsForTab].
  destruct (__wsByTabAndParticipant st !! tab) as [pm|]; [|done].
  destruct (participantMaps st !! pm) as [m|] eqn:Em; [|done].
  set (st1 := match m !! participantId msg with Some c => _ | None => _ end).
  assert (Hwf1 : relay_wf st1).
  { subst st1. destruct (m !! participantId msg); [by apply relay_wf_close|done]. }
  assert (Hsame : __wsByTabAndParticipant st1 = __wsByTabAndParticipant st
                  /\ participantMaps st1 = participantMaps st
                  /\ __wsByTab st1 = __wsByTab st).
  { subst st1. destruct (m !! participantId msg); [apply byTab_update_conn|done]. }
  destruct Hsame as (Hb1 & Hm1 & Ht1).
  apply (relay_wf_unregister st1 pm m (participantId msg)); [done|by rewrite Hm1|].
  intros tab' pm'. destruct (decide _); [|done].
  intros H. by apply lookup_delete_Some in H as [_ H].
Qed.

Lemma relay_wf_settle st : relay_wf st -> relay_wf (settle_keepAlive st).
Proof. done. Qed.

Lemma relay_wf_step st ev : relay_wf st -> relay_wf (step st ev).
Proof.
  intros Hwf. destruct ev as [type msg created|c|c|c]; simpl.
  - unfold handlePortMessage.
    destruct (String.eqb type "AUDIO_WS_OPEN"); [by apply relay_wf_on_open|].
    destruct (String.eqb type "AUDIO_WS_SEND").
    { unfold on_send. destruct (send_target st msg) as [[c buf]|]; [|done].
      apply relay_wf_update; [|done]. intros x. by destruct (ready x). }
    destruct (String.eqb type "AUDIO_WS_CLOSE"); [by apply relay_wf_on_close|done].
  - unfold ws_onopen. destruct (conns st !! c) as [x|] eqn:Ex; [|done].
    pose proof (relay_wf_update st c (fun x => Conn (c_url x) true [] (_byteCounter x)
                  (ws_sent x ++ queue x) (ws_closed x) (c_owner x))
                  ltac:(done) Hwf) as H.
    destruct H as (Ha & Hb & Hc & Hd & He). repeat split; simpl; try done.
    + by destruct (Hc c0 x0 pm tab pid H H0).
    + by destruct (Hc c0 x0 pm tab pid H H0).
  - done.
  - unfold ws_onclose. destruct (conns st !! c) as [x|] eqn:Ex; [|done].
    destruct (c_owner x) as [pm tab pid|tab] eqn:Eo.
    + destruct (participantMaps st !! pm) as [m|] eqn:Em; [|done].
      apply relay_wf_settle.
      apply (relay_wf_unregister st pm m pid); [done|done|].
      intros tab' pm'. destruct (decide _); [|done].
      intros H. by apply lookup_delete_Some in H as [_ H].
    + apply relay_wf_settle.
      destruct Hwf as (Ha & Hb & Hc & Hd & He). repeat split; simpl; try done.
      * by destruct (Hc c0 x0 pm tab0 pid H H0).
      * by destruct (Hc c0 x0 pm tab0 pid H H0).
      * intros tab' c' Ht. apply lookup_delete_Some in Ht as [_ Ht]. by apply Hd.
Qed.

Lemma relay_wf_run evs : forall st, relay_wf st -> relay_wf (run st evs).
Proof.
  induction evs as [|ev evs IH]; intros st Hwf; [done|].
  simpl. apply IH. by apply relay_wf_step.
Qed.

Lemma relay_wf_init : relay_wf init.
Proof. repeat split; intros; simpl in *; done. Qed.

End RelayReferences.

(** ** Relay: delivery, reopening and closing *)

Section RelayConnections.
Import Relay.

(** X11.  After any run of the relay, the state object an [AUDIO_WS_SEND]
    message reaches was created for the tab of the message and, in participant
    mode, for its participant: audio is never delivered to another
    participant's or another tab's socket. *)
Theorem frames_reach_their_own_connection (evs : list event) (msg : message)
    (c : nat) (buf : list Z) :
  send_target (run init evs) msg = Some (c, buf) ->
  exists x tab,
    conns (run init evs) !! c = Some x
    /\ tabId msg = Some tab
    /\ normalize msg = Some buf
    /\ (if String.eqb (participantId msg) ""
        then c_owner x = ByTab tab
        else exists pm, c_owner x = ByParticipant pm tab (participantId msg)).
Proof.
  intros Ht.
  pose proof (relay_wf_run evs init relay_wf_init) as (Ha & Hb & Hc & Hd & He).
  unfold send_target in Ht.
  destruct (tabId msg) as [tab|]; [|done].
  destruct (normalize msg) as [buf'|]; [|done].
  destruct (String.eqb (participantId msg) "") eqn:Epid.
  - destruct (__wsByTab (run init evs) !! tab) as [c'|] eqn:Et; [|done].
    destruct (Hd tab c' Et) as (x & Hx & Ho). rewrite Hx in Ht. injection Ht as <- <-.
    by exists x, tab.
  - unfold participant_state in Ht.
    destruct (__wsByTabAndParticipant (run init evs) !! tab) as [pm|] eqn:Et; [|done].
    destruct (participantMaps (run init evs) !! pm) as [m|] eqn:Em; [|done].
    destruct (m !! participantId msg) as [c'|] eqn:Ep; [|done].
    destruct (Hb pm m _ c' Em Ep) as (x & tab' & Hx & Ho).
    rewrite Hx in Ht. injection Ht as <- <-.
    destruct (Hc c' x pm tab' _ Hx Ho) as [_ Hu]. pose proof (Hu tab Et) as Heq. subst tab'.
    exists x, tab. repeat split; try done. by exists pm.
Qed.

Lemma frames_reach_their_own_connection_witness :
  let open_ p := PORT "AUDIO_WS_OPEN" (Message (Some 7%Z) p "ws://backend" NotABuffer 0) true in
  let evs := [open_ "ana"%string; open_ "bo"%string] in
  let msg := Message (Some 7%Z) "bo" "" (Buffer [1; 2]%Z) 0 in
  exists x, conns (run init evs) !! 1 = Some x
            /\ c_owner x = ByParticipant 0 7 "bo".
Proof.
  intros open_ evs msg.
  destruct (frames_reach_their_own_connection evs msg 1 [1; 2]%Z eq_refl)
    as (x & tab & Hx & Htab & _ & pm & Ho).
  exists x. split; [done|].
  vm_compute in Hx. injection Hx as <-. reflexivity.
Defined.

(** X12.  [AUDIO_WS_CLOSE] is idempotent: handling the same close message a
    second time changes nothing. *)
Theorem close_is_idempotent (st : state) (msg : message) (created created' : bool) :
  let closed := handlePortMessage st "AUDIO_WS_CLOSE" msg created in
  handlePortMessage closed "AUDIO_WS_CLOSE" msg created' = closed.
Proof.
  intros closed. subst closed. unfold handlePortMessage. simpl.
  unfold on_close. destruct (tabId msg) as [tab|]; [|done].
  destruct (negb (String.eqb (participantId msg) "")).
  - destruct (__wsByTabAndParticipant st !! tab) as [pm|] eqn:Et.
    2:{ by rewrite Et. }
    destruct (participantMaps st !! pm) as [m|] eqn:Em.
    2:{ by rewrite Et, Em. }
    set (st1 := match m !! participantId msg with Some c => _ | None => _ end).
    assert (Hsame : __wsByTabAndParticipant st1 = __wsByTabAndParticipant st
                    /\ participantMaps st1 = participantMaps st
                    /\ __wsByTab st1 = __wsByTab st).
    { subst st1. destruct (m !! participantId msg); [apply byTab_update_conn|done]. }
    destruct Hsame as (Hb1 & Hm1 & Ht1). cbn [__wsByTabAndParticipant participantMaps
      conns __wsByTab keepAlive]. rewrite Hb1, Hm1.
    assert (Hlen : pm < length (participantMaps st)) by (by eapply lookup_lt_Some).
    destruct (decide (delete (participantId msg) m = ∅)) as [Hempty|Hne].
    + by rewrite lookup_delete_eq.
    + rewrite Et, list_lookup_insert_eq by done.
      rewrite lookup_delete_eq. rewrite delete_delete_eq.
      cbn [__wsByTabAndParticipant participantMaps conns __wsByTab keepAlive].
      rewrite list_insert_insert_eq.
      destruct (decide (delete (participantId msg) m = ∅)); done.
  - unfold closeWsForTab. simpl.
    set (st1 := match __wsByTab st !! tab with Some c => _ | None => _ end).
    rewrite lookup_delete_eq. simpl. by rewrite delete_delete_eq.
Qed.

Lemma close_is_idempotent_witness :
  let msg := Message (Some 7%Z) "ana" "ws://backend" NotABuffer 0 in
  let closed := handlePortMessage (run init [PORT "AUDIO_WS_OPEN" msg true])
                  "AUDIO_WS_CLOSE" msg true in
  handlePortMessage closed "AUDIO_WS_CLOSE" msg true = closed.
Proof.
  intros msg closed.
  apply (close_is_idempotent (run init [PORT "AUDIO_WS_OPEN" msg true]) msg true true).
Defined.

Lemma normalize_seq_nth (bytes : list Z) :
  Forall (fun b => (0 <= b < 256)%Z) bytes ->
  map (fun i => (nth i bytes 0 mod 256)%Z) (seq 0 (length bytes)) = bytes.
Proof.
  intros H. induction H as [|b bytes Hb H IH]; simpl; [done|].
  rewrite Z.mod_small by done. f_equal. rewrite <- seq_shift, map_map. apply IH.
Qed.

(** X13.  A byte array that reaches the relay as a plain object with one
    numeric key per byte is rebuilt byte for byte, whether [byteLength] is
    declared or absent; an empty one is rejected. *)
Theorem serialized_buffer_is_rebuilt (tab : option Z) (pid url_ : string) (bytes : list Z)
    (declared : nat) :
  Forall (fun b => (0 <= b < 256)%Z) bytes ->
  declared = length bytes \/ declared = 0 ->
  normalize (Message tab pid url_ (serialized bytes) declared) =
    if (length bytes =? 0) then None else Some bytes.
Proof.
  intros Hb Hd. unfold normalize, serialized, byteLength_of. simpl.
  destruct bytes as [|b bytes].
  - simpl. destruct Hd as [-> | ->]; done.
  - change (0 <? length (b :: bytes)) with true. cbn [andb orb].
    replace (if (if (0 <? declared) then declared else 0) =? 0 then length (b :: bytes)
             else if (0 <? declared) then declared else 0) with (length (b :: bytes)).
    2:{ destruct Hd as [-> | ->]; done. }
    change (length (b :: bytes) =? 0) with false. cbn iota.
    f_equal. by apply normalize_seq_nth.
Qed.

Lemma serialized_buffer_is_rebuilt_witness :
  normalize (Message (Some 7%Z) "ana" "" (serialized [0; 255; 16]%Z) 3) = Some [0; 255; 16]%Z.
Proof.
  apply (serialized_buffer_is_rebuilt (Some 7%Z) "ana" "" [0; 255; 16]%Z 3).
  - repeat constructor; lia.
  - by left.
Defined.

(** A participant open on a sound state: the new state object is the one
    registered, a connection registered before it is closed, every other one
    is left alone. *)
Lemma open_participant_spec (st : state) (msg : message) (tab : Z) :
  let st1 := handlePortMessage st "AUDIO_WS_OPEN" msg true in
  let c := length (conns st) in
  relay_wf st ->
  tabId msg = Some tab ->
  participantId msg <> EmptyString ->
  url msg <> EmptyString ->
  participant_state st1 tab (participantId msg) = Some c
  /\ (exists pm, conns st1 !! c =
        Some (new_conn (url msg) (ByParticipant pm tab (participantId msg))))
  /\ (forall c0 x, participant_state st tab (participantId msg) = Some c0 ->
        conns st !! c0 = Some x ->
        conns st1 !! c0 = Some (close_ws x))
  /\ (forall c0 x, participant_state st tab (participantId msg) <> Some c0 ->
        conns st !! c0 = Some x -> conns st1 !! c0 = Some x).
Proof.
  intros st1 c Hwf Htab Hpid Hurl.
  subst st1. unfold handlePortMessage. simpl. unfold on_open.
  apply String.eqb_neq in Hpid, Hurl. rewrite Hpid, Htab, Hurl. cbn [negb].
  destruct (relay_wf_participant_map_for st tab Hwf) as (Hwf1 & Ht1 & Hc1).
  assert (Hps : forall pid, participant_state (participant_map_for st tab).1 tab pid
                            = participant_state st tab pid).
  { intros pid. unfold participant_map_for, participant_state.
    destruct (__wsByTabAndParticipant st !! tab) as [pm|] eqn:E; simpl; [by rewrite E|].
    rewrite lookup_insert_eq, lookup_app_r by done. by rewrite Nat.sub_diag. }
  destruct (participant_map_for st tab) as [st1 pm]. cbn [fst snd] in *.
  pose proof (relay_wf_close_existing st1 pm (participantId msg) Hwf1) as Hwf2.
  assert (Hce : __wsByTabAndParticipant (close_existing st1 pm (participantId msg)) !! tab
                = Some pm
                /\ length (conns (close_existing st1 pm (participantId msg))) = c
                /\ forall c0, conns (close_existing st1 pm (participantId msg)) !! c0 =
                     if decide (participant_state st tab (participantId msg) = Some c0)
                     then close_ws <$> conns st !! c0 else conns st !! c0).
  { unfold close_existing. rewrite <- Hps. unfold participant_state. rewrite Ht1.
    destruct (participantMaps st1 !! pm) as [m|] eqn:Em.
    2:{ rewrite Hc1. split; [done|]. split; [done|]. intros c0. by destruct (decide _). }
    destruct (m !! participantId msg) as [c1|] eqn:Ep.
    2:{ rewrite Hc1. split; [done|]. split; [done|]. intros c0. by destruct (decide _). }
    destruct (byTab_update_conn st1 c1 close_ws) as (-> & _ & _).
    rewrite length_update_conn, Hc1. split; [done|]. split; [done|].
    intros c0. rewrite conns_update_conn, Hc1.
    destruct (decide (c1 = c0)) as [<-|Hne].
    - by destruct (decide (Some c1 = Some c1)).
    - destruct (decide (Some c1 = Some c0)) as [[= ?]|]; done. }
  destruct Hce as (Ht2 & Hlen & Hconns).
  destruct (relay_wf_register_participant _ pm tab (participantId msg) (url msg) Hwf2 Ht2)
    as (_ & Hstate & Hnew).
  rewrite Hlen in Hstate. split; [done|]. rewrite Hnew. split; [|split].
  - exists pm. rewrite lookup_app_r by lia. by rewrite Hlen, Nat.sub_diag.
  - intros c0 x Hs Hx. rewrite lookup_app_l by (rewrite Hlen; by eapply lookup_lt_Some).
    rewrite Hconns. destruct (decide _); [|done]. by rewrite Hx.
  - intros c0 x Hs Hx. rewrite lookup_app_l by (rewrite Hlen; by eapply lookup_lt_Some).
    rewrite Hconns. destruct (decide _); [done|]. done.
Qed.

(** X14.  [AUDIO_WS_OPEN] for a participant registers a fresh state object
    (not ready, empty queue) for it; the state object registered before for
    that participant, if any, has its socket closed, and every other
    connection is left as it was. *)
Theorem reopen_replaces_connection (evs : list event) (msg : message) (tab : Z) :
  let st := run init evs in
  let st1 := handlePortMessage st "AUDIO_WS_OPEN" msg true in
  let c := length (conns st) in
  tabId msg = Some tab ->
  participantId msg <> EmptyString ->
  url msg <> EmptyString ->
  participant_state st1 tab (participantId msg) = Some c
  /\ (exists pm, conns st1 !! c =
        Some (new_conn (url msg) (ByParticipant pm tab (participantId msg))))
  /\ (forall c0 x, participant_state st tab (participantId msg) = Some c0 ->
        conns st !! c0 = Some x ->
        conns st1 !! c0 = Some (close_ws x))
  /\ (forall c0 x, participant_state st tab (participantId msg) <> Some c0 ->
        conns st !! c0 = Some x -> conns st1 !! c0 = Some x).
Proof.
  intros st st1 c Htab Hpid Hurl.
  apply open_participant_spec; [|done..]. apply relay_wf_run, relay_wf_init.
Qed.

Lemma reopen_replaces_connection_witness :
  let msg := Message (Some 7%Z) "ana" "ws://backend" NotABuffer 0 in
  let st1 := handlePortMessage (run init [PORT "AUDIO_WS_OPEN" msg true])
               "AUDIO_WS_OPEN" msg true in
  participant_state st1 7 "ana" = Some 1
  /\ ws_closed <$> conns st1 !! 0 = Some true.
Proof.
  intros msg st1.
  destruct (reopen_replaces_connection [PORT "AUDIO_WS_OPEN" msg true] msg 7%Z
              eq_refl ltac:(done) ltac:(done)) as (H1 & _ & H2 & _).
  split; [exact H1|].
  fold st1 in H2. by rewrite (H2 0 (new_conn "ws://backend" (ByParticipant 0 7 "ana"))
                              eq_refl eq_refl).
Defined.

(** X15.  When a participant is opened twice, the close event of the first
    socket, arriving after the second open, removes the registration of the
    second connection: the participant has no state any more and its audio is
    discarded, although the second connection itself is untouched. *)
Theorem stale_close_unregisters_successor (evs : list event) (msg : message) (tab : Z)
    (created : bool) :
  let st := run init evs in
  let c1 := length (conns st) in
  let st2 := handlePortMessage (handlePortMessage st "AUDIO_WS_OPEN" msg true)
               "AUDIO_WS_OPEN" msg true in
  let st3 := ws_onclose st2 c1 in
  tabId msg = Some tab ->
  participantId msg <> EmptyString ->
  url msg <> EmptyString ->
  participant_state st2 tab (participantId msg) = Some (S c1)
  /\ participant_state st3 tab (participantId msg) = None
  /\ conns st3 = conns st2
  /\ handlePortMessage st3 "AUDIO_WS_SEND" msg created = st3.
Proof.
  intros st c1 st2 st3 Htab Hpid Hurl.
  assert (Hwf : relay_wf st) by apply relay_wf_run, relay_wf_init.
  destruct (open_participant_spec st msg tab Hwf Htab Hpid Hurl)
    as (Hs1 & (pm & Hc1) & _ & _).
  fold c1 in Hs1, Hc1.
  set (st1 := handlePortMessage st "AUDIO_WS_OPEN" msg true) in *.
  assert (Hlen1 : length (conns st1) = S c1).
  { subst st1. unfold handlePortMessage. simpl. unfold on_open.
    pose proof Hpid as Hpid'. pose proof Hurl as Hurl'.
    apply String.eqb_neq in Hpid', Hurl'. rewrite Hpid', Htab, Hurl'. simpl.
    destruct (participant_map_for st tab) as [sta pma] eqn:Ea.
    assert (Hca : conns sta = conns st).
    { unfold participant_map_for in Ea.
      destruct (__wsByTabAndParticipant st !! tab); by injection Ea as <- _. }
    unfold register_participant. simpl. rewrite length_app. simpl.
    unfold close_existing. destruct (participantMaps sta !! pma) as [m|].
    - destruct (m !! participantId msg); rewrite ?length_update_conn, Hca; subst c1; lia.
    - rewrite Hca. subst c1. lia. }
  assert (Hwf1 : relay_wf st1).
  { subst st1. by apply (relay_wf_step _ (PORT "AUDIO_WS_OPEN" msg true)). }
  pose proof (open_participant_spec st1 msg tab Hwf1 Htab Hpid Hurl) as H2.
  cbv zeta in H2. fold st2 in H2. rewrite Hlen1 in H2.
  destruct H2 as (Hs2 & (pm2 & Hc2) & Hold & _).
  specialize (Hold c1 _ Hs1 Hc1).
  split; [done|].
  assert (Hwf2 : relay_wf st2).
  { subst st2 st1. apply (relay_wf_step _ (PORT "AUDIO_WS_OPEN" msg true)).
    apply (relay_wf_step _ (PORT "AUDIO_WS_OPEN" msg true)).
    apply relay_wf_run, relay_wf_init. }
  destruct Hwf2 as (Ha & Hb & Hc & Hd & He).
  (* the registered map of the tab is the one the old connection closes over *)
  unfold participant_state in Hs2.
  destruct (__wsByTabAndParticipant st2 !! tab) as [pmr|] eqn:Et; [|done].
  destruct (participantMaps st2 !! pmr) as [mr|] eqn:Em; [|done].
  destruct (Hb pmr mr _ _ Em Hs2) as (x2 & tab2 & Hx2 & Ho2).
  rewrite Hc2 in Hx2. injection Hx2 as <-. simpl in Ho2. injection Ho2 as -> _.
  assert (Hs1' : participant_state st1 tab (participantId msg) = Some c1) by done.
  assert (Hpm : pm = pmr).
  { (* both connections were entered into the map registered for the tab *)
    clear -Hs1' Hc1 Et Em st2 Hpid Hurl Htab.
    unfold participant_state in Hs1'.
    destruct (__wsByTabAndParticipant st1 !! tab) as [pma|] eqn:Eta; [|done].
    assert (Hwf1 : relay_wf st1).
    { subst st1. apply (relay_wf_step _ (PORT "AUDIO_WS_OPEN" msg true)).
      apply relay_wf_run, relay_wf_init. }
    destruct Hwf1 as (_ & Hb1 & _).
    destruct (participantMaps st1 !! pma) as [ma|] eqn:Ema; [|done].
    destruct (Hb1 pma ma _ _ Ema Hs1') as (x1 & tab1 & Hx1 & Ho1).
    rewrite Hc1 in Hx1. injection Hx1 as <-. simpl in Ho1. injection Ho1 as -> _.
    (* the second open finds the same registration *)
    subst st2. unfold handlePortMessage in Et. simpl in Et. unfold on_open in Et.
    apply String.eqb_neq in Hpid, Hurl. rewrite Hpid, Htab, Hurl in Et. simpl in Et.
    unfold participant_map_for in Et. rewrite Eta in Et.
    unfold register_participant in Et. simpl in Et.
    unfold close_existing in Et. rewrite Ema in Et.
    destruct (ma !! participantId msg) as [cx|].
    - destruct (byTab_update_conn st1 cx close_ws) as (Hbt & _ & _).
      rewrite Hbt, Eta in Et. by injection Et.
    - rewrite Eta in Et. by injection Et. }
  subst pmr.
  subst st3. unfold ws_onclose. rewrite Hold. simpl. rewrite Em.
  unfold settle_keepAlive. cbn [conns]. split; [|split; [done|]].
  - unfold participant_state. cbn [__wsByTabAndParticipant participantMaps].
    destruct (decide (delete (participantId msg) mr = ∅)).
    + by rewrite lookup_delete_eq.
    + rewrite Et, list_lookup_insert_eq by (by eapply lookup_lt_Some).
      by rewrite lookup_delete_eq.
  - set (st3 := State _ _ _ _ _).
    assert (Hnone : participant_state st3 tab (participantId msg) = None).
    { subst st3. unfold participant_state. cbn [__wsByTabAndParticipant participantMaps].
      destruct (decide (delete (participantId msg) mr = ∅)).
      - by rewrite lookup_delete_eq.
      - rewrite Et, list_lookup_insert_eq by (by eapply lookup_lt_Some).
        by rewrite lookup_delete_eq. }
    unfold handlePortMessage. simpl. unfold on_send, send_target.
    rewrite Htab. apply String.eqb_neq in Hpid. rewrite Hpid, Hnone.
    by destruct (normalize msg).
Qed.

Lemma stale_close_unregisters_successor_witness :
  let msg := Message (Some 7%Z) "ana" "ws://backend" (Buffer [1; 2]%Z) 2 in
  let st2 := run init [PORT "AUDIO_WS_OPEN" msg true; PORT "AUDIO_WS_OPEN" msg true] in
  participant_state st2 7 "ana" = Some 1
  /\ participant_state (ws_onclose st2 0) 7 "ana" = None
  /\ handlePortMessage (ws_onclose st2 0) "AUDIO_WS_SEND" msg true = ws_onclose st2 0.
Proof.
  intros msg st2.
  destruct (stale_close_unregisters_successor [] msg 7%Z true eq_refl
              ltac:(done) ltac:(done)) as (H1 & H2 & _ & H3).
  done.
Defined.

End RelayConnections.

(** ** Downmix, sample ranges and frame sizes *)

Section MixerProperties.
Import JS Codec Mixer.
Local Open Scope Q_scope.

Lemma nth_map_seq {A} (f : nat -> A) (d : A) n : forall s i,
  (i < n)%nat -> nth i (map f (seq s n)) d = f (s + i)%nat.
Proof.
  induction n as [|n IH]; intros s i Hi; [lia|].
  destruct i as [|i]; simpl.
  - by rewrite Nat.add_0_r.
  - rewrite IH by lia. f_equal. lia.
Qed.

Lemma add_channel_length mono chData : length (add_channel mono chData) = length mono.
Proof. unfold add_channel. by rewrite length_map, length_seq. Qed.

Lemma add_channel_nth mono chData i :
  (i < length mono)%nat ->
  nth i (add_channel mono chData) 0 = f32 (f64 (nth i mono 0 + nth i chData 0)).
Proof. intros Hi. unfold add_channel. by rewrite nth_map_seq. Qed.

Lemma fold_add_channel_length channels : forall mono,
  length (fold_left add_channel channels mono) = length mono.
Proof.
  induction channels as [|ch channels IH]; intros mono; simpl; [done|].
  by rewrite IH, add_channel_length.
Qed.

Lemma sum_channels_length len channels : length (sum_channels len channels) = len.
Proof. unfold sum_channels. by rewrite fold_add_channel_length, repeat_length. Qed.

Lemma num_pos n : (0 < n)%nat -> 0 < num n.
Proof. intros H. unfold num, Qlt. simpl. lia. Qed.

(** Bounds of a sum and of a mean. *)
Lemma fold_Qplus_bounds lo hi (w : list Q) : forall a,
  within lo hi w ->
  a + lo * num (length w) <= fold_left Qplus w a
  /\ fold_left Qplus w a <= a + hi * num (length w).
Proof.
  induction w as [|x w IH]; intros a Hw; simpl.
  - unfold num. simpl. split.
    + assert (E : (a + lo * 0) == a) by ring; rewrite E; clear E. apply Qle_refl.
    + assert (E : (a + hi * 0) == a) by ring; rewrite E; clear E. apply Qle_refl.
  - inversion Hw as [|? ? [Hlo Hhi] Hw']. subst.
    destruct (IH (a + x) Hw') as [H1 H2].
    assert (Hn : num (S (length w)) == 1 + num (length w)).
    { unfold num. rewrite Nat2Z.inj_succ. unfold Z.succ. rewrite inject_Z_plus. ring. }
    split.
    + eapply Qle_trans; [|exact H1]. rewrite Hn.
      assert (E : (a + lo * (1 + num (length w))) == ((a + lo) + lo * num (length w))) by ring; rewrite E; clear E.
      apply Qplus_le_compat; [|apply Qle_refl].
      apply Qplus_le_compat; [apply Qle_refl|done].
    + eapply Qle_trans; [exact H2|]. rewrite Hn.
      assert (E : (a + hi * (1 + num (length w))) == ((a + hi) + hi * num (length w))) by ring; rewrite E; clear E.
      apply Qplus_le_compat; [|apply Qle_refl].
      apply Qplus_le_compat; [apply Qle_refl|done].
Qed.

Lemma mean_bounds lo hi (w : list Q) :
  (0 < length w)%nat -> within lo hi w ->
  lo <= fold_left Qplus w 0 / num (length w)
  /\ fold_left Qplus w 0 / num (length w) <= hi.
Proof.
  intros Hlen Hw. destruct (fold_Qplus_bounds lo hi w 0 Hw) as [H1 H2].
  pose proof (num_pos _ Hlen) as Hn.
  split.
  - apply Qle_shift_div_l; [done|].
    assert (E : (lo * num (length w)) == (0 + lo * num (length w))) by ring; rewrite E; clear E. done.
  - apply Qle_shift_div_r; [done|].
    assert (E : (hi * num (length w)) == (0 + hi * num (length w))) by ring; rewrite E; clear E. done.
Qed.

Lemma within_nth lo hi (w : list Q) i :
  within lo hi w -> (i < length w)%nat -> lo <= nth i w 0 /\ nth i w 0 <= hi.
Proof.
  intros Hw Hi. unfold within in Hw. rewrite List.Forall_forall in Hw.
  apply Hw. by apply nth_In.
Qed.

Lemma within_of_nth lo hi (w : list Q) :
  (forall i, (i < length w)%nat -> lo <= nth i w 0 /\ nth i w 0 <= hi) -> within lo hi w.
Proof.
  intros H. unfold within. rewrite List.Forall_forall. intros x Hx.
  apply (In_nth _ _ 0) in Hx as (i & Hi & <-). by apply H.
Qed.

(** An integer of at most 24 bits goes through both roundings unchanged, so
    the stored value of a sum bounded by it is bounded by it. *)
Lemma store_bounds (j : nat) x :
  (Z.of_nat j <= 2 ^ 24)%Z -> - num j <= x -> x <= num j ->
  - num j <= f32 (f64 x) /\ f32 (f64 x) <= num j.
Proof.
  intros Hj Hlo Hhi.
  assert (R64 : forall z : Z, (Z.abs z <= 2 ^ 24)%Z -> representable 53 (-1074) (inject_Z z)).
  { intros z Hz. apply representable_Z; [|lia].
    etrans; [exact Hz|]. by apply Z.pow_le_mono_r. }
  assert (R32 : forall z : Z, (Z.abs z <= 2 ^ 24)%Z -> representable 24 (-149) (inject_Z z)).
  { intros z Hz. apply representable_Z; [done|lia]. }
  assert (En : - num j == inject_Z (- Z.of_nat j)).
  { unfold num. by rewrite inject_Z_opp. }
  unfold f32, f64. split.
  - rewrite En. apply fround_ge; [done|apply R32; lia|].
    apply fround_ge; [done|apply R64; lia|]. by rewrite <- En.
  - apply fround_le; [done|apply R32; lia|].
    apply fround_le; [done|apply R64; lia|done].
Qed.

Lemma num_S j : num (S j) == num j + 1.
Proof. unfold num. rewrite Nat2Z.inj_succ. unfold Z.succ. by rewrite inject_Z_plus. Qed.

Lemma fold_add_channel_bound channels : forall mono (j : nat),
  (Z.of_nat (j + length channels) <= 2 ^ 24)%Z ->
  within (- num j) (num j) mono ->
  Forall (within (-1) 1) channels ->
  within (- num (j + length channels)) (num (j + length channels))
         (fold_left add_channel channels mono).
Proof.
  induction channels as [|ch channels IH]; intros mono j Hj Hm Hc; cbn [fold_left length].
  - by rewrite Nat.add_0_r.
  - inversion Hc as [|? ? Hch Hc']; subst.
    replace (j + S (length channels))%nat with (S j + length channels)%nat by lia.
    apply IH; [cbn [length] in Hj; lia| |done].
    apply within_of_nth. intros i Hi. rewrite add_channel_length in Hi.
    rewrite add_channel_nth by done.
    destruct (within_nth _ _ _ i Hm Hi) as [H1 H2].
    assert (H3 : -1 <= nth i ch 0 /\ nth i ch 0 <= 1).
    { destruct (Nat.lt_ge_cases i (length ch)) as [Hl|Hl].
      - by apply within_nth.
      - rewrite nth_overflow by done. split; lra. }
    pose proof (num_S j) as ES.
    apply store_bounds; [cbn [length] in Hj; lia|lra|lra].
Qed.

Lemma sum_channels_bound len channels :
  (Z.of_nat (length channels) <= 2 ^ 24)%Z ->
  Forall (within (-1) 1) channels ->
  within (- num (length channels)) (num (length channels)) (sum_channels len channels).
Proof.
  intros Hk Hc. unfold sum_channels.
  apply (fold_add_channel_bound channels (repeat 0 len) 0); [done| |done].
  apply within_of_nth. intros i Hi. rewrite nth_repeat. unfold num.
  change (inject_Z (Z.of_nat 0)) with 0. split; lra.
Qed.

Lemma divide_length k mono : length (divide k mono) = length mono.
Proof. unfold divide. by rewrite length_map. Qed.

Lemma divide_bound (k : nat) mono :
  (0 < k)%nat -> within (- num k) (num k) mono -> within (-1) 1 (divide k mono).
Proof.
  intros Hk Hm. unfold divide, within in *. apply Forall_map.
  eapply Forall_impl; [exact Hm|]. intros s [H1 H2]. cbv beta.
  pose proof (num_pos k Hk) as Pk.
  assert (Hq : -1 <= s / num k /\ s / num k <= 1).
  { split.
    - apply Qle_shift_div_l; [done|]. lra.
    - apply Qle_shift_div_r; [done|]. lra. }
  exact (store_bounds 1 _ ltac:(done) (proj1 Hq) (proj2 Hq)).
Qed.

(** A Float32 value goes through a store unchanged. *)
Lemma store_float32 x y : float32 y -> x == y -> f32 (f64 x) == y.
Proof.
  intros Hy E.
  assert (H64 : f64 x == y).
  { transitivity x; [|done]. apply fround_fixed; [done|].
    apply (representable_proper _ _ y); [by symmetry|].
    apply (representable_wider 24 53 (-149) (-1074)); [lia|lia|done]. }
  transitivity (f64 x); [|done]. apply fround_fixed; [done|].
  apply (representable_proper _ _ y); [by symmetry|done].
Qed.

Lemma float32_double x : float32 x -> float32 (x + x).
Proof. apply representable_double. Qed.

(** One channel of Float32 samples is stored unchanged. *)
Lemma sum_one_channel first :
  Forall float32 first ->
  Forall2 Qeq (sum_channels (length first) [first]) first.
Proof.
  intros Hf. unfold sum_channels. cbn [fold_left].
  apply Forall2_same_length_lookup_2.
  { by rewrite add_channel_length, repeat_length. }
  intros i a b Ha Hb.
  assert (Hi : (i < length first)%nat) by (by eapply lookup_lt_Some).
  rewrite <- (nth_lookup_Some _ _ 0 _ Ha), <- (nth_lookup_Some _ _ 0 _ Hb).
  rewrite add_channel_nth by (by rewrite repeat_length).
  rewrite nth_repeat. apply store_float32; [|ring].
  rewrite List.Forall_forall in Hf. apply Hf. by apply nth_In.
Qed.

(** Two identical channels of Float32 samples are reproduced. *)
Lemma mean_two_channels first :
  Forall float32 first ->
  Forall2 Qeq (divide 2 (sum_channels (length first) [first; first])) first.
Proof.
  intros Hf. pose proof (sum_one_channel first Hf) as H1.
  unfold sum_channels in *. cbn [fold_left] in *.
  set (s1 := add_channel (repeat 0 (length first)) first) in *.
  assert (Hl1 : length s1 = length first).
  { subst s1. by rewrite add_channel_length, repeat_length. }
  apply Forall2_same_length_lookup_2.
  { by rewrite divide_length, add_channel_length. }
  intros i a b Ha Hb.
  assert (Hi : (i < length first)%nat) by (by eapply lookup_lt_Some).
  assert (Hx : float32 (nth i first 0)).
  { rewrite List.Forall_forall in Hf. apply Hf. by apply nth_In. }
  assert (E1 : nth i s1 0 == nth i first 0).
  { rewrite Forall2_lookup in H1. specialize (H1 i).
    destruct (s1 !! i) as [u|] eqn:Eu; [|apply lookup_ge_None in Eu; lia].
    rewrite Hb in H1. inversion H1 as [? ? Huv|]; subst.
    by rewrite (nth_lookup_Some _ _ 0 _ Eu), (nth_lookup_Some _ _ 0 _ Hb). }
  rewrite <- (nth_lookup_Some _ _ 0 _ Hb).
  unfold divide in Ha. rewrite list_lookup_fmap in Ha.
  destruct (add_channel s1 first !! i) as [s2|] eqn:E2; [|done].
  injection Ha as <-.
  assert (E2' : s2 == nth i first 0 + nth i first 0).
  { rewrite <- (nth_lookup_Some _ _ 0 _ E2).
    rewrite add_channel_nth by lia.
    apply store_float32; [by apply float32_double|]. by rewrite E1. }
  apply store_float32; [done|]. rewrite E2'. unfold num. simpl. field.
Qed.

(** X16.  For a block of at most 2^24 channels, all of the length of the first
    one, with samples between -1 and 1, [MonoCaptureProcessor.process] posts a
    block of that length whose samples are again between -1 and 1: neither
    the Float32 sums nor the division push a sample out of range.  A single
    channel of Float32 samples is posted unchanged and two identical such
    channels are reproduced exactly.  [downmixToMono] computes the same block
    (the single channel itself when there is only one). *)
Theorem downmix_keeps_unit_range (first : list Q) (rest : list (list Q))
    (others : list (list (list Q))) :
  let input := first :: rest in
  let channels := length input in
  (0 < length first)%nat ->
  (Z.of_nat channels <= 2 ^ 24)%Z ->
  Forall (fun ch => length ch = length first /\ within (-1) 1 ch) input ->
  exists mono,
    process (input :: others) = Some mono
    /\ length mono = length first
    /\ within (-1) 1 mono
    /\ (Forall float32 first -> rest = [] \/ rest = [first] -> Forall2 Qeq mono first)
    /\ downmixToMono (length first) input =
         Some (if (1 <? channels)%nat then mono else first).
Proof.
  intros input channels Hlen Hk Hall. unfold process. cbn [input].
  assert (E : (length first =? 0)%nat = false) by (apply Nat.eqb_neq; lia).
  rewrite E. eexists. split; [reflexivity|].
  fold input. fold channels.
  assert (Hin : Forall (within (-1) 1) input).
  { eapply Forall_impl; [exact Hall|]. by intros ch [_ H]. }
  pose proof (sum_channels_bound (length first) input Hk Hin) as Hsum.
  fold channels in Hsum.
  assert (Hch : (0 < channels)%nat) by (subst channels input; simpl; lia).
  split; [|split; [|split]].
  - destruct (1 <? channels)%nat; rewrite ?divide_length; apply sum_channels_length.
  - destruct (1 <? channels)%nat eqn:E1.
    + by apply divide_bound.
    + apply Nat.ltb_ge in E1. assert (H1 : channels = 1%nat) by lia.
      by rewrite H1 in Hsum.
  - intros Hf [-> | ->].
    + subst channels input. cbn [length Nat.ltb Nat.leb]. by apply sum_one_channel.
    + subst channels input. cbn [length Nat.ltb Nat.leb]. by apply mean_two_channels.
  - unfold downmixToMono. subst channels input. by destruct rest.
Qed.

Lemma downmix_keeps_unit_range_witness :
  let first := [1 # 2; -1 # 4] in
  exists mono,
    process [[first; first]] = Some mono
    /\ within (-1) 1 mono
    /\ Forall2 Qeq mono first.
Proof.
  intros first.
  assert (Hf : Forall float32 first).
  { repeat constructor.
    - exists 1%Z, (-1)%Z. split; [lia|]. split; [lia|reflexivity].
    - exists (-1)%Z, (-2)%Z. split; [lia|]. split; [lia|reflexivity]. }
  destruct (downmix_keeps_unit_range first [first] [])
    as (mono & Hp & _ & Hw & Hr & _).
  - simpl. lia.
  - simpl. lia.
  - repeat constructor; done.
  - exists mono. split; [exact Hp|]. split; [exact Hw|]. apply Hr; [exact Hf|by right].
Defined.

(** Three identical channels are not always reproduced: the stored sum of
    three samples is rounded, and the stored third of it can be the next
    Float32 number. *)
Example downmix_of_three_rounds_up :
  let x := 12582914 # 16777216 in
  exists y, process [[[x]; [x]; [x]]] = Some [y]
            /\ y == 12582915 # 16777216 /\ float32 x /\ x < y.
Proof.
  eexists. split; [reflexivity|]. split; [vm_compute; reflexivity|]. split.
  - exists 12582914%Z, (-24)%Z. split; [lia|]. split; [lia|reflexivity].
  - vm_compute. reflexivity.
Qed.

Lemma within_firstn_skipn lo hi (w : list Q) k i :
  within lo hi w -> within lo hi (firstn k (skipn i w)).
Proof.
  intros Hw. unfold within in *. rewrite List.Forall_forall in *.
  intros x Hx. apply Hw.
  rewrite <- (firstn_skipn i w). apply in_or_app. right.
  rewrite <- (firstn_skipn k (skipn i w)). apply in_or_app. by left.
Qed.

Lemma resample_loop_within lo hi buffer ratio n : forall off offB,
  lo <= 0 -> 0 <= hi -> within lo hi buffer ->
  within lo hi (resample_loop buffer ratio n off offB).
Proof.
  induction n as [|n IH]; intros off offB Hlo Hhi Hw; simpl; [constructor|].
  rewrite window_loop_spec. simpl. constructor; [|by apply IH].
  set (w := firstn _ (skipn offB buffer)).
  destruct (0 <? length w)%nat eqn:E; [|done].
  apply Nat.ltb_lt in E. apply mean_bounds; [done|].
  by apply within_firstn_skipn.
Qed.

(** X17.  Resampling never leaves the range of its input: if every input
    sample lies between [lo] and [hi], where [lo <= 0 <= hi], so does every
    output sample. *)
Theorem resample_stays_in_range (buffer : list Q) (sourceRate targetRate lo hi : Q) :
  lo <= 0 -> 0 <= hi -> within lo hi buffer ->
  within lo hi (resampleFloat32 buffer sourceRate targetRate).
Proof.
  intros Hlo Hhi Hw. unfold resampleFloat32.
  destruct (eqn sourceRate targetRate); [done|]. by apply resample_loop_within.
Qed.

Lemma resample_stays_in_range_witness :
  within (-1) 1 (resampleFloat32 [1; -1; 1 # 2; 0; -1 # 2] 48000 16000).
Proof.
  apply (resample_stays_in_range [1; -1; 1 # 2; 0; -1 # 2] 48000 16000 (-1) 1);
    [done | done | repeat constructor; done].
Defined.

End MixerProperties.

Section FramingSizes.
Import JS Codec.

Lemma frame_loop_diverges quantize queue : forall fuel offset bytes,
  offset <= length queue -> frame_loop quantize fuel 0 queue offset bytes = None.
Proof.
  induction fuel as [|fuel IH]; intros offset bytes Hoff; simpl; [done|].
  destruct (Z.leb_spec (Z.of_nat 0) (Z.of_nat (length queue) - Z.of_nat offset)); [|lia].
  rewrite Nat.add_0_r. by rewrite IH.
Qed.

Lemma frameSamples_of_small r : (0 <= r)%Q -> (r < 25)%Q -> frameSamples_of r = 0.
Proof.
  intros H0 H25. unfold frameSamples_of, Math_round.
  assert (H : Qfloor (r * 20 / 1000 + (1 # 2)) = 0%Z); [|by rewrite H].
  assert (Hlo : (0 <= r * 20 / 1000 + (1 # 2))%Q).
  { destruct r as [n d]. unfold Qle, Qdiv, Qmult, Qplus, Qinv in *. simpl in *. lia. }
  assert (Hhi : (r * 20 / 1000 + (1 # 2) < 1)%Q).
  { destruct r as [n d]. unfold Qlt, Qle, Qdiv, Qmult, Qplus, Qinv in *. simpl in *. lia. }
  pose proof (Qfloor_le (r * 20 / 1000 + (1 # 2))) as H1.
  pose proof (Qlt_floor (r * 20 / 1000 + (1 # 2))) as H2.
  assert (G1 : (inject_Z (Qfloor (r * 20 / 1000 + (1 # 2))) < 1)%Q)
    by (eapply Qle_lt_trans; eauto).
  assert (G2 : (0 < inject_Z (Qfloor (r * 20 / 1000 + (1 # 2)) + 1))%Q)
    by (eapply Qle_lt_trans; eauto).
  set (z := Qfloor _) in *. clearbody z.
  unfold Qlt, inject_Z in G1, G2. cbn [Qnum Qden] in G1, G2. lia.
Qed.

(** X19.  A target sample rate below 25 Hz gives a frame size of 0, and with
    a frame size of 0 the frame loop never ends, whatever the number of
    iterations allowed: the offscreen handler does not return on any non-empty
    block. *)
Theorem zero_frame_size_never_returns (actualRate targetSampleRate : Q)
    (st : buffers) (block : list Q) :
  (0 <= targetSampleRate)%Q -> (targetSampleRate < 25)%Q ->
  block <> [] ->
  frameSamples_of targetSampleRate = 0
  /\ (forall quantize fuel queue offset bytes,
        offset <= length queue ->
        frame_loop quantize fuel (frameSamples_of targetSampleRate) queue offset bytes = None)
  /\ onmessage_offscreen actualRate targetSampleRate (frameSamples_of targetSampleRate)
       st block = None.
Proof.
  intros H0 H25 Hne. rewrite (frameSamples_of_small _ H0 H25).
  split; [done|]. split; [intros; by apply frame_loop_diverges|].
  unfold onmessage_offscreen, on_block.
  destruct block; [done|]. simpl length. simpl Nat.eqb.
  by rewrite frame_loop_diverges by lia.
Qed.

Lemma zero_frame_size_never_returns_witness :
  onmessage_offscreen 48000 10 (frameSamples_of 10) new_buffers [1 # 2]%Q = None.
Proof.
  apply (zero_frame_size_never_returns 48000 10 new_buffers [1 # 2]%Q); done.
Defined.

Lemma frame_loop_bytes quantize fs queue : forall fuel offset bytes sent offset' bytes',
  frame_loop quantize fuel fs queue offset bytes = Some (sent, offset', bytes') ->
  bytes' = bytes + list_sum (map byteLength sent).
Proof.
  induction fuel as [|fuel IH]; intros offset bytes sent offset' bytes' H; simpl in H; [done|].
  destruct (_ <=? _)%Z.
  - destruct (frame_loop _ _ _ _ _ _) as [[[s o] b]|] eqn:E; [|done].
    injection H as <- <- <-. apply IH in E. simpl. lia.
  - injection H as <- <- <-. simpl. lia.
Qed.

Lemma frames_all_length {A} fs m : forall (l : list A),
  m * fs <= length l -> Forall (fun f => length f = fs) (frames fs l m).
Proof.
  induction m as [|m IH]; intros l H; simpl; [constructor|].
  simpl in H. constructor.
  - rewrite firstn_length_le; lia.
  - apply IH. rewrite length_skipn. lia.
Qed.

Lemma feed_bytes quantize s t fs blocks : forall st st' sent,
  feed (on_block quantize s t fs) st blocks = Some (st', sent) ->
  bytesSent st' = bytesSent st + list_sum (map byteLength sent).
Proof.
  induction blocks as [|b blocks IH]; intros st st' sent H; simpl in H.
  - injection H as <- <-. simpl. lia.
  - destruct (on_block quantize s t fs st b) as [[st1 sent1]|] eqn:E1; [|done].
    destruct (feed _ st1 blocks) as [[st2 sent2]|] eqn:E2; [|done].
    injection H as <- <-. apply IH in E2. rewrite E2.
    rewrite map_app, list_sum_app.
    assert (H1 : bytesSent st1 = bytesSent st + list_sum (map byteLength sent1)); [|lia].
    unfold on_block in E1. destruct (length b =? 0).
    + injection E1 as <- <-. simpl. lia.
    + destruct (frame_loop _ _ _ _ _ _) as [[[s0 o] by_]|] eqn:El; [|done].
      injection E1 as <- <-. simpl. by apply frame_loop_bytes in El.
Qed.

(** X18.  For a positive frame size, every frame the worklet handler sends
    has exactly [frameSamples] samples, that is [2 * frameSamples] bytes;
    [bytesSent] is the total size of the frames sent; fewer than
    [frameSamples] samples stay buffered. *)
Theorem frames_are_whole (actualRate targetSampleRate : Q) (frameSamples : nat)
    (blocks : list (list Q)) :
  0 < frameSamples ->
  exists st' sent,
    feed (fun st block => onmessage actualRate targetSampleRate frameSamples st (Audio block))
         new_buffers blocks = Some (st', sent)
    /\ Forall (fun pcm => length pcm = frameSamples
                          /\ byteLength pcm = 2 * frameSamples) sent
    /\ bytesSent st' = 2 * frameSamples * length sent
    /\ length (bufferQueue st') < frameSamples.
Proof.
  intros Hfs.
  destruct (feed_spec floatTo16BitPCM actualRate targetSampleRate frameSamples Hfs blocks
              new_buffers ltac:(simpl; lia)) as (st' & Hfeed & Hq).
  simpl in Hfeed, Hq.
  set (stream := concat (map (fun b => resampleFloat32 b actualRate targetSampleRate) blocks)) in *.
  exists st', (map floatTo16BitPCM (frames frameSamples stream (length stream / frameSamples))).
  split; [exact Hfeed|].
  assert (Hall : Forall (fun pcm => length pcm = frameSamples
                                    /\ byteLength pcm = 2 * frameSamples)
                   (map floatTo16BitPCM
                      (frames frameSamples stream (length stream / frameSamples)))).
  { apply Forall_map.
    eapply Forall_impl; [apply frames_all_length|].
    - pose proof (Nat.div_mod_eq (length stream) frameSamples). lia.
    - intros f Hf. cbv beta in Hf. unfold byteLength, floatTo16BitPCM.
      rewrite !length_map. lia. }
  split; [exact Hall|]. split.
  - rewrite (feed_bytes _ _ _ _ _ _ _ _ Hfeed). simpl.
    clear -Hall. induction Hall as [|pcm l [_ Hb] H IH]; simpl; [lia|].
    rewrite Hb, IH. lia.
  - rewrite Hq, leftover_length by done. by apply Nat.mod_upper_bound, Nat.neq_0_lt_0.
Qed.

Lemma frames_are_whole_witness :
  exists st' sent,
    feed (fun st block => onmessage 48000 16000 2 st (Audio block)) new_buffers
         [[1; 1; 1; 0; 0; 0; 1; 1; 1]%Q; [0; 0; 0; 1; 1; 1; 0; 0; 0]%Q]
    = Some (st', sent)
    /\ Forall (fun pcm => length pcm = 2 /\ byteLength pcm = 4) sent
    /\ bytesSent st' = 2 * 2 * length sent.
Proof.
  destruct (frames_are_whole 48000 16000 2
              [[1; 1; 1; 0; 0; 0; 1; 1; 1]%Q; [0; 0; 0; 1; 1; 1; 0; 0; 0]%Q] ltac:(lia))
    as (st' & sent & H1 & H2 & H3 & _).
  exists st', sent. split; [exact H1|]. split; [exact H2|exact H3].
Defined.

End FramingSizes.

(** ** Offscreen socket, room code and content-script bridge *)

Section OffscreenSocket.
Import Offscreen OffscreenRun.

Lemma run_cons st ev evs : run st (ev :: evs) = run (step st ev) evs.
Proof. done. Qed.

Lemma run_app st evs1 evs2 : run st (evs1 ++ evs2) = run (run st evs1) evs2.
Proof. unfold run. by rewrite fold_left_app. Qed.

Lemma offscreen_inv evs : forall st sent,
  ws st = Some sent ->
  (wsReady st = true -> pendingBinaryQueue st = []) ->
  exists extra,
    ws (run st evs) = Some (sent ++ extra)
    /\ extra ++ pendingBinaryQueue (run st evs) = pendingBinaryQueue st ++ pcm_given evs
    /\ (wsReady (run st evs) = true -> pendingBinaryQueue (run st evs) = []).
Proof.
  induction evs as [|ev evs IH]; intros st sent Hws Hq.
  - exists []. cbn [run fold_left pcm_given flat_map]. by rewrite !app_nil_r.
  - rewrite run_cons. destruct ev as [b| |]; cbn [step].
    + unfold sendPCM. rewrite Hws. destruct (wsReady st) eqn:Er.
      * destruct (IH (State (Some (sent ++ [b])) true (pendingBinaryQueue st)) (sent ++ [b])
                    eq_refl Hq) as (extra & H1 & H2 & H3).
        exists (b :: extra). split; [|split; [|done]].
        -- rewrite H1. by rewrite <- app_assoc.
        -- cbn [pendingBinaryQueue] in H2. rewrite (Hq eq_refl) in *.
           simpl in *. by rewrite H2.
      * destruct (IH (State (Some sent) false (pendingBinaryQueue st ++ [b])) sent
                    eq_refl ltac:(done)) as (extra & H1 & H2 & H3).
        exists extra. split; [done|]. split; [|done].
        rewrite H2. cbn [pendingBinaryQueue]. simpl. by rewrite <- app_assoc.
    + unfold onopen. rewrite Hws.
      destruct (IH (State (Some (sent ++ pendingBinaryQueue st)) true []) _
                  eq_refl ltac:(done)) as (extra & H1 & H2 & H3).
      exists (pendingBinaryQueue st ++ extra). split; [|split; [|done]].
      * rewrite H1. by rewrite <- app_assoc.
      * cbn [pendingBinaryQueue] in H2. simpl in *. by rewrite <- app_assoc, H2.
    + unfold onclose.
      destruct (IH (State (ws st) false (pendingBinaryQueue st)) sent
                  Hws ltac:(done)) as (extra & H1 & H2 & H3).
      exists extra. done.
Qed.

Lemma offscreen_before_open evs : forall st,
  Forall (fun ev => ev <> WS_OPEN) evs ->
  ws st = Some [] -> wsReady st = false ->
  ws (run st evs) = Some [] /\ wsReady (run st evs) = false
  /\ pendingBinaryQueue (run st evs) = pendingBinaryQueue st ++ pcm_given evs.
Proof.
  induction evs as [|ev evs IH]; intros st Hall Hws Hr.
  - cbn [run fold_left pcm_given flat_map]. by rewrite app_nil_r.
  - inversion Hall as [|? ? Hev Hall']; subst. rewrite run_cons.
    destruct ev as [b| |]; [| done |]; cbn [step].
    + unfold sendPCM. rewrite Hws, Hr.
      destruct (IH (State (Some []) false (pendingBinaryQueue st ++ [b])) Hall'
                  eq_refl eq_refl) as (H1 & H2 & H3).
      split; [done|]. split; [done|]. rewrite H3. simpl. by rewrite <- app_assoc.
    + unfold onclose.
      by destruct (IH (State (ws st) false (pendingBinaryQueue st)) Hall' Hws eq_refl)
        as (H1 & H2 & H3).
Qed.

(** X20.  For the socket of the offscreen script, opened from the stopped
    state: before the open event nothing is sent and the buffers given to
    [sendPCM] wait in order; after it, what has been sent starts with the
    buffers given before the open event, in order, and the later buffers
    follow, sent or (once the socket has closed) waiting, in the order given,
    none lost or repeated. *)
Theorem offscreen_socket_fifo (st : state) (before after : list event) :
  Forall (fun ev => ev <> WS_OPEN) before ->
  let st0 := openWebSocket (stopCapture st) true in
  ws (run st0 before) = Some []
  /\ pendingBinaryQueue (run st0 before) = pcm_given before
  /\ exists later,
       ws (run st0 (before ++ WS_OPEN :: after)) = Some (pcm_given before ++ later)
       /\ later ++ pendingBinaryQueue (run st0 (before ++ WS_OPEN :: after))
          = pcm_given after.
Proof.
  intros Hb st0. subst st0. unfold openWebSocket, stopCapture.
  cbn [wsReady pendingBinaryQueue].
  set (st0 := State (Some []) false []).
  destruct (offscreen_before_open before st0 Hb eq_refl eq_refl) as (H1 & H2 & H3).
  split; [done|]. split; [done|].
  rewrite run_app, run_cons. cbn [step]. unfold onopen. rewrite H1, H3. simpl.
  destruct (offscreen_inv after (State (Some (pcm_given before)) true []) (pcm_given before)
              eq_refl ltac:(done)) as (later & G1 & G2 & G3).
  exists later. done.
Qed.

Lemma offscreen_socket_fifo_witness :
  let st0 := openWebSocket (stopCapture (State None true [[9%Z]])) true in
  let before := [SEND_PCM [1%Z]; WS_CLOSE; SEND_PCM [2%Z]] in
  pendingBinaryQueue (run st0 before) = [[1%Z]; [2%Z]]
  /\ exists later,
       ws (run st0 (before ++ WS_OPEN :: [SEND_PCM [3%Z]])) = Some ([[1%Z]; [2%Z]] ++ later).
Proof.
  intros st0 before.
  destruct (offscreen_socket_fifo (State None true [[9%Z]])
              before [SEND_PCM [3%Z]]
              ltac:(repeat constructor; done)) as (_ & H0 & later & H1 & _).
  split; [exact H0|]. by exists later.
Defined.

End OffscreenSocket.

Section BackgroundProperties.
Import Background.

Lemma all_safe_replace s : all_safe (replace_unsafe s) = true.
Proof.
  induction s as [|c s IH]; [done|]. cbn [replace_unsafe all_safe].
  rewrite IH, andb_true_r. by destruct (safe c) eqn:E.
Qed.

Lemma replace_unsafe_safe s : all_safe s = true -> replace_unsafe s = s.
Proof.
  induction s as [|c s IH]; [done|]. cbn [replace_unsafe all_safe].
  intros [Hc Hs]%andb_true_iff. by rewrite Hc, IH.
Qed.

Lemma all_safe_substring n : forall s,
  all_safe s = true -> all_safe (String.substring 0 n s) = true.
Proof.
  induction n as [|n IH]; intros [|c s]; try done.
  cbn [String.substring all_safe]. intros [Hc Hs]%andb_true_iff.
  by rewrite Hc, IH.
Qed.

Lemma length_substring n : forall s, (String.length (String.substring 0 n s) <= n)%nat.
Proof.
  induction n as [|n IH]; intros [|c s]; simpl; try lia.
  specialize (IH s). lia.
Qed.

Lemma substring_all n : forall s,
  (String.length s <= n)%nat -> String.substring 0 n s = s.
Proof.
  induction n as [|n IH]; intros [|c s]; simpl; try done; try lia.
  intros H. rewrite IH; [done|lia].
Qed.

Lemma sanitize_fixed s : room_code s -> sanitize s = s.
Proof.
  intros (Hne & Hlen & Hsafe). unfold sanitize.
  rewrite (replace_unsafe_safe _ Hsafe), (substring_all _ _ Hlen).
  destruct (String.eqb s "") eqn:E; [|done]. by apply String.eqb_eq in E.
Qed.

Lemma sanitize_room_code val : room_code (sanitize val).
Proof.
  unfold sanitize.
  destruct (String.eqb _ "") eqn:E.
  - repeat split; [done|simpl; lia].
  - apply String.eqb_neq in E. split; [done|]. split.
    + apply length_substring.
    + apply all_safe_substring, all_safe_replace.
Qed.

(** X21.  [sanitize] always returns a non-empty string of at most 128
    characters, all of them letters, digits, [_], [-] or [.]; it changes
    nothing on its own results; the result has as many characters as the
    input, up to 128, and is "unknown" for an empty input. *)
Theorem sanitize_is_a_room_code (val : string) :
  room_code (sanitize val)
  /\ sanitize (sanitize val) = sanitize val
  /\ (String.length (sanitize val)
      = if String.eqb val "" then 7 else Nat.min (String.length val) 128)%nat
  /\ (val = EmptyString -> sanitize val = "unknown"%string).
Proof.
  split; [apply sanitize_room_code|]. split; [apply sanitize_fixed, sanitize_room_code|].
  split; [|by intros ->].
  unfold sanitize.
  assert (Hl : forall n s, String.length (String.substring 0 n (replace_unsafe s))
                           = Nat.min (String.length s) n).
  { induction n as [|n IH]; intros [|c s]; simpl; try done. by rewrite IH. }
  specialize (Hl 128%nat val).
  destruct (String.eqb (String.substring 0 128 (replace_unsafe val)) "") eqn:E.
  - apply String.eqb_eq in E. rewrite E in Hl. destruct val; [done|]. simpl in Hl. lia.
  - apply String.eqb_neq in E. destruct val; [done|]. by rewrite Hl.
Qed.

Lemma sanitize_is_a_room_code_witness : sanitize "" = "unknown"%string.
Proof.
  destruct (sanitize_is_a_room_code "") as (_ & _ & _ & H). by apply H.
Defined.

Lemma split_safe s : all_safe s = true -> split s = [s].
Proof.
  induction s as [|c s IH]; [done|]. cbn [all_safe split].
  intros [Hc Hs]%andb_true_iff. rewrite (IH Hs).
  destruct (Ascii.eqb c "/") eqn:E; [|done].
  apply Ascii.eqb_eq in E. by subst c.
Qed.

Lemma split_piece s rest :
  all_safe s = true -> split (s ++ String "/" rest) = s :: split rest.
Proof.
  induction s as [|c s IH]; [done|]. cbn [all_safe]. intros [Hc Hs]%andb_true_iff.
  change (String c s ++ String "/" rest)%string with (String c (s ++ String "/" rest)).
  cbn [split]. rewrite (IH Hs).
  destruct (Ascii.eqb c "/") eqn:E; [|done].
  apply Ascii.eqb_eq in E. by subst c.
Qed.

Lemma room_code_room : room_code "room".
Proof. repeat split; [done|simpl; lia]. Qed.

(** X22.  [extractMeetRoomCode] always returns a string fit for a query
    parameter: "room" when the URL does not parse or has no path segment,
    otherwise the first path segment, or the one after "lookup"; a segment that
    is already fit is returned as it is. *)
Theorem room_code_of_meet_path (pathname : option string) (code rest : string) :
  room_code code ->
  room_code (extractMeetRoomCode pathname)
  /\ extractMeetRoomCode None = "room"%string
  /\ extractMeetRoomCode (Some "/"%string) = "room"%string
  /\ extractMeetRoomCode (Some (String "/" code)) = code
  /\ (code <> "lookup"%string ->
      extractMeetRoomCode (Some (String "/" (code ++ String "/" rest))) = code)
  /\ extractMeetRoomCode (Some (String "/" ("lookup" ++ String "/" code))) = code.
Proof.
  intros Hcode. pose proof Hcode as (Hne & Hlen & Hsafe).
  assert (Hnb : String.eqb code "" = false) by by apply String.eqb_neq.
  split; [|split; [done|split; [done|split; [|split]]]].
  - unfold extractMeetRoomCode. destruct pathname as [p|]; [|apply room_code_room].
    destruct (List.filter _ _) as [|p0 [|p1 ?]]; [apply room_code_room|..];
      try destruct (String.eqb p0 "lookup"); apply sanitize_room_code.
  - unfold extractMeetRoomCode. cbn [split]. change (Ascii.eqb "/" "/") with true.
    cbv iota. rewrite (split_safe _ Hsafe). cbn [List.filter String.eqb negb].
    rewrite Hnb. cbn [negb]. by apply sanitize_fixed.
  - intros Hnl. unfold extractMeetRoomCode. cbn [split].
    change (Ascii.eqb "/" "/") with true. cbv iota.
    rewrite (split_piece _ _ Hsafe). cbn [List.filter String.eqb negb].
    rewrite Hnb. cbn [negb].
    assert (E : String.eqb code "lookup" = false) by by apply String.eqb_neq.
    destruct (List.filter _ (split rest)); [|rewrite E]; by apply sanitize_fixed.
  - unfold extractMeetRoomCode. cbn [split].
    change (Ascii.eqb "/" "/") with true. cbv iota.
    rewrite (split_piece "lookup" code eq_refl).
    rewrite (split_safe _ Hsafe). cbn [List.filter]. rewrite Hnb.
    change (String.eqb "lookup" "") with false. cbn [negb].
    change (String.eqb "lookup" "lookup") with true. cbv iota.
    by apply sanitize_fixed.
Qed.

Lemma room_code_of_meet_path_witness :
  extractMeetRoomCode (Some "/abc-defg-hij/extra"%string) = "abc-defg-hij"%string
  /\ extractMeetRoomCode (Some "/lookup/abc-defg-hij"%string) = "abc-defg-hij"%string.
Proof.
  assert (H : room_code "abc-defg-hij").
  { repeat split; [done|simpl; lia]. }
  destruct (room_code_of_meet_path None "abc-defg-hij" "extra" H)
    as (_ & _ & _ & _ & H1 & H2).
  split; [by apply H1|exact H2].
Defined.

End BackgroundProperties.

Section BridgeProperties.
Import Bridge.

Lemma queued_audio_step st ev :
  (queued_audio st <= 50)%nat -> (queued_audio (step st ev) <= 50)%nat.
Proof.
  intros H.
  assert (Hc : forall m, is_send m = false -> queued_audio (enqueue st m) = queued_audio st).
  { intros m Hm. unfold queued_audio, enqueue. cbn [messageQueue].
    rewrite List.filter_app. simpl. rewrite Hm. by rewrite app_nil_r. }
  assert (Hfl : (queued_audio st <= List.length (messageQueue st))%nat).
  { unfold queued_audio. apply List.filter_length_le. }
  destruct ev as [d port|alive|tabId]; cbn [step].
  - unfold on_message.
    destruct (String.eqb (type d) "AUDIO_WS_OPEN").
    { destruct (String.eqb (d_url d) ""); [done|]. destruct port; [done|]. by rewrite Hc. }
    destruct (String.eqb (type d) "AUDIO_WS_SEND").
    { destruct (send_message st d) as [m|]; [|done]. destruct port; [done|].
      destruct (Nat.ltb_spec (List.length (messageQueue st)) 50); [|done].
      unfold queued_audio, enqueue. cbn [messageQueue].
      rewrite List.filter_app, List.length_app. fold (queued_audio st).
      assert (List.length (List.filter is_send [m]) <= 1)%nat; [|lia].
      simpl. destruct (is_send m); simpl; lia. }
    destruct (String.eqb (type d) "AUDIO_WS_CLOSE"); [|done].
    destruct port; [done|]. by rewrite Hc.
  - unfold flush, queued_audio. simpl. lia.
  - unfold on_inject. by destruct tabId.
Qed.

(** X23.  While the port is away, the content script never holds more than
    50 [AUDIO_WS_SEND] messages in its queue, whatever the page posts and
    whenever the port comes back. *)
Theorem queued_audio_is_capped (st : state) (evs : list event) :
  (queued_audio st <= 50)%nat -> (queued_audio (run st evs) <= 50)%nat.
Proof.
  revert st. induction evs as [|ev evs IH]; intros st H; [done|].
  apply IH. by apply queued_audio_step.
Qed.

Lemma queued_audio_is_capped_witness :
  let chunk := PAGE (Data "AUDIO_WS_SEND" (Some 7%Z) "" "ana" (PArrayBuffer [1; 2]%Z)) false in
  (queued_audio (run init (repeat chunk 60)) <= 50)%nat.
Proof.
  intros chunk. apply (queued_audio_is_capped init (repeat chunk 60)).
  unfold queued_audio, init. simpl. lia.
Defined.

(** X24.  An [AUDIO_WS_SEND] of the page that carries an ArrayBuffer, or a
    view inside its backing buffer, is passed on by the content script as one
    message from which the relay recovers exactly the bytes carried, with their
    number as length, under the same participant and under the tab of the
    message or, when it has none, the current tab. *)
Theorem bridged_audio_is_intact (st : state) (d : data) (bytes : list Z) :
  type d = "AUDIO_WS_SEND"%string ->
  carried (d_buffer d) = Some bytes ->
  exists m,
    on_message st d true = post st ("AUDIO_WS_SEND"%string, m)
    /\ Relay.normalize m = Some bytes
    /\ Relay.byteLength_of m = List.length bytes
    /\ Relay.participantId m = d_participantId d
    /\ Relay.tabId m = match d_tabId d with Some t => Some t | None => currentTabId st end.
Proof.
  intros Ht Hb. unfold on_message, send_message. rewrite Ht.
  change (String.eqb "AUDIO_WS_SEND" "AUDIO_WS_OPEN") with false.
  change (String.eqb "AUDIO_WS_SEND" "AUDIO_WS_SEND") with true. cbv iota.
  destruct (d_buffer d) as [bytes0|backing byteOffset len| |]; try done.
  - injection Hb as ->. eexists. split; [reflexivity|].
    unfold Relay.normalize, Relay.byteLength_of. cbn [Relay.buffer Relay.byteLength].
    rewrite drop_0, firstn_all. split; [done|]. split; [|done].
    by destruct (0 <? List.length bytes)%nat.
  - cbn [carried] in Hb.
    destruct (Nat.leb_spec (byteOffset + len) (List.length backing)) as [Hr|]; [|done].
    injection Hb as <-. eexists. split; [reflexivity|].
    assert (Hl : List.length (Codec.subarray backing byteOffset (byteOffset + len)) = len).
    { unfold Codec.subarray. rewrite length_take, length_drop. lia. }
    unfold Relay.normalize, Relay.byteLength_of. cbn [Relay.buffer Relay.byteLength].
    rewrite drop_0, firstn_all, Hl. split; [done|]. split; [|done].
    by destruct (0 <? len)%nat.
Qed.

Lemma bridged_audio_is_intact_witness :
  let d := Data "AUDIO_WS_SEND" None "" "ana" (PView [9; 1; 2; 9]%Z 1 2) in
  exists m, on_message (on_inject init (Some 7%Z)) d true
            = post (on_inject init (Some 7%Z)) ("AUDIO_WS_SEND"%string, m)
            /\ Relay.normalize m = Some [1; 2]%Z
            /\ Relay.tabId m = Some 7%Z.
Proof.
  intros d.
  destruct (bridged_audio_is_intact (on_inject init (Some 7%Z)) d [1; 2]%Z
              eq_refl eq_refl) as (m & H1 & H2 & _ & _ & H3).
  exists m. done.
Defined.

End BridgeProperties.

(** ** Interceptor: announcements and removals *)

Section InterceptorProperties.
Import Interceptor.

Lemma announced_app t o1 o2 : announced t (o1 ++ o2) = announced t o1 + announced t o2.
Proof. unfold announced. by rewrite List.filter_app, List.length_app. Qed.

Lemma withdrawn_app t o1 o2 : withdrawn t (o1 ++ o2) = withdrawn t o1 + withdrawn t o2.
Proof. unfold withdrawn. by rewrite List.filter_app, List.length_app. Qed.

Lemma on_track_listeners t track_ streamId pcId handlers : forall st,
  listeners_of t (on_track st track_ streamId pcId handlers).1
  = listeners_of t st + announced t (on_track st track_ streamId pcId handlers).2.
Proof.
  induction handlers as [|now handlers IH]; intros st; cbn [on_track].
  - simpl. unfold announced. simpl. lia.
  - destruct (String.eqb (Supervisor.kind track_) "audio").
    + specialize (IH (handleRemoteAudioTrack st track_ streamId pcId now).1).
      unfold handleRemoteAudioTrack in *. cbn [fst snd] in *.
      destruct (on_track _ track_ streamId pcId handlers) as [st2 out2].
      cbn [fst snd] in *. rewrite IH.
      change (?a :: out2) with ([a] ++ out2). rewrite announced_app.
      unfold listeners_of at 1. cbn [endedListeners].
      rewrite List.filter_app, List.length_app. fold (listeners_of t st).
      unfold announced at 2. simpl.
      destruct (String.eqb (Supervisor.id track_) t); simpl; lia.
    + specialize (IH st).
      destruct (on_track st track_ streamId pcId handlers) as [st2 out2].
      by cbn [fst snd] in *.
Qed.

Lemma fire_ended_spec t now listeners : forall st,
  let r := fire_ended st listeners t now in
  endedListeners r.1 = endedListeners st
  /\ withdrawn t r.2 = List.length (List.filter (fun l => String.eqb l t) listeners)
  /\ announced t r.2 = 0
  /\ (forall t', announced t' r.2 = 0)
  /\ (forall t', t' <> t -> withdrawn t' r.2 = 0
                 /\ JSMap.get (tracksRegistry r.1) t' = JSMap.get (tracksRegistry st) t')
  /\ (List.filter (fun l => String.eqb l t) listeners <> [] ->
      JSMap.has (tracksRegistry r.1) t = false)
  /\ (JSMap.has (tracksRegistry st) t = false -> JSMap.has (tracksRegistry r.1) t = false).
Proof.
  induction listeners as [|l listeners IH]; intros st; cbv zeta; cbn [fire_ended List.filter].
  - simpl. repeat split; try done.
  - cbv zeta in IH. destruct (String.eqb l t) eqn:E.
    + apply String.eqb_eq in E as ->. unfold ended_listener.
      specialize (IH (State (JSMap.delete (tracksRegistry st) t) (endedListeners st))).
      destruct (fire_ended _ listeners t now) as [st2 out2]. cbn [fst snd] in *.
      destruct IH as (H1 & H2 & H3 & H4 & H5 & H6 & H7).
      cbn [endedListeners tracksRegistry] in *.
      split; [done|]. split.
      { change (?a :: out2) with ([a] ++ out2). rewrite withdrawn_app, H2.
        unfold withdrawn. simpl. by rewrite String.eqb_refl. }
      split; [by rewrite <- H3|]. split; [intros t'; by rewrite <- (H4 t')|].
      split.
      { intros t' Hne. destruct (H5 t' Hne) as [Ha Hb]. split.
        - change (?a :: out2) with ([a] ++ out2). rewrite withdrawn_app, Ha.
          unfold withdrawn. simpl.
          assert (En : String.eqb t t' = false) by (apply String.eqb_neq; congruence).
          by rewrite En.
        - rewrite Hb. apply get_delete_ne. congruence. }
      split; intros _; apply H7, has_delete_eq.
    + specialize (IH st).
      destruct (fire_ended st listeners t now) as [st2 out2]. cbn [fst snd] in *.
      exact IH.
Qed.

Lemma on_track_listened track_ streamId pcId handlers : forall st,
  registry_listened st ->
  registry_listened (on_track st track_ streamId pcId handlers).1.
Proof.
  induction handlers as [|now handlers IH]; intros st H; cbn [on_track]; [done|].
  destruct (String.eqb (Supervisor.kind track_) "audio").
  - unfold handleRemoteAudioTrack.
    set (st1 := State _ _).
    assert (H1 : registry_listened st1).
    { intros t Ht. subst st1. unfold listeners_of. cbn [endedListeners tracksRegistry] in *.
      rewrite List.filter_app, List.length_app. simpl.
      destruct (String.eqb (Supervisor.id track_) t) eqn:E; simpl.
      - lia.
      - apply String.eqb_neq in E. rewrite has_set_ne in Ht by done.
        apply H in Ht. unfold listeners_of in Ht. lia. }
    specialize (IH st1 H1). by destruct (on_track st1 track_ streamId pcId handlers).
  - specialize (IH st H). by destruct (on_track st track_ streamId pcId handlers).
Qed.

Lemma step_listened st ev : registry_listened st -> registry_listened (step st ev).1.
Proof.
  intros H. destruct ev as [track_ streamId pcId handlers|t now]; cbn [step].
  - by apply on_track_listened.
  - unfold on_ended.
    destruct (fire_ended_spec t now (endedListeners st) st) as (H1 & _ & _ & _ & H5 & H6 & H7).
    intros t' Ht'. unfold listeners_of. rewrite H1. fold (listeners_of t' st).
    destruct (decide (t' = t)) as [->|Hne].
    + destruct (JSMap.has (tracksRegistry st) t) eqn:E; [by apply H|].
      rewrite (H7 eq_refl) in Ht'. done.
    + apply H. unfold JSMap.has in *. by rewrite <- (proj2 (H5 t' Hne)).
Qed.

Lemma run_listened evs : forall st,
  registry_listened st -> registry_listened (run st evs).1.
Proof.
  induction evs as [|ev evs IH]; intros st H; cbn [run]; [done|].
  pose proof (step_listened st ev H) as H1.
  destruct (step st ev) as [st1 out1]. cbn [fst] in H1.
  specialize (IH st1 H1). by destruct (run st1 evs).
Qed.

Lemma step_listeners t st ev :
  listeners_of t (step st ev).1 = listeners_of t st + announced t (step st ev).2.
Proof.
  destruct ev as [track_ streamId pcId handlers|t' now]; cbn [step].
  - apply on_track_listeners.
  - unfold on_ended.
    destruct (fire_ended_spec t' now (endedListeners st) st) as (H1 & _ & _ & H4 & _).
    unfold listeners_of. rewrite H1, (H4 t). lia.
Qed.

Lemma run_listeners t evs : forall st,
  listeners_of t (run st evs).1 = listeners_of t st + announced t (run st evs).2.
Proof.
  induction evs as [|ev evs IH]; intros st; cbn [run].
  - simpl. unfold announced. simpl. lia.
  - pose proof (step_listeners t st ev) as H1.
    destruct (step st ev) as [st1 out1]. cbn [fst snd] in H1.
    specialize (IH st1). destruct (run st1 evs) as [st2 out2]. cbn [fst snd] in *.
    rewrite announced_app. lia.
Qed.

(** X25.  When a track ends, the interceptor posts one
    [WEBRTC_TRACK_REMOVED] for every [WEBRTC_TRACK_ADDED] it has posted for
    that track, and nothing about any other track; the track is then absent
    from the registry and the entries of the other tracks are unchanged. *)
Theorem ended_withdraws_every_announcement (evs : list event) (t : string) (now : Z) :
  let st := (run init evs).1 in
  let r := on_ended st t now in
  withdrawn t r.2 = announced t (run init evs).2
  /\ (forall t', t' <> t ->
        withdrawn t' r.2 = 0
        /\ JSMap.get (tracksRegistry r.1) t' = JSMap.get (tracksRegistry st) t')
  /\ (forall t', announced t' r.2 = 0)
  /\ (JSMap.has (tracksRegistry r.1) t = false).
Proof.
  intros st r. subst r. unfold on_ended.
  destruct (fire_ended_spec t now (endedListeners st) st) as (H1 & H2 & _ & H4 & H5 & H6 & H7).
  pose proof (run_listeners t evs init) as Hl. fold st in Hl.
  unfold listeners_of at 1 in Hl. unfold listeners_of in Hl. simpl in Hl.
  split; [by rewrite H2, Hl|]. split; [done|]. split; [done|].
  destruct (JSMap.has (tracksRegistry st) t) eqn:E; [|by apply H7].
  apply H6. intros Hnil.
  assert (Hr : registry_listened st) by (apply run_listened; intros t' Ht'; done).
  apply Hr in E. unfold listeners_of in E. rewrite Hnil in E. simpl in E. lia.
Qed.

Lemma ended_withdraws_every_announcement_witness :
  let a := Supervisor.Track "t1" "audio" "" in
  let evs := [TRACK a "s1" "1" [1000%Z; 1001%Z]] in
  announced "t1" (run init evs).2 = 2
  /\ withdrawn "t1" (on_ended (run init evs).1 "t1" 5000).2 = 2.
Proof.
  intros a evs. split; [reflexivity|].
  rewrite (proj1 (ended_withdraws_every_announcement evs "t1" 5000)). reflexivity.
Defined.

(** X26.  A mapping for an audio track the interceptor has captured is
    resolved through the registry to that very track; once the track has
    ended, a mapping for it (such as a late fallback) is ignored by the
    supervisor. *)
Theorem supervisor_resolves_live_tracks (evs : list event) (track_ : Supervisor.track)
    (streamId pcId : string) (handlers : list Z) (now : Z)
    (sup : Supervisor.state) (pid pname : string) (acquired : bool) :
  Supervisor.kind track_ = "audio"%string ->
  handlers <> [] ->
  let st := (run init evs).1 in
  let live := (on_track st track_ streamId pcId handlers).1 in
  let gone := (on_ended live (Supervisor.id track_) now).1 in
  Supervisor.on_mapped sup (Some (tracksRegistry live)) (Supervisor.id track_)
    pid pname acquired
  = Supervisor.handleRemoteTrack sup pid pname track_ acquired
  /\ Supervisor.on_mapped sup (Some (tracksRegistry gone)) (Supervisor.id track_)
       pid pname acquired
     = (sup, []).
Proof.
  intros Hk Hh st live gone. split.
  - assert (Hget : exists info, JSMap.get (tracksRegistry live) (Supervisor.id track_)
                                = Some info /\ Supervisor.ti_track info = track_).
    { subst live. generalize st. clear st gone.
      induction handlers as [|h handlers IH]; [done|]. intros st. cbn [on_track].
      rewrite Hk. change (String.eqb "audio" "audio") with true. cbv iota.
      unfold handleRemoteAudioTrack.
      set (st1 := State _ _).
      destruct handlers as [|h' handlers].
      - cbn [on_track fst]. subst st1. cbn [tracksRegistry]. rewrite get_set_eq.
        by eexists.
      - specialize (IH ltac:(done) st1).
        by destruct (on_track st1 track_ streamId pcId (h' :: handlers)). }
    destruct Hget as (info & Hget & Htr). unfold Supervisor.on_mapped.
    by rewrite Hget, Htr.
  - assert (Hhas : JSMap.has (tracksRegistry gone) (Supervisor.id track_) = false).
    { subst gone. unfold on_ended.
      destruct (fire_ended_spec (Supervisor.id track_) now (endedListeners live) live)
        as (_ & _ & _ & _ & _ & H6 & H7).
      destruct (JSMap.has (tracksRegistry live) (Supervisor.id track_)) eqn:E; [|by apply H7].
      apply H6. intros Hnil.
      assert (Hr : registry_listened live).
      { subst live. apply on_track_listened. subst st. apply run_listened.
        intros t' Ht'. done. }
      apply Hr in E. unfold listeners_of in E. rewrite Hnil in E. simpl in E. lia. }
    unfold Supervisor.on_mapped. unfold JSMap.has in Hhas.
    by destruct (JSMap.get (tracksRegistry gone) (Supervisor.id track_)).
Qed.

Lemma supervisor_resolves_live_tracks_witness :
  let a := Supervisor.Track "t1" "audio" "" in
  let live := (on_track init a "s1" "1" [1000%Z; 1001%Z]).1 in
  let gone := (on_ended live "t1" 5000).1 in
  (Supervisor.on_mapped Supervisor.init (Some (tracksRegistry live)) "t1" "42" "Ana" true).2
  = []
  /\ Supervisor.on_mapped Supervisor.init (Some (tracksRegistry gone)) "t1" "42" "Ana" true
     = (Supervisor.init, []).
Proof.
  intros a live gone.
  destruct (supervisor_resolves_live_tracks [] a "s1" "1" [1000%Z; 1001%Z] 5000
              Supervisor.init "42" "Ana" true eq_refl ltac:(done)) as [H1 H2].
  split; [|exact H2].
  exact (f_equal snd H1).
Defined.

End InterceptorProperties.
